(** * Reversi / Othello engine of [script.js]: rules, evaluation and search

    A shallow embedding of the [OthelloGame] class.  JavaScript numbers that
    hold coordinates, cell values and scores are integers here ([Z]); the
    board is an array of row arrays ([list (list Z)]); the transposition
    table is an object keyed by the board's digit string
    ([gmap string num]).  Methods that only read [this.size] and
    [this.board] take them as arguments; methods that assign fields of
    [this] take the game record and return the new one. *)

From stdpp Require Import base numbers list strings pretty gmap sorting.
From Stdlib Require Import ZArith Lia.

Local Open Scope Z_scope.

(** ** Constants and configuration *)

Definition EMPTY : Z := 0.
Definition BLACK : Z := 1.
Definition WHITE : Z := 2.

Definition DIRECTIONS : list (Z * Z) :=
  [ (-1, -1); (-1, 0); (-1, 1);
    (0, -1);           (0, 1);
    (1, -1);  (1, 0);  (1, 1) ].

Definition DEFAULT_SIZE : nat := 8.

Definition AI_DEPTH_MAP (difficulty : string) : option nat :=
  if String.eqb difficulty "easy" then Some 2%nat
  else if String.eqb difficulty "medium" then Some 4%nat
  else if String.eqb difficulty "hard" then Some 6%nat
  else None.

(** ** Boards as arrays of arrays *)

Abbreviation Board := (list (list Z)).

(** [board[r][c]].  A read outside the array is JavaScript's [undefined]
    ([None]); it compares unequal to every number. *)
Definition cell (b : Board) (r c : Z) : option Z :=
  if (0 <=? r) && (0 <=? c)
  then row ← b !! Z.to_nat r; row !! Z.to_nat c
  else None.

(** [board[r][c] === v] *)
Definition cell_is (b : Board) (r c v : Z) : bool :=
  match cell b r c with
  | Some x => x =? v
  | None => false
  end.

(** [board[r][c] = v].  Every write of the program is guarded by a bounds
    test or targets a cell that was just read, so the index is in range;
    outside the range the model leaves the board as it is. *)
Definition set_cell (b : Board) (r c v : Z) : Board :=
  if (0 <=? r) && (0 <=? c)
  then alter (λ row, <[Z.to_nat c := v]> row) (Z.to_nat r) b
  else b.

(** [for (let i = 0; i < n; i++)] *)
Definition range (n : nat) : list Z := Z.of_nat <$> seq 0 n.

(** The row-major double loop [for r ... for c ...] over an n-by-n grid. *)
Definition cells (n : nat) : list (Z * Z) :=
  r ← range n; c ← range n; [(r, c)].

(** The empty grid built by the constructor and by [reset]. *)
Definition empty_board (n : nat) : Board :=
  (λ _, (λ _, EMPTY) <$> range n) <$> range n.

(** [board.map(row => row.slice())] *)
Definition copy_board (b : Board) : Board := (λ row : list Z, row) <$> b.

(** ** Rules on the authoritative board *)

Definition in_bounds (size : nat) (row col : Z) : bool :=
  (0 <=? row) && (row <? Z.of_nat size) && (0 <=? col) && (col <? Z.of_nat size).

Definition opponent (player : Z) : Z :=
  if player =? BLACK then WHITE else BLACK.

(** The [while] loop of [can_flip]: walk from [(rr, cc)] in direction
    [(dr, dc)] over opponent discs.  The loop runs at most [size - 1] times
    from a cell next to an in-bounds cell ([scan_opp_exits] below), so
    [fuel = size] never runs out. *)
Fixpoint scan_opp (fuel : nat) (size : nat) (b : Board)
    (rr cc dr dc opp : Z) (found_opponent : bool) : Z * Z * bool :=
  match fuel with
  | O => (rr, cc, found_opponent)
  | S fuel' =>
      if in_bounds size rr cc && cell_is b rr cc opp
      then scan_opp fuel' size b (rr + dr) (cc + dc) dr dc opp true
      else (rr, cc, found_opponent)
  end.

Definition can_flip_dir (size : nat) (b : Board) (row col player : Z)
    (d : Z * Z) : bool :=
  let '(dr, dc) := d in
  let '(rr, cc, found_opponent) :=
    scan_opp size size b (row + dr) (col + dc) dr dc (opponent player) false in
  found_opponent && in_bounds size rr cc && cell_is b rr cc player.

Definition can_flip (size : nat) (b : Board) (row col player : Z) : bool :=
  if negb (cell_is b row col EMPTY) then false
  else existsb (can_flip_dir size b row col player) DIRECTIONS.

Definition valid_moves (size : nat) (b : Board) (player : Z) : list (Z * Z) :=
  List.filter (λ '(r, c), cell_is b r c EMPTY && can_flip size b r c player)
              (cells size).

Definition has_valid_moves (size : nat) (b : Board) (player : Z) : bool :=
  (0 <? length (valid_moves size b player))%nat.

Definition is_game_over (size : nat) (b : Board) : bool :=
  if (0 <? length (valid_moves size b BLACK))%nat then false
  else if (0 <? length (valid_moves size b WHITE))%nat then false
  else true.

(** The [while] loop of [flip_discs]: collect the opponent discs met. *)
Fixpoint collect_opp (fuel : nat) (size : nat) (b : Board)
    (rr cc dr dc opp : Z) (discs_to_flip : list (Z * Z))
    : Z * Z * list (Z * Z) :=
  match fuel with
  | O => (rr, cc, discs_to_flip)
  | S fuel' =>
      if in_bounds size rr cc && cell_is b rr cc opp
      then collect_opp fuel' size b (rr + dr) (cc + dc) dr dc opp
             (discs_to_flip ++ [(rr, cc)])
      else (rr, cc, discs_to_flip)
  end.

(** [for (let [fr,fc] of discs) board[fr][fc] = player] *)
Definition paint (b : Board) (discs : list (Z * Z)) (player : Z) : Board :=
  foldl (λ acc '(fr, fc), set_cell acc fr fc player) b discs.

Definition flip_dir (size : nat) (row col player : Z) (b : Board)
    (d : Z * Z) : Board :=
  let '(dr, dc) := d in
  let '(rr, cc, discs_to_flip) :=
    collect_opp size size b (row + dr) (col + dc) dr dc (opponent player) [] in
  if in_bounds size rr cc && cell_is b rr cc player
     && (0 <? length discs_to_flip)%nat
  then paint b discs_to_flip player
  else b.

Definition flip_discs (size : nat) (b : Board) (row col player : Z) : Board :=
  foldl (flip_dir size row col player) b DIRECTIONS.

(** ** Position weights and static evaluation *)

Definition generate_position_weights (size : nat) : Board :=
  let n := Z.of_nat size in
  (λ r, (λ c,
     if ((r =? 0) || (r =? n - 1)) && ((c =? 0) || (c =? n - 1)) then 120
     else if ((r =? 1) || (r =? n - 2)) && ((c =? 1) || (c =? n - 2)) then -20
     else if (r =? 0) || (r =? n - 1) || (c =? 0) || (c =? n - 1) then 20
     else 1) <$> range size) <$> range size.

(** [this.position_weights[r][c]]; the table has the board's size, so the
    read is in range (a read outside would be [undefined]; the model reads
    0 there). *)
Definition weight (position_weights : Board) (r c : Z) : Z :=
  default 0 (cell position_weights r c).

(** One pass of the double loop of [evaluate_board]: the pair
    [(player_score, opp_score)] after visiting a cell. *)
Definition evaluate_step (position_weights b : Board) (player opp : Z)
    (acc : Z * Z) (rc : Z * Z) : Z * Z :=
  let '(player_score, opp_score) := acc in
  let '(r, c) := rc in
  let w := weight position_weights r c in
  if cell_is b r c player then (player_score + w, opp_score)
  else if cell_is b r c opp then (player_score, opp_score + w)
  else (player_score, opp_score).

Definition evaluate_board (size : nat) (position_weights b : Board)
    (player : Z) : Z :=
  let opp := opponent player in
  let '(player_score, opp_score) :=
    foldl (evaluate_step position_weights b player opp) (0, 0) (cells size) in
  player_score - opp_score.

(** ** Rules on a snapshot (the search's copies) *)

(** The [while] loop of [is_valid_move_in_state] in one direction; [true]
    is the [return true] inside the loop, [false] is leaving the loop
    (by [break] or by the bounds test). *)
Fixpoint ray_valid (fuel : nat) (size : nat) (b : Board)
    (r c dr dc player opp : Z) (has_opponent : bool) : bool :=
  match fuel with
  | O => false
  | S fuel' =>
      if in_bounds size r c then
        if cell_is b r c opp
        then ray_valid fuel' size b (r + dr) (c + dc) dr dc player opp true
        else if cell_is b r c player && has_opponent then true
        else false
      else false
  end.

Definition is_valid_move_in_state (size : nat) (b : Board)
    (row col player : Z) : bool :=
  if negb (cell_is b row col EMPTY) then false
  else existsb (λ '(dr, dc),
         ray_valid size size b (row + dr) (col + dc) dr dc
                   player (opponent player) false) DIRECTIONS.

Definition has_valid_moves_in_state (size : nat) (b : Board) (player : Z)
    : bool :=
  existsb (λ '(r, c), is_valid_move_in_state size b r c player) (cells size).

Definition get_valid_moves_in_state (size : nat) (b : Board) (player : Z)
    : list (Z * Z) :=
  List.filter (λ '(r, c), is_valid_move_in_state size b r c player)
              (cells size).

Definition is_terminal_state (size : nat) (b : Board) : bool :=
  negb (has_valid_moves_in_state size b BLACK)
  && negb (has_valid_moves_in_state size b WHITE).

(** The [while] loop of [make_move_in_state] in one direction. *)
Fixpoint ray_flip (fuel : nat) (size : nat) (b : Board)
    (r c dr dc player opp : Z) (flip_list : list (Z * Z)) : Board :=
  match fuel with
  | O => b
  | S fuel' =>
      if in_bounds size r c then
        if cell_is b r c opp
        then ray_flip fuel' size b (r + dr) (c + dc) dr dc player opp
               (flip_list ++ [(r, c)])
        else if cell_is b r c player && (0 <? length flip_list)%nat
        then paint b flip_list player
        else b
      else b
  end.

Definition make_move_dir (size : nat) (row col player : Z) (b : Board)
    (d : Z * Z) : Board :=
  let '(dr, dc) := d in
  ray_flip size size b (row + dr) (col + dc) dr dc player (opponent player) [].

Definition make_move_in_state (size : nat) (b : Board) (row col player : Z)
    : Board :=
  foldl (make_move_dir size row col player) (set_cell b row col player)
        DIRECTIONS.

(** [board.map(r => r.join('')).join('')]: the decimal digits of all
    cells, row after row. *)
Definition hash_board (b : Board) : string :=
  String.concat "" ((λ r : list Z, String.concat "" (pretty <$> r)) <$> b).

(** [fill_ratio = total_pieces / max_pieces] is compared with 0.25 and
    0.75; both comparisons are made here on integers
    ([4 * total < max], [4 * total < 3 * max]).  With [max_pieces = 0] the
    ratio is NaN and both comparisons fail. *)
Definition adjust_depth (size : nat) (b : Board) : nat :=
  let total_pieces :=
    Z.of_nat (length (List.filter (λ '(r, c), negb (cell_is b r c EMPTY))
                                  (cells size))) in
  let max_pieces := Z.of_nat size * Z.of_nat size in
  if max_pieces =? 0 then 6%nat
  else if 4 * total_pieces <? max_pieces then 2%nat
  else if 4 * total_pieces <? 3 * max_pieces then 4%nat
  else 6%nat.

(** ** Scores: integers with the two infinities *)

Inductive num : Type :=
  | NegInf
  | Fin (z : Z)
  | PosInf.

Definition num_leb (a b : num) : bool :=
  match a, b with
  | NegInf, _ => true
  | _, PosInf => true
  | Fin x, Fin y => x <=? y
  | _, _ => false
  end.

(** [a < b] *)
Definition num_ltb (a b : num) : bool := negb (num_leb b a).

(** [Math.max(a, b)] and [Math.min(a, b)] *)
Definition num_max (a b : num) : num := if num_leb a b then b else a.
Definition num_min (a b : num) : num := if num_leb a b then a else b.

(** [moves.sort(cmp)]: the sort is stable; [cmp x y < 0] puts [x] first. *)
Fixpoint insert_move (cmp : Z * Z → Z * Z → Z) (m : Z * Z)
    (l : list (Z * Z)) : list (Z * Z) :=
  match l with
  | [] => [m]
  | x :: l' => if cmp x m <? 0 then x :: insert_move cmp m l' else m :: x :: l'
  end.

Definition sort_moves (cmp : Z * Z → Z * Z → Z) (l : list (Z * Z))
    : list (Z * Z) :=
  foldr (insert_move cmp) [] l.

(** [(m1,m2) => w[m2] - w[m1]] and [(m1,m2) => w[m1] - w[m2]] *)
Definition by_weight_desc (position_weights : Board) (m1 m2 : Z * Z) : Z :=
  weight position_weights m2.1 m2.2 - weight position_weights m1.1 m1.2.
Definition by_weight_asc (position_weights : Board) (m1 m2 : Z * Z) : Z :=
  weight position_weights m1.1 m1.2 - weight position_weights m2.1 m2.2.

(** ** Minimax with alpha-beta pruning and the transposition table *)

Abbreviation table := (gmap string num).

Section Search.
Variables (size : nat) (position_weights : Board).

(** The [for (let move of valid_moves)] loop of the maximizing branch.
    [child tbl temp alpha] is the recursive call
    [this.minimax(temp, depth-1, false, alpha, beta, player)]. *)
Fixpoint max_loop (child : table → Board → num → num * table)
    (board : Board) (current_player : Z) (beta : num)
    (moves : list (Z * Z)) (tbl : table) (max_eval alpha : num)
    : num * table :=
  match moves with
  | [] => (max_eval, tbl)
  | move :: rest =>
      let temp := make_move_in_state size (copy_board board)
                    move.1 move.2 current_player in
      let '(eval_val, tbl) := child tbl temp alpha in
      let max_eval := num_max max_eval eval_val in
      let alpha := num_max alpha eval_val in
      if num_leb beta alpha then (max_eval, tbl)
      else max_loop child board current_player beta rest tbl max_eval alpha
  end.

(** The loop of the minimizing branch; [child tbl temp beta] is
    [this.minimax(temp, depth-1, true, alpha, beta, player)]. *)
Fixpoint min_loop (child : table → Board → num → num * table)
    (board : Board) (current_player : Z) (alpha : num)
    (moves : list (Z * Z)) (tbl : table) (min_eval beta : num)
    : num * table :=
  match moves with
  | [] => (min_eval, tbl)
  | move :: rest =>
      let temp := make_move_in_state size (copy_board board)
                    move.1 move.2 current_player in
      let '(eval_val, tbl) := child tbl temp beta in
      let min_eval := num_min min_eval eval_val in
      let beta := num_min beta eval_val in
      if num_leb beta alpha then (min_eval, tbl)
      else min_loop child board current_player alpha rest tbl min_eval beta
  end.

(** [minimax(board, depth, maximizing_player, alpha, beta, player)];
    the table [this.transposition_table] is threaded through.  [depth] is
    a natural number: the callers pass 1, 3 or 5 and every recursive call
    passes [depth - 1] after the test [depth === 0] failed. *)
Fixpoint minimax (depth : nat) (tbl : table) (board : Board)
    (maximizing_player : bool) (alpha beta : num) (player : Z)
    {struct depth} : num * table :=
  let board_hash := hash_board board in
  match tbl !! board_hash with
  | Some cached => (cached, tbl)
  | None =>
      let leaf :=
        let eval_val := Fin (evaluate_board size position_weights board player) in
        (eval_val, <[board_hash := eval_val]> tbl) in
      match depth with
      | O => leaf
      | S depth' =>
          if is_terminal_state size board then leaf
          else
            let current_player :=
              if maximizing_player then player else opponent player in
            let valid_moves :=
              get_valid_moves_in_state size board current_player in
            if (length valid_moves =? 0)%nat then
              let '(eval_val, tbl) :=
                minimax depth' tbl board (negb maximizing_player)
                        alpha beta player in
              (eval_val, <[board_hash := eval_val]> tbl)
            else if maximizing_player then
              let '(max_eval, tbl) :=
                max_loop (λ tbl temp alpha,
                            minimax depth' tbl temp false alpha beta player)
                  board current_player beta
                  (sort_moves (by_weight_desc position_weights) valid_moves)
                  tbl NegInf alpha in
              (max_eval, <[board_hash := max_eval]> tbl)
            else
              let '(min_eval, tbl) :=
                min_loop (λ tbl temp beta,
                            minimax depth' tbl temp true alpha beta player)
                  board current_player alpha
                  (sort_moves (by_weight_asc position_weights) valid_moves)
                  tbl PosInf beta in
              (min_eval, <[board_hash := min_eval]> tbl)
      end
  end.

(** The loop of [get_best_move].  [beta] stays [Infinity]. *)
Fixpoint best_loop (depth : nat) (board : Board) (player : Z) (beta : num)
    (moves : list (Z * Z)) (tbl : table)
    (best_score : num) (best_move : option (Z * Z)) (alpha : num)
    : option (Z * Z) * table :=
  match moves with
  | [] => (best_move, tbl)
  | move :: rest =>
      let temp := make_move_in_state size (copy_board board)
                    move.1 move.2 player in
      let board_hash := hash_board temp in
      let '(score, tbl) :=
        match tbl !! board_hash with
        | Some cached => (cached, tbl)
        | None =>
            let '(score, tbl) :=
              minimax (depth - 1) tbl temp false alpha beta player in
            (score, <[board_hash := score]> tbl)
        end in
      let '(best_score, best_move) :=
        if num_ltb best_score score then (score, Some move)
        else (best_score, best_move) in
      let alpha := num_max alpha best_score in
      if num_leb beta alpha then (best_move, tbl)
      else best_loop depth board player beta rest tbl best_score best_move alpha
  end.
End Search.

(** ** The game object *)

Record HistoryEntry : Type := {
  h_board : Board;
  h_current_player : Z
}.

Record OthelloGame : Type := {
  size : nat;
  board : Board;
  current_player : Z;
  last_placed_move : option (Z * Z);
  game_over : bool;
  opponent_type : string;
  ai_depth : nat;
  player_color : Z;
  ai_player : Z;
  dynamic_depth : bool;
  move_history : list HistoryEntry;
  move_log : list (Z * (Z * Z));
  position_weights : Board;
  transposition_table : table
}.

(** The board after the four central discs are put down. *)
Definition initial_board (size : nat) : Board :=
  let mid := Z.of_nat (size / 2) in
  let b := empty_board size in
  let b := set_cell b (mid - 1) (mid - 1) WHITE in
  let b := set_cell b mid mid WHITE in
  let b := set_cell b (mid - 1) mid BLACK in
  set_cell b mid (mid - 1) BLACK.

(** [new OthelloGame(size, opponent_type, ai_difficulty, player_color,
    dynamic_depth)] *)
Definition new_game (size : nat) (opponent_type ai_difficulty player_color : string)
    (dynamic_depth : bool) : OthelloGame :=
  let b := initial_board size in
  let pc := if String.eqb player_color "B" then BLACK else WHITE in
  {| size := size;
     board := b;
     current_player := BLACK;
     last_placed_move := None;
     game_over := false;
     opponent_type := opponent_type;
     ai_depth := default 2%nat (AI_DEPTH_MAP ai_difficulty);
     player_color := pc;
     ai_player := if pc =? BLACK then WHITE else BLACK;
     dynamic_depth := dynamic_depth;
     move_history := [ {| h_board := copy_board b; h_current_player := BLACK |} ];
     move_log := [];
     position_weights := generate_position_weights size;
     transposition_table := ∅ |}.

Definition black_count (g : OthelloGame) : Z :=
  Z.of_nat (length (List.filter (λ '(r, c), cell_is (board g) r c BLACK)
                                (cells (size g)))).

Definition white_count (g : OthelloGame) : Z :=
  Z.of_nat (length (List.filter (λ '(r, c), cell_is (board g) r c WHITE)
                                (cells (size g)))).

Definition place_piece (g : OthelloGame) (row col player : Z)
    : bool * OthelloGame :=
  if negb (in_bounds (size g) row col)
     || negb (can_flip (size g) (board g) row col player)
  then (false, g)
  else
    let b := set_cell (board g) row col player in
    let b := flip_discs (size g) b row col player in
    (true,
     {| size := size g;
        board := b;
        current_player := current_player g;
        last_placed_move := Some (row, col);
        game_over := game_over g;
        opponent_type := opponent_type g;
        ai_depth := ai_depth g;
        player_color := player_color g;
        ai_player := ai_player g;
        dynamic_depth := dynamic_depth g;
        move_history := move_history g ++
          [ {| h_board := copy_board b; h_current_player := current_player g |} ];
        move_log := move_log g ++ [ (player, (row, col)) ];
        position_weights := position_weights g;
        transposition_table := transposition_table g |}).

Definition switch_player (g : OthelloGame) : OthelloGame :=
  {| size := size g;
     board := board g;
     current_player := opponent (current_player g);
     last_placed_move := last_placed_move g;
     game_over := game_over g;
     opponent_type := opponent_type g;
     ai_depth := ai_depth g;
     player_color := player_color g;
     ai_player := ai_player g;
     dynamic_depth := dynamic_depth g;
     move_history := move_history g;
     move_log := move_log g;
     position_weights := position_weights g;
     transposition_table := transposition_table g |}.

(** [undo_move()]: [None] on the popped history is unreachable, the
    history having more than one entry. *)
Definition undo_move (g : OthelloGame) : bool * OthelloGame :=
  if (1 <? length (move_history g))%nat then
    let history := removelast (move_history g) in
    match last history with
    | Some prev =>
        let b := copy_board (h_board prev) in
        (true,
         {| size := size g;
            board := b;
            current_player := h_current_player prev;
            last_placed_move := None;
            game_over := is_game_over (size g) b;
            opponent_type := opponent_type g;
            ai_depth := ai_depth g;
            player_color := player_color g;
            ai_player := ai_player g;
            dynamic_depth := dynamic_depth g;
            move_history := history;
            move_log := removelast (move_log g);
            position_weights := position_weights g;
            transposition_table := transposition_table g |})
    | None => (false, g)
    end
  else (false, g).

(** [get_best_move(board, player)]: [None] is [null]; the game comes back
    with the table the search has filled. *)
Definition get_best_move (g : OthelloGame) (b : Board) (player : Z)
    : option (Z * Z) * OthelloGame :=
  let valid_moves := get_valid_moves_in_state (size g) b player in
  if (length valid_moves =? 0)%nat then (None, g)
  else
    let depth :=
      if dynamic_depth g then adjust_depth (size g) b else ai_depth g in
    let '(best_move, tbl) :=
      best_loop (size g) (position_weights g) depth b player PosInf
        (sort_moves (by_weight_desc (position_weights g)) valid_moves)
        (transposition_table g) NegInf None NegInf in
    (best_move,
     {| size := size g;
        board := board g;
        current_player := current_player g;
        last_placed_move := last_placed_move g;
        game_over := game_over g;
        opponent_type := opponent_type g;
        ai_depth := ai_depth g;
        player_color := player_color g;
        ai_player := ai_player g;
        dynamic_depth := dynamic_depth g;
        move_history := move_history g;
        move_log := move_log g;
        position_weights := position_weights g;
        transposition_table := tbl |}).

(** ** The search specified without pruning and without a table *)

Section Plain.
Variables (size : nat) (position_weights : Board).

(** Full-width minimax of the given depth over the same rules and the
    same leaf evaluation: a leaf at depth 0 or at a terminal board, a
    pass that costs one ply where the side to move has no move, the
    maximum (minimum) over all children otherwise. *)
Fixpoint plain_minimax (depth : nat) (board : Board)
    (maximizing_player : bool) (player : Z) {struct depth} : num :=
  match depth with
  | O => Fin (evaluate_board size position_weights board player)
  | S depth' =>
      if is_terminal_state size board
      then Fin (evaluate_board size position_weights board player)
      else
        let current_player :=
          if maximizing_player then player else opponent player in
        let valid_moves :=
          get_valid_moves_in_state size board current_player in
        if (length valid_moves =? 0)%nat
        then plain_minimax depth' board (negb maximizing_player) player
        else
          let values :=
            (λ move : Z * Z,
               plain_minimax depth'
                 (make_move_in_state size board move.1 move.2 current_player)
                 (negb maximizing_player) player) <$> valid_moves in
          if maximizing_player then foldr num_max NegInf values
          else foldr num_min PosInf values
  end.
End Plain.

(** ** The search over shared, mutable boards

    In the program a board is an array object whose elements are row array
    objects; [copy_board] allocates new rows and [make_move_in_state]
    assigns into the rows of the board it is given.  This second embedding
    of the search keeps the row objects in a store and passes boards by
    the addresses of their rows, so that a write through one board is seen
    through every board sharing the row.  The search never assigns to an
    element of an outer array (every write is [board[r][c] = v]); a board
    is therefore given by the list of its row addresses. *)

Module Heap.

Abbreviation store := (gmap positive (list Z)).
Abbreviation bref := (list positive).

(** The contents seen through a board. *)
Definition read (s : store) (b : bref) : Board :=
  (λ l, default [] (s !! l)) <$> b.

(** [board[r][c] = v]: the row object at [board[r]] is updated in place. *)
Definition set_cell (s : store) (b : bref) (r c v : Z) : store :=
  if (0 <=? r) && (0 <=? c)
  then match b !! Z.to_nat r with
       | Some l => alter (λ row, <[Z.to_nat c := v]> row) l s
       | None => s
       end
  else s.

(** [row.slice()]: a new row object with the same cells. *)
Definition slice (s : store) (l : positive) : positive * store :=
  let l' := fresh (dom s) in
  (l', <[l' := default [] (s !! l)]> s).

(** [board.map(row => row.slice())] *)
Fixpoint copy_board (s : store) (b : bref) : bref * store :=
  match b with
  | [] => ([], s)
  | l :: rest =>
      let '(l', s) := slice s l in
      let '(rest', s) := copy_board s rest in
      (l' :: rest', s)
  end.

(** Row objects for the rows of a board value, as the constructor and
    [reset] build them. *)
Fixpoint alloc_board (s : store) (rows : Board) : bref * store :=
  match rows with
  | [] => ([], s)
  | row :: rest =>
      let l := fresh (dom s) in
      let '(rest', s) := alloc_board (<[l := row]> s) rest in
      (l :: rest', s)
  end.

Definition paint (s : store) (b : bref) (discs : list (Z * Z)) (player : Z)
    : store :=
  foldl (λ acc '(fr, fc), set_cell acc b fr fc player) s discs.

Fixpoint ray_flip (fuel : nat) (size : nat) (s : store) (b : bref)
    (r c dr dc player opp : Z) (flip_list : list (Z * Z)) : store :=
  match fuel with
  | O => s
  | S fuel' =>
      if in_bounds size r c then
        if cell_is (read s b) r c opp
        then ray_flip fuel' size s b (r + dr) (c + dc) dr dc player opp
               (flip_list ++ [(r, c)])
        else if cell_is (read s b) r c player && (0 <? length flip_list)%nat
        then paint s b flip_list player
        else s
      else s
  end.

Definition make_move_dir (size : nat) (b : bref) (row col player : Z)
    (s : store) (d : Z * Z) : store :=
  let '(dr, dc) := d in
  ray_flip size size s b (row + dr) (col + dc) dr dc player (opponent player) [].

Definition make_move_in_state (size : nat) (s : store) (b : bref)
    (row col player : Z) : store :=
  foldl (make_move_dir size b row col player) (set_cell s b row col player)
        DIRECTIONS.

Section Search.
Variables (size : nat) (position_weights : Board).

Fixpoint max_loop (child : store → table → bref → num → num * store * table)
    (board : bref) (current_player : Z) (beta : num)
    (moves : list (Z * Z)) (s : store) (tbl : table) (max_eval alpha : num)
    : num * store * table :=
  match moves with
  | [] => (max_eval, s, tbl)
  | move :: rest =>
      let '(temp, s) := copy_board s board in
      let s := make_move_in_state size s temp move.1 move.2 current_player in
      let '(eval_val, s, tbl) := child s tbl temp alpha in
      let max_eval := num_max max_eval eval_val in
      let alpha := num_max alpha eval_val in
      if num_leb beta alpha then (max_eval, s, tbl)
      else max_loop child board current_player beta rest s tbl max_eval alpha
  end.

Fixpoint min_loop (child : store → table → bref → num → num * store * table)
    (board : bref) (current_player : Z) (alpha : num)
    (moves : list (Z * Z)) (s : store) (tbl : table) (min_eval beta : num)
    : num * store * table :=
  match moves with
  | [] => (min_eval, s, tbl)
  | move :: rest =>
      let '(temp, s) := copy_board s board in
      let s := make_move_in_state size s temp move.1 move.2 current_player in
      let '(eval_val, s, tbl) := child s tbl temp beta in
      let min_eval := num_min min_eval eval_val in
      let beta := num_min beta eval_val in
      if num_leb beta alpha then (min_eval, s, tbl)
      else min_loop child board current_player alpha rest s tbl min_eval beta
  end.

Fixpoint minimax (depth : nat) (s : store) (tbl : table) (board : bref)
    (maximizing_player : bool) (alpha beta : num) (player : Z)
    {struct depth} : num * store * table :=
  let board_hash := hash_board (read s board) in
  match tbl !! board_hash with
  | Some cached => (cached, s, tbl)
  | None =>
      let leaf :=
        let eval_val :=
          Fin (evaluate_board size position_weights (read s board) player) in
        (eval_val, s, <[board_hash := eval_val]> tbl) in
      match depth with
      | O => leaf
      | S depth' =>
          if is_terminal_state size (read s board) then leaf
          else
            let current_player :=
              if maximizing_player then player else opponent player in
            let valid_moves :=
              get_valid_moves_in_state size (read s board) current_player in
            if (length valid_moves =? 0)%nat then
              let '(eval_val, s, tbl) :=
                minimax depth' s tbl board (negb maximizing_player)
                        alpha beta player in
              (eval_val, s, <[board_hash := eval_val]> tbl)
            else if maximizing_player then
              let '(max_eval, s, tbl) :=
                max_loop (λ s tbl temp alpha,
                            minimax depth' s tbl temp false alpha beta player)
                  board current_player beta
                  (sort_moves (by_weight_desc position_weights) valid_moves)
                  s tbl NegInf alpha in
              (max_eval, s, <[board_hash := max_eval]> tbl)
            else
              let '(min_eval, s, tbl) :=
                min_loop (λ s tbl temp beta,
                            minimax depth' s tbl temp true alpha beta player)
                  board current_player alpha
                  (sort_moves (by_weight_asc position_weights) valid_moves)
                  s tbl PosInf beta in
              (min_eval, s, <[board_hash := min_eval]> tbl)
      end
  end.

Fixpoint best_loop (depth : nat) (board : bref) (player : Z) (beta : num)
    (moves : list (Z * Z)) (s : store) (tbl : table)
    (best_score : num) (best_move : option (Z * Z)) (alpha : num)
    : option (Z * Z) * store * table :=
  match moves with
  | [] => (best_move, s, tbl)
  | move :: rest =>
      let '(temp, s) := copy_board s board in
      let s := make_move_in_state size s temp move.1 move.2 player in
      let board_hash := hash_board (read s temp) in
      let '(score, s, tbl) :=
        match tbl !! board_hash with
        | Some cached => (cached, s, tbl)
        | None =>
            let '(score, s, tbl) :=
              minimax (depth - 1) s tbl temp false alpha beta player in
            (score, s, <[board_hash := score]> tbl)
        end in
      let '(best_score, best_move) :=
        if num_ltb best_score score then (score, Some move)
        else (best_score, best_move) in
      let alpha := num_max alpha best_score in
      if num_leb beta alpha then (best_move, s, tbl)
      else best_loop depth board player beta rest s tbl
             best_score best_move alpha
  end.
End Search.

(** [get_best_move(board, player)] on a board in the store: the move, the
    store and the table after the search. *)
Definition get_best_move (g : OthelloGame) (s : store) (b : bref) (player : Z)
    : option (Z * Z) * store * table :=
  let valid_moves := get_valid_moves_in_state (size g) (read s b) player in
  if (length valid_moves =? 0)%nat then (None, s, transposition_table g)
  else
    let depth :=
      if dynamic_depth g then adjust_depth (size g) (read s b)
      else ai_depth g in
    best_loop (size g) (position_weights g) depth b player PosInf
      (sort_moves (by_weight_desc (position_weights g)) valid_moves)
      s (transposition_table g) NegInf None NegInf.

End Heap.

(** ** Vocabulary of the statements *)

(** All four direction loops walk the same ray: the cells
    [(r0 + j*dr, c0 + j*dc)], [j = 0, 1, ...], as long as they are in
    bounds and hold an opponent disc.  [at_opp j] is the loop test at the
    [j]-th cell, [run_end k] says that the walk leaves the run at index
    [k], [positions k] are the cells walked over until then. *)
Definition at_opp (size : nat) (b : Board) (dr dc opp : Z) (r0 c0 : Z)
    (j : nat) : bool :=
  in_bounds size (r0 + Z.of_nat j * dr) (c0 + Z.of_nat j * dc)
  && cell_is b (r0 + Z.of_nat j * dr) (c0 + Z.of_nat j * dc) opp.

Definition run_end (size : nat) (b : Board) (dr dc opp : Z) (r0 c0 : Z)
    (k : nat) : Prop :=
  (∀ j, (j < k)%nat → at_opp size b dr dc opp r0 c0 j = true)
  ∧ at_opp size b dr dc opp r0 c0 k = false.

Definition positions (dr dc : Z) (r0 c0 : Z) (k : nat) : list (Z * Z) :=
  (λ j : nat, (r0 + Z.of_nat j * dr, c0 + Z.of_nat j * dc)) <$> seq 0 k.

(** A move at [(row, col)] captures in direction [d]: next to the cell
    starts a run of [k >= 1] opponent discs, all on the grid, and the cell
    right after the run is on the grid and holds a disc of [player]. *)
Definition captures (size : nat) (b : Board) (row col player : Z)
    (d : Z * Z) : Prop :=
  ∃ k : nat, (1 ≤ k)%nat ∧
    (∀ j : nat, (1 ≤ j ≤ k)%nat →
       in_bounds size (row + Z.of_nat j * d.1) (col + Z.of_nat j * d.2) = true
       ∧ cell b (row + Z.of_nat j * d.1) (col + Z.of_nat j * d.2)
         = Some (opponent player)) ∧
    in_bounds size (row + Z.of_nat (k + 1) * d.1)
                   (col + Z.of_nat (k + 1) * d.2) = true ∧
    cell b (row + Z.of_nat (k + 1) * d.1) (col + Z.of_nat (k + 1) * d.2)
      = Some player.

(** A well-formed board: [size] rows of [size] cells, each Empty, Black
    or White. *)
Definition wf_board (size : nat) (b : Board) : bool :=
  (length b =? size)%nat
  && forallb (λ row : list Z,
       (length row =? size)%nat
       && forallb (λ x, (x =? EMPTY) || (x =? BLACK) || (x =? WHITE)) row) b.

Definition is_fin (v : num) : Prop := ∃ z, v = Fin z.

(** Every score in the table is a finite number. *)
Definition table_finite (tbl : table) : Prop :=
  ∀ key v, tbl !! key = Some v → is_fin v.

(** What the loops of the search need of the recursive call: a finite
    score, and a table that stays finite. *)
Definition child_finite (child : table → Board → num → num * table) : Prop :=
  ∀ tbl temp bound, table_finite tbl →
    is_fin (child tbl temp bound).1 ∧ table_finite (child tbl temp bound).2.

(** [b'] comes from [b] by writes of [player] into existing cells. *)
Definition only_writes (player : Z) (b b' : Board) : Prop :=
  ∀ r c, cell b' r c = cell b r c
         ∨ (is_Some (cell b r c) ∧ cell b' r c = Some player).

(** The disc count of one colour (the getters [black_count] and
    [white_count]) and the number of discs on the board. *)
Definition disc_count (g : OthelloGame) (player : Z) : Z :=
  if player =? BLACK then black_count g else white_count g.

Definition total_count (g : OthelloGame) : Z := black_count g + white_count g.

(** Every row of the board is an object of the store. *)
Definition allocated (s : Heap.store) (b : Heap.bref) : Prop :=
  Forall (λ l, is_Some (s !! l)) b.

(** [s'] has the objects of [s], with the same contents except in rows
    of [b]. *)
Definition writes_within (b : Heap.bref) (s s' : Heap.store) : Prop :=
  dom s' = dom s ∧ ∀ l, l ∉ b → s' !! l = s !! l.

(** The recursive call of a loop leaves every existing row object as it
    is. *)
Definition child_frame
    (child : Heap.store → table → Heap.bref → num → num * Heap.store * table)
    : Prop :=
  ∀ s tbl temp bound, s ⊆ (child s tbl temp bound).1.2.

(** The recursive call on the store computes what the recursive call on
    board values computes, and leaves every existing row object as it
    is. *)
Definition child_refines
    (hchild : Heap.store → table → Heap.bref → num → num * Heap.store * table)
    (pchild : table → Board → num → num * table) : Prop :=
  ∀ s tbl temp bound, allocated s temp →
    ((hchild s tbl temp bound).1.1, (hchild s tbl temp bound).2)
    = pchild tbl (Heap.read s temp) bound
    ∧ s ⊆ (hchild s tbl temp bound).1.2.

(** The invariant of a game object between two method calls: what the
    constructor establishes and every method keeps. *)
Definition wf_game (g : OthelloGame) : Prop :=
  wf_board (size g) (board g) = true
  ∧ position_weights g = generate_position_weights (size g)
  ∧ (ai_depth g = 2 ∨ ai_depth g = 4 ∨ ai_depth g = 6)%nat
  ∧ table_finite (transposition_table g)
  ∧ (∃ h, last (move_history g) = Some h ∧ h_board h = board g)
  ∧ Forall (λ h, wf_board (size g) (h_board h) = true) (move_history g).

(** One turn as the interface plays it: the side to move places a disc
    and the turn passes ([place_piece] followed by [switch_player]). *)
Definition play (g : OthelloGame) (row col : Z) : OthelloGame :=
  switch_player (place_piece g row col (current_player g)).2.

(** ** Vocabulary of further properties *)

(** [captures] with the length [k] of the captured run made explicit. *)
Definition captures_len (size : nat) (b : Board) (row col player : Z)
    (d : Z * Z) (k : nat) : Prop :=
  (1 ≤ k)%nat ∧
  (∀ j : nat, (1 ≤ j ≤ k)%nat →
     in_bounds size (row + Z.of_nat j * d.1) (col + Z.of_nat j * d.2) = true
     ∧ cell b (row + Z.of_nat j * d.1) (col + Z.of_nat j * d.2)
       = Some (opponent player)) ∧
  in_bounds size (row + Z.of_nat (k + 1) * d.1)
                 (col + Z.of_nat (k + 1) * d.2) = true ∧
  cell b (row + Z.of_nat (k + 1) * d.1) (col + Z.of_nat (k + 1) * d.2)
    = Some player.

(** The cell [(r, c)] is one of the opponent discs that a move of [player]
    at [(row, col)] brackets: it lies in a captured run of one of the
    directions [ds]. *)
Definition bracketed_in (ds : list (Z * Z)) (size : nat) (b : Board)
    (row col player r c : Z) : Prop :=
  ∃ d k (j : nat), d ∈ ds ∧ captures_len size b row col player d k
    ∧ (1 ≤ j ≤ k)%nat
    ∧ r = row + Z.of_nat j * d.1 ∧ c = col + Z.of_nat j * d.2.

Definition bracketed (size : nat) (b : Board) (row col player r c : Z)
    : Prop :=
  bracketed_in DIRECTIONS size b row col player r c.

(** The number of occupied cells that [adjust_depth] counts. *)
Definition occupied (size : nat) (b : Board) : nat :=
  length (List.filter (λ '(r, c), negb (cell_is b r c EMPTY)) (cells size)).

(** The moves of a list that carry a given weight, in the list's order. *)
Definition of_weight (W : Board) (w : Z) (l : list (Z * Z)) : list (Z * Z) :=
  List.filter (λ m : Z * Z, weight W m.1 m.2 =? w) l.


(** The digits of a list of cells, one after the other. *)
Definition digits (l : list Z) : string :=
  foldr (λ x acc, pretty x +:+ acc) "" l.

(** A cell value of a well-formed board. *)
Definition wf_cell (x : Z) : Prop := x = EMPTY ∨ x = BLACK ∨ x = WHITE.

(** The board after a disc of [player] is put on [(row, col)] and the
    bracketed discs are turned: what [place_piece] assigns to
    [this.board]. *)
Definition move_board (size : nat) (b : Board) (row col player : Z) : Board :=
  flip_discs size (set_cell b row col player) row col player.

(** The number of discs on the grid. *)
Definition count_discs (size : nat) (b : Board) : nat :=
  length (List.filter (λ '(r, c), cell_is b r c BLACK || cell_is b r c WHITE)
                      (cells size)).

(** The number of cells of the grid that hold [v]. *)
Definition count_cells (size : nat) (b : Board) (v : Z) : nat :=
  length (List.filter (λ '(r, c), cell_is b r c v) (cells size)).

(** ** The rest of the game object and the turn logic of the interface *)

(** [reset()] *)
Definition reset (g : OthelloGame) : OthelloGame :=
  let b := initial_board (size g) in
  {| size := size g;
     board := b;
     current_player := BLACK;
     last_placed_move := None;
     game_over := false;
     opponent_type := opponent_type g;
     ai_depth := ai_depth g;
     player_color := player_color g;
     ai_player := ai_player g;
     dynamic_depth := dynamic_depth g;
     move_history := [ {| h_board := copy_board b; h_current_player := BLACK |} ];
     move_log := [];
     position_weights := position_weights g;
     transposition_table := ∅ |}.

(** What [OthelloGUI.handle_game_over] does to the game: it sets the
    flag.  (The rest of the method writes the status label.) *)
Definition handle_game_over (g : OthelloGame) : OthelloGame :=
  {| size := size g;
     board := board g;
     current_player := current_player g;
     last_placed_move := last_placed_move g;
     game_over := true;
     opponent_type := opponent_type g;
     ai_depth := ai_depth g;
     player_color := player_color g;
     ai_player := ai_player g;
     dynamic_depth := dynamic_depth g;
     move_history := move_history g;
     move_log := move_log g;
     position_weights := position_weights g;
     transposition_table := transposition_table g |}.

(** [this.opponent_type==='ai' && this.game.current_player===this.ai_player]:
    the interface keeps copies of the game's [opponent_type] and
    [ai_player]. *)
Definition ai_to_move (g : OthelloGame) : bool :=
  String.eqb (opponent_type g) "ai" && (current_player g =? ai_player g).

(** [OthelloGUI.switch_turns()], as far as the game is concerned: the game
    after the call, and whether [ai_move] has been scheduled with
    [setTimeout].  Drawing and the status label are left out. *)
Definition switch_turns (g : OthelloGame) : OthelloGame * bool :=
  let g := switch_player g in
  if negb (has_valid_moves (size g) (board g) (current_player g)) then
    let g := switch_player g in
    if negb (has_valid_moves (size g) (board g) (current_player g)) then
      (handle_game_over g, false)
    else (g, ai_to_move g && negb (game_over g))
  else (g, ai_to_move g && negb (game_over g)).

(** [OthelloGUI.ai_move()] *)
Definition ai_move (g : OthelloGame) : OthelloGame * bool :=
  if game_over g then (g, false)
  else
    let '(move, g) := get_best_move g (copy_board (board g)) (ai_player g) in
    match move with
    | Some m => switch_turns (place_piece g m.1 m.2 (ai_player g)).2
    | None => switch_turns g
    end.

(** The cell under a click at the offset [(mx, my)] from the canvas
    corner: [Math.floor(my/cell_size)], [Math.floor(mx/cell_size)], for
    whole-pixel offsets and a positive cell size. *)
Definition click_cell (cell_size mx my : Z) : Z * Z :=
  (my / cell_size, mx / cell_size).

(** [OthelloGUI.cell_coords(r, c)]: [(x1, y1, x2, y2)]. *)
Definition cell_coords (cell_size r c : Z) : Z * Z * Z * Z :=
  let x1 := c * cell_size in
  let y1 := r * cell_size in
  (x1, y1, x1 + cell_size, y1 + cell_size).

(** [OthelloGUI.on_click(event)] for a click at the offset [(mx, my)]. *)
Definition on_click (cell_size : Z) (g : OthelloGame) (mx my : Z)
    : OthelloGame * bool :=
  if game_over g then (g, false)
  else if ai_to_move g then (g, false)
  else
    let '(r, c) := click_cell cell_size mx my in
    if negb (in_bounds (size g) r c) then (g, false)
    else
      let '(ok, g') := place_piece g r c (current_player g) in
      if negb ok then (g, false) else switch_turns g'.

(** The test of the start form on the parsed board size:
    [board_size<6 || board_size>20 || board_size%2!==0] rejects. *)
Definition board_size_ok (board_size : Z) : bool :=
  negb ((board_size <? 6) || (20 <? board_size)
        || negb (Z.rem board_size 2 =? 0)).

(** What the methods make of a game object [g0], called in any order
    with any arguments ([place_piece] for Black or White). *)
Inductive reachable_from (g0 : OthelloGame) : OthelloGame → Prop :=
  | reach_start : reachable_from g0 g0
  | reach_place_piece g row col player :
      reachable_from g0 g → player = BLACK ∨ player = WHITE →
      reachable_from g0 (place_piece g row col player).2
  | reach_switch_player g :
      reachable_from g0 g → reachable_from g0 (switch_player g)
  | reach_undo_move g :
      reachable_from g0 g → reachable_from g0 (undo_move g).2
  | reach_get_best_move g b player :
      reachable_from g0 g → reachable_from g0 (get_best_move g b player).2
  | reach_handle_game_over g :
      reachable_from g0 g → reachable_from g0 (handle_game_over g)
  | reach_reset g :
      reachable_from g0 g → reachable_from g0 (reset g).

(** The states of a game object: built by the constructor, for a size of
    at least 2 (the constructor fails on smaller ones) and a difficulty
    of [AI_DEPTH_MAP], and then changed by the methods. *)
Definition reachable (g : OthelloGame) : Prop :=
  ∃ size opponent_type ai_difficulty player_color dynamic_depth,
    (2 ≤ size)%nat
    ∧ is_Some (AI_DEPTH_MAP ai_difficulty)
    ∧ reachable_from
        (new_game size opponent_type ai_difficulty player_color dynamic_depth)
        g.

(** What holds of every reachable game besides [wf_game]: the side to move
    and the recorded movers are Black or White, the history has one entry
    more than the log, and the [i]-th history entry is a well-formed board
    with [4 + i] discs. *)
Definition game_inv (g : OthelloGame) : Prop :=
  wf_game g
  ∧ (2 ≤ size g)%nat
  ∧ (current_player g = BLACK ∨ current_player g = WHITE)
  ∧ length (move_history g) = S (length (move_log g))
  ∧ (∀ i h, move_history g !! i = Some h →
       (h_current_player h = BLACK ∨ h_current_player h = WHITE)
       ∧ count_discs (size g) (h_board h) = (4 + i)%nat).

(** The fields that only the constructor assigns. *)
Definition same_settings (g0 g : OthelloGame) : Prop :=
  size g = size g0
  ∧ opponent_type g = opponent_type g0
  ∧ ai_depth g = ai_depth g0
  ∧ player_color g = player_color g0
  ∧ ai_player g = ai_player g0
  ∧ dynamic_depth g = dynamic_depth g0
  ∧ position_weights g = position_weights g0.

(** [undo_move()] called [k] times. *)
Fixpoint undo_moves (k : nat) (g : OthelloGame) : OthelloGame :=
  match k with
  | O => g
  | S k' => undo_moves k' (undo_move g).2
  end.

(** The first history entry is the one the constructor and [reset]
    push. *)
Definition opening_kept (g : OthelloGame) : Prop :=
  head (move_history g)
  = Some {| h_board := initial_board (size g); h_current_player := BLACK |}.

(** The cells that [OthelloGUI.draw_board] marks with a yellow ring: the
    legal moves of the side to move, when the game is not over and it is
    a human's turn.  (The interface keeps a copy of the game's
    [player_color].) *)
Definition highlighted (g : OthelloGame) : list (Z * Z) :=
  if negb (game_over g)
     && ((current_player g =? player_color g)
         || String.eqb (opponent_type g) "human")
  then valid_moves (size g) (board g) (current_player g)
  else [].

(** One line of [OthelloGUI.update_move_log]:
    [player_text+": "+String.fromCharCode('A'.charCodeAt(0)+c)+(r+1)+"\n"].
    The column letter is a byte here, which is [fromCharCode] for columns
    up to 190. *)
Definition move_text (m : Z * (Z * Z)) : string :=
  let '(player, (r, c)) := m in
  (if player =? BLACK then "Black" else "White")
  +:+ ": " +:+ String (Ascii.ascii_of_nat (Z.to_nat (65 + c))) ""
  +:+ pretty (r + 1) +:+ String (Ascii.ascii_of_nat 10) "".

(** * Properties *)

(** ** Reading and writing cells *)

Lemma cell_is_true (b : Board) r c v :
  cell_is b r c v = true ↔ cell b r c = Some v.
Proof.
  unfold cell_is. destruct (cell b r c) as [x|]; [|split; discriminate].
  rewrite Z.eqb_eq. split; congruence.
Qed.

Lemma cell_is_false (b : Board) r c v :
  cell_is b r c v = false ↔ cell b r c ≠ Some v.
Proof.
  rewrite <- cell_is_true. destruct (cell_is b r c v); split; congruence.
Qed.

Lemma cell_set_cell_eq (b : Board) r c v :
  is_Some (cell b r c) → cell (set_cell b r c v) r c = Some v.
Proof.
  unfold cell, set_cell. destruct ((0 <=? r) && (0 <=? c)); [|by intros [? ?]].
  intros [x Hx]. rewrite list_lookup_alter_eq.
  destruct (b !! Z.to_nat r) as [row|]; simpl in *; [|done].
  apply list_lookup_insert_eq. by eapply lookup_lt_Some.
Qed.

Lemma cell_set_cell_ne (b : Board) r c v r' c' :
  (r, c) ≠ (r', c') → cell (set_cell b r c v) r' c' = cell b r' c'.
Proof.
  intros Hne. unfold cell, set_cell.
  destruct ((0 <=? r) && (0 <=? c)) eqn:E; [|done].
  destruct ((0 <=? r') && (0 <=? c')) eqn:E'; [|done].
  apply andb_true_iff in E as [?%Z.leb_le ?%Z.leb_le].
  apply andb_true_iff in E' as [?%Z.leb_le ?%Z.leb_le].
  destruct (decide (Z.to_nat r = Z.to_nat r')) as [Hr|Hr].
  - rewrite Hr, list_lookup_alter_eq.
    destruct (b !! Z.to_nat r') as [row|]; simpl; [|done].
    apply list_lookup_insert_ne. intros Hc. apply Hne. f_equal; lia.
  - by rewrite list_lookup_alter_ne.
Qed.

(** A write changes at most the cell written, and only if it exists. *)
Lemma cell_set_cell (b : Board) r c v r' c' :
  cell (set_cell b r c v) r' c' = cell b r' c'
  ∨ ((r, c) = (r', c') ∧ is_Some (cell b r' c')
     ∧ cell (set_cell b r c v) r' c' = Some v).
Proof.
  destruct (decide ((r, c) = (r', c'))) as [[= <- <-]|Hne].
  - destruct (cell b r c) as [x|] eqn:E.
    + right. split_and!; [done|done|]. apply cell_set_cell_eq. by rewrite E.
    + left. unfold cell, set_cell in *.
      destruct ((0 <=? r) && (0 <=? c)); [|done].
      rewrite list_lookup_alter_eq.
      destruct (b !! Z.to_nat r) as [row|]; simpl in *; [|done].
      apply lookup_ge_None in E. apply lookup_ge_None.
      by rewrite length_insert.
  - left. by apply cell_set_cell_ne.
Qed.

Lemma copy_board_id (b : Board) : copy_board b = b.
Proof. unfold copy_board. apply list_fmap_id. Qed.

(** ** The grid that the double loops visit *)

Lemma elem_of_range n (i : Z) : i ∈ range n ↔ 0 ≤ i < Z.of_nat n.
Proof.
  unfold range. rewrite list_elem_of_fmap. split.
  - intros (k & -> & Hk). apply elem_of_seq in Hk. lia.
  - intros H. exists (Z.to_nat i). split; [lia|]. apply elem_of_seq. lia.
Qed.

Lemma elem_of_cells n r c :
  (r, c) ∈ cells n ↔ in_bounds n r c = true.
Proof.
  unfold cells, in_bounds. rewrite list_elem_of_bind. split.
  - intros (r' & Hc & Hr). apply list_elem_of_bind in Hc as (c' & Hx & Hc).
    apply list_elem_of_singleton in Hx as [= -> ->].
    apply elem_of_range in Hr, Hc.
    repeat (apply andb_true_iff; split); lia.
  - intros H. repeat (apply andb_true_iff in H as [H ?]).
    exists r. split; [|apply elem_of_range; lia].
    apply list_elem_of_bind. exists c. split; [set_solver|].
    apply elem_of_range; lia.
Qed.

Lemma opponent_ne player : opponent player ≠ player.
Proof. unfold opponent, BLACK, WHITE. destruct (Z.eqb_spec player 1); lia. Qed.

Lemma opponent_involutive player :
  player = BLACK ∨ player = WHITE → opponent (opponent player) = player.
Proof. by intros [-> | ->]. Qed.

(** ** The four direction loops *)

Section Ray.
Variables (size : nat) (b : Board) (dr dc opp : Z).

Local Abbreviation at_opp := (at_opp size b dr dc opp).
Local Abbreviation run_end := (run_end size b dr dc opp).
Local Abbreviation positions := (positions dr dc).

Lemma at_opp_0 r0 c0 :
  at_opp r0 c0 0 = in_bounds size r0 c0 && cell_is b r0 c0 opp.
Proof. unfold at_opp. by rewrite !Z.add_0_r. Qed.

Lemma at_opp_shift r0 c0 j :
  at_opp (r0 + dr) (c0 + dc) j = at_opp r0 c0 (S j).
Proof.
  unfold at_opp.
  replace (r0 + dr + Z.of_nat j * dr) with (r0 + Z.of_nat (S j) * dr) by lia.
  by replace (c0 + dc + Z.of_nat j * dc) with (c0 + Z.of_nat (S j) * dc) by lia.
Qed.

Lemma run_end_shift r0 c0 k :
  run_end r0 c0 (S k) → run_end (r0 + dr) (c0 + dc) k.
Proof.
  intros [Hrun Hend]. split.
  - intros j Hj. rewrite at_opp_shift. apply Hrun. lia.
  - by rewrite at_opp_shift.
Qed.

Lemma run_end_unique r0 c0 k k' :
  run_end r0 c0 k → run_end r0 c0 k' → k = k'.
Proof.
  intros [H1 E1] [H2 E2].
  destruct (Nat.lt_trichotomy k k') as [Hlt|[->|Hlt]]; [|done|].
  - rewrite (H2 k Hlt) in E1. discriminate.
  - rewrite (H1 k' Hlt) in E2. discriminate.
Qed.

Lemma positions_S r0 c0 k :
  positions r0 c0 (S k) = (r0, c0) :: positions (r0 + dr) (c0 + dc) k.
Proof.
  unfold positions. simpl. rewrite !Z.add_0_r. f_equal.
  rewrite <- fmap_S_seq, <- list_fmap_compose.
  apply list_fmap_ext. intros _ j _. simpl. f_equal; lia.
Qed.

Lemma length_positions r0 c0 k : length (positions r0 c0 k) = k.
Proof. unfold positions. by rewrite length_fmap, length_seq. Qed.

Lemma elem_of_positions r0 c0 k rc :
  rc ∈ positions r0 c0 k ↔
  ∃ j, (j < k)%nat ∧ rc = (r0 + Z.of_nat j * dr, c0 + Z.of_nat j * dc).
Proof.
  unfold positions. rewrite list_elem_of_fmap. split.
  - intros (j & -> & Hj). apply elem_of_seq in Hj. exists j. split; [lia|done].
  - intros (j & Hj & ->). exists j. split; [done|]. apply elem_of_seq. lia.
Qed.

(** Each loop, given enough fuel, stops exactly where the run ends. *)

Local Ltac pair_eq :=
  repeat match goal with |- (_, _) = (_, _) => f_equal end; try done; lia.

Lemma scan_opp_run k : ∀ fuel r0 c0 found,
  (k < fuel)%nat → run_end r0 c0 k →
  scan_opp fuel size b r0 c0 dr dc opp found
  = (r0 + Z.of_nat k * dr, c0 + Z.of_nat k * dc, found || (0 <? k)%nat).
Proof.
  induction k as [|k IH]; intros [|fuel] r0 c0 found Hf Hrun; try lia.
  - destruct Hrun as [_ Hend]. rewrite at_opp_0 in Hend. simpl.
    rewrite Hend, orb_false_r. pair_eq.
  - pose proof (proj1 Hrun 0%nat ltac:(lia)) as H0. rewrite at_opp_0 in H0.
    simpl. rewrite H0, (IH fuel); [|lia|by apply run_end_shift].
    rewrite orb_true_r. pair_eq.
Qed.

Lemma collect_opp_run k : ∀ fuel r0 c0 acc,
  (k < fuel)%nat → run_end r0 c0 k →
  collect_opp fuel size b r0 c0 dr dc opp acc
  = (r0 + Z.of_nat k * dr, c0 + Z.of_nat k * dc, acc ++ positions r0 c0 k).
Proof.
  induction k as [|k IH]; intros [|fuel] r0 c0 acc Hf Hrun; try lia.
  - destruct Hrun as [_ Hend]. rewrite at_opp_0 in Hend. simpl.
    rewrite Hend, app_nil_r. pair_eq.
  - pose proof (proj1 Hrun 0%nat ltac:(lia)) as H0. rewrite at_opp_0 in H0.
    simpl collect_opp. rewrite H0, (IH fuel); [|lia|by apply run_end_shift].
    rewrite positions_S, <- app_assoc. pair_eq.
Qed.

Lemma ray_valid_run player k : ∀ fuel r0 c0 has,
  (k < fuel)%nat → run_end r0 c0 k →
  ray_valid fuel size b r0 c0 dr dc player opp has
  = in_bounds size (r0 + Z.of_nat k * dr) (c0 + Z.of_nat k * dc)
    && cell_is b (r0 + Z.of_nat k * dr) (c0 + Z.of_nat k * dc) player
    && (has || (0 <? k)%nat).
Proof.
  induction k as [|k IH]; intros [|fuel] r0 c0 has Hf Hrun; try lia.
  - destruct Hrun as [_ Hend]. rewrite at_opp_0 in Hend. simpl.
    rewrite !Z.add_0_r, orb_false_r.
    destruct (in_bounds size r0 c0); [|done]. simpl in *. rewrite Hend.
    by destruct (cell_is b r0 c0 player), has.
  - pose proof (proj1 Hrun 0%nat ltac:(lia)) as H0. rewrite at_opp_0 in H0.
    apply andb_true_iff in H0 as [Hb Ho].
    simpl ray_valid. rewrite Hb, Ho, (IH fuel); [|lia|by apply run_end_shift].
    rewrite orb_true_r, orb_true_l.
    replace (r0 + dr + Z.of_nat k * dr) with (r0 + Z.of_nat (S k) * dr) by lia.
    by replace (c0 + dc + Z.of_nat k * dc) with (c0 + Z.of_nat (S k) * dc) by lia.
Qed.

Lemma ray_flip_run player k : ∀ fuel r0 c0 acc,
  (k < fuel)%nat → run_end r0 c0 k →
  ray_flip fuel size b r0 c0 dr dc player opp acc
  = if in_bounds size (r0 + Z.of_nat k * dr) (c0 + Z.of_nat k * dc)
       && cell_is b (r0 + Z.of_nat k * dr) (c0 + Z.of_nat k * dc) player
       && (0 <? length (acc ++ positions r0 c0 k))%nat
    then paint b (acc ++ positions r0 c0 k) player
    else b.
Proof.
  induction k as [|k IH]; intros [|fuel] r0 c0 acc Hf Hrun; try lia.
  - destruct Hrun as [_ Hend]. rewrite at_opp_0 in Hend. simpl.
    rewrite !Z.add_0_r, app_nil_r.
    destruct (in_bounds size r0 c0); [|done]. simpl in *. rewrite Hend.
    by destruct (cell_is b r0 c0 player).
  - pose proof (proj1 Hrun 0%nat ltac:(lia)) as H0. rewrite at_opp_0 in H0.
    apply andb_true_iff in H0 as [Hb Ho].
    simpl ray_flip. rewrite Hb, Ho, (IH fuel); [|lia|by apply run_end_shift].
    rewrite positions_S, <- app_assoc. simpl.
    replace (r0 + dr + Z.of_nat k * dr) with (r0 + Z.of_nat (S k) * dr) by lia.
    by replace (c0 + dc + Z.of_nat k * dc) with (c0 + Z.of_nat (S k) * dc) by lia.
Qed.

(** A run ends within [n] steps unless all of its first [n] cells are
    opponent discs. *)
Lemma run_end_or_all r0 c0 n :
  (∃ k, (k < n)%nat ∧ run_end r0 c0 k)
  ∨ (∀ j, (j < n)%nat → at_opp r0 c0 j = true).
Proof.
  induction n as [|n [(k & Hk & Hrun)|Hall]].
  - right. intros j Hj. lia.
  - left. exists k. split; [lia|done].
  - destruct (at_opp r0 c0 n) eqn:E.
    + right. intros j Hj. destruct (decide (j = n)) as [->|]; [done|].
      apply Hall. lia.
    + left. exists n. split; [lia|]. by split.
Qed.
End Ray.

(** From a cell next to an in-bounds cell, a walk in one of the eight
    directions leaves the grid in fewer than [size] steps: the loops
    never use up their fuel. *)
Lemma ray_leaves_grid size row col d (j : nat) :
  d ∈ DIRECTIONS → in_bounds size row col = true →
  in_bounds size (row + d.1 + Z.of_nat j * d.1) (col + d.2 + Z.of_nat j * d.2) = true →
  (j + 1 < size)%nat.
Proof.
  intros Hd Hin Hj. unfold in_bounds in *.
  repeat (apply andb_true_iff in Hin as [Hin ?]).
  repeat (apply andb_true_iff in Hj as [Hj ?]).
  unfold DIRECTIONS in Hd. repeat (apply elem_of_cons in Hd as [->|Hd]);
    [..|by apply elem_of_nil in Hd]; simpl in *; lia.
Qed.

Lemma run_end_exists size b row col d opp :
  d ∈ DIRECTIONS → in_bounds size row col = true →
  ∃ k, (k < size)%nat ∧ run_end size b d.1 d.2 opp (row + d.1) (col + d.2) k.
Proof.
  intros Hd Hin.
  destruct (run_end_or_all size b d.1 d.2 opp (row + d.1) (col + d.2) size)
    as [?|Hall]; [done|].
  assert (0 < size)%nat as Hpos.
  { unfold in_bounds in Hin. repeat (apply andb_true_iff in Hin as [Hin ?]). lia. }
  specialize (Hall (size - 1)%nat ltac:(lia)).
  apply andb_true_iff in Hall as [Hall _].
  apply (ray_leaves_grid size row col d) in Hall; [lia|done|done].
Qed.

(** With [fuel = size] the walk of [can_flip] ends because the loop test
    fails, not because the fuel is used up. *)
Lemma scan_opp_exits size b row col d opp found :
  d ∈ DIRECTIONS → in_bounds size row col = true →
  let '(rr, cc, _) :=
    scan_opp size size b (row + d.1) (col + d.2) d.1 d.2 opp found in
  in_bounds size rr cc && cell_is b rr cc opp = false.
Proof.
  intros Hd Hin.
  destruct (run_end_exists size b row col d opp Hd Hin) as (k & Hk & Hrun).
  rewrite (scan_opp_run _ _ _ _ _ k) by done. apply Hrun.
Qed.

(** More fuel than [size] changes no result. *)
Lemma scan_opp_fuel size b row col d opp found fuel :
  d ∈ DIRECTIONS → in_bounds size row col = true → (size ≤ fuel)%nat →
  scan_opp fuel size b (row + d.1) (col + d.2) d.1 d.2 opp found
  = scan_opp size size b (row + d.1) (col + d.2) d.1 d.2 opp found.
Proof.
  intros Hd Hin Hf.
  destruct (run_end_exists size b row col d opp Hd Hin) as (k & Hk & Hrun).
  rewrite !(scan_opp_run _ _ _ _ _ k); [done|lia|done|lia|done].
Qed.

Lemma collect_opp_fuel size b row col d opp acc fuel :
  d ∈ DIRECTIONS → in_bounds size row col = true → (size ≤ fuel)%nat →
  collect_opp fuel size b (row + d.1) (col + d.2) d.1 d.2 opp acc
  = collect_opp size size b (row + d.1) (col + d.2) d.1 d.2 opp acc.
Proof.
  intros Hd Hin Hf.
  destruct (run_end_exists size b row col d opp Hd Hin) as (k & Hk & Hrun).
  rewrite !(collect_opp_run _ _ _ _ _ k); [done|lia|done|lia|done].
Qed.

Lemma ray_valid_fuel size b row col d player opp has fuel :
  d ∈ DIRECTIONS → in_bounds size row col = true → (size ≤ fuel)%nat →
  ray_valid fuel size b (row + d.1) (col + d.2) d.1 d.2 player opp has
  = ray_valid size size b (row + d.1) (col + d.2) d.1 d.2 player opp has.
Proof.
  intros Hd Hin Hf.
  destruct (run_end_exists size b row col d opp Hd Hin) as (k & Hk & Hrun).
  rewrite !(ray_valid_run _ _ _ _ _ _ k); [done|lia|done|lia|done].
Qed.

Lemma ray_flip_fuel size b row col d player opp acc fuel :
  d ∈ DIRECTIONS → in_bounds size row col = true → (size ≤ fuel)%nat →
  ray_flip fuel size b (row + d.1) (col + d.2) d.1 d.2 player opp acc
  = ray_flip size size b (row + d.1) (col + d.2) d.1 d.2 player opp acc.
Proof.
  intros Hd Hin Hf.
  destruct (run_end_exists size b row col d opp Hd Hin) as (k & Hk & Hrun).
  rewrite !(ray_flip_run _ _ _ _ _ _ k); [done|lia|done|lia|done].
Qed.

(** ** Capturing, and the agreement of the two rule sets *)

Lemma captures_run size b row col player d :
  captures size b row col player d ↔
  ∃ k, (1 ≤ k)%nat
    ∧ run_end size b d.1 d.2 (opponent player) (row + d.1) (col + d.2) k
    ∧ in_bounds size (row + d.1 + Z.of_nat k * d.1)
                     (col + d.2 + Z.of_nat k * d.2) = true
    ∧ cell b (row + d.1 + Z.of_nat k * d.1) (col + d.2 + Z.of_nat k * d.2)
      = Some player.
Proof.
  pose proof (opponent_ne player) as Hne.
  assert (∀ j : nat, row + d.1 + Z.of_nat j * d.1 = row + Z.of_nat (j + 1) * d.1)
    as Er by (intros; lia).
  assert (∀ j : nat, col + d.2 + Z.of_nat j * d.2 = col + Z.of_nat (j + 1) * d.2)
    as Ec by (intros; lia).
  split; intros (k & Hk & H).
  - destruct H as (Hrun & Hin & Hp). exists k. rewrite Er, Ec.
    split_and!; [done| |done|done]. split.
    + intros j Hj. unfold at_opp. rewrite Er, Ec.
      destruct (Hrun (j + 1)%nat ltac:(lia)) as [-> Hc].
      by apply cell_is_true.
    + unfold at_opp. rewrite Er, Ec, Hin. simpl.
      apply cell_is_false. congruence.
  - destruct H as ([Hrun Hend] & Hin & Hp). exists k. rewrite Er, Ec in Hin, Hp.
    split_and!; [done| |done|done].
    intros j Hj. specialize (Hrun (j - 1)%nat ltac:(lia)).
    unfold at_opp in Hrun. rewrite Er, Ec in Hrun.
    replace (j - 1 + 1)%nat with j in Hrun by lia.
    apply andb_true_iff in Hrun as [? ?%cell_is_true]. done.
Qed.

Lemma can_flip_dir_captures size b row col player d :
  d ∈ DIRECTIONS → in_bounds size row col = true →
  can_flip_dir size b row col player d = true ↔ captures size b row col player d.
Proof.
  intros Hd Hin. rewrite captures_run.
  destruct (run_end_exists size b row col d (opponent player) Hd Hin)
    as (k & Hk & Hrun).
  unfold can_flip_dir. destruct d as [dr dc]; simpl in *.
  rewrite (scan_opp_run _ _ _ _ _ k) by done. simpl.
  rewrite !andb_true_iff, cell_is_true, Nat.ltb_lt. split.
  - intros [[? ?] ?]. exists k. split_and!; [lia|done..].
  - intros (k' & Hk' & Hrun' & ? & ?).
    assert (k' = k) as -> by eauto using run_end_unique.
    split_and!; [lia|done..].
Qed.

Lemma ray_valid_can_flip_dir size b row col player d :
  d ∈ DIRECTIONS → in_bounds size row col = true →
  ray_valid size size b (row + d.1) (col + d.2) d.1 d.2
            player (opponent player) false
  = can_flip_dir size b row col player d.
Proof.
  intros Hd Hin.
  destruct (run_end_exists size b row col d (opponent player) Hd Hin)
    as (k & Hk & Hrun).
  unfold can_flip_dir. destruct d as [dr dc]; simpl in *.
  rewrite (scan_opp_run _ _ _ _ _ k), (ray_valid_run _ _ _ _ _ _ k) by done.
  simpl. by rewrite andb_comm, andb_assoc.
Qed.

Lemma existsb_ext_elem {A} (f g : A → bool) (l : list A) :
  (∀ x, x ∈ l → f x = g x) → existsb f l = existsb g l.
Proof.
  induction l as [|x l IH]; intros H; [done|]. simpl.
  rewrite (H x), IH; [done| |]; set_solver.
Qed.

Lemma filter_ext_elem {A} (f g : A → bool) (l : list A) :
  (∀ x, x ∈ l → f x = g x) → List.filter f l = List.filter g l.
Proof.
  intros H. apply List.filter_ext_in. intros x Hx. apply H.
  by apply list_elem_of_In.
Qed.

Lemma foldl_ext_elem {A B} (f g : A → B → A) (a : A) (l : list B) :
  (∀ a x, x ∈ l → f a x = g a x) → foldl f a l = foldl g a l.
Proof.
  revert a. induction l as [|x l IH]; intros a H; [done|]. simpl.
  rewrite (H a x), IH; [done| |]; set_solver.
Qed.

Lemma is_valid_move_in_state_can_flip size b row col player :
  in_bounds size row col = true →
  is_valid_move_in_state size b row col player = can_flip size b row col player.
Proof.
  intros Hin. unfold is_valid_move_in_state, can_flip.
  destruct (negb (cell_is b row col EMPTY)); [done|].
  apply existsb_ext_elem. intros [dr dc] Hd.
  by apply (ray_valid_can_flip_dir size b row col player (dr, dc)).
Qed.

(** The snapshot rules and the rules of the authoritative board compute
    the same legal moves. *)
Lemma get_valid_moves_in_state_valid_moves size b player :
  get_valid_moves_in_state size b player = valid_moves size b player.
Proof.
  unfold get_valid_moves_in_state, valid_moves.
  apply filter_ext_elem. intros [r c] Hrc%elem_of_cells.
  rewrite is_valid_move_in_state_can_flip by done.
  unfold can_flip. by destruct (cell_is b r c EMPTY).
Qed.

Lemma make_move_dir_flip_dir size row col player b d :
  d ∈ DIRECTIONS → in_bounds size row col = true →
  make_move_dir size row col player b d = flip_dir size row col player b d.
Proof.
  intros Hd Hin.
  destruct (run_end_exists size b row col d (opponent player) Hd Hin)
    as (k & Hk & Hrun).
  unfold make_move_dir, flip_dir. destruct d as [dr dc]; simpl in *.
  by rewrite (collect_opp_run _ _ _ _ _ k), (ray_flip_run _ _ _ _ _ _ k).
Qed.

(** The search's move and the game's move produce the same board. *)
Lemma make_move_in_state_flip_discs size b row col player :
  in_bounds size row col = true →
  make_move_in_state size b row col player
  = flip_discs size (set_cell b row col player) row col player.
Proof.
  intros Hin. unfold make_move_in_state, flip_discs.
  apply foldl_ext_elem. intros a d Hd. by apply make_move_dir_flip_dir.
Qed.

Lemma can_flip_true size b row col player :
  in_bounds size row col = true →
  can_flip size b row col player = true ↔
  cell b row col = Some EMPTY
  ∧ ∃ d, d ∈ DIRECTIONS ∧ captures size b row col player d.
Proof.
  intros Hin. unfold can_flip. split.
  - destruct (cell_is b row col EMPTY) eqn:He; [|done]. cbn [negb].
    intros (d & Hd%list_elem_of_In & Hc)%List.existsb_exists.
    split; [by apply cell_is_true|]. exists d. split; [done|].
    by apply can_flip_dir_captures.
  - intros (He%cell_is_true & d & Hd & Hc). rewrite He. cbn [negb].
    apply List.existsb_exists. exists d. split; [by apply list_elem_of_In|].
    by apply can_flip_dir_captures.
Qed.

Lemma elem_of_valid_moves size b player r c :
  (r, c) ∈ valid_moves size b player ↔
  in_bounds size r c = true ∧ cell b r c = Some EMPTY
  ∧ ∃ d, d ∈ DIRECTIONS ∧ captures size b r c player d.
Proof.
  unfold valid_moves. rewrite list_elem_of_In, List.filter_In, <- list_elem_of_In.
  rewrite elem_of_cells, andb_true_iff, cell_is_true. split.
  - intros (Hin & He & Hc). by apply can_flip_true in Hc as [_ ?].
  - intros (Hin & He & Hc). split_and!; [done..|]. by apply can_flip_true.
Qed.

(** ** What a move writes *)

Lemma only_writes_refl player b : only_writes player b b.
Proof. intros r c. by left. Qed.

Lemma only_writes_trans player b1 b2 b3 :
  only_writes player b1 b2 → only_writes player b2 b3 → only_writes player b1 b3.
Proof.
  intros H12 H23 r c.
  destruct (H23 r c) as [E23|[S23 E23]], (H12 r c) as [E12|[S12 E12]].
  - left. congruence.
  - right. split; [done|congruence].
  - right. split; [by rewrite <- E12|done].
  - right. done.
Qed.

Lemma only_writes_keeps player b b' r c :
  only_writes player b b' → cell b r c = Some player → cell b' r c = Some player.
Proof. intros H E. destruct (H r c) as [->|[_ ->]]; done. Qed.

Lemma only_writes_is_Some player b b' r c :
  only_writes player b b' → is_Some (cell b r c) → is_Some (cell b' r c).
Proof. intros H E. destruct (H r c) as [->|[_ ->]]; done. Qed.

Lemma only_writes_set_cell player b r c :
  only_writes player b (set_cell b r c player).
Proof.
  intros r' c'. destruct (cell_set_cell b r c player r' c') as [?|(_ & ? & ?)];
    [by left|by right].
Qed.

Lemma only_writes_paint player discs : ∀ b,
  only_writes player b (paint b discs player).
Proof.
  unfold paint. induction discs as [|[fr fc] discs IH]; intros b; simpl.
  - apply only_writes_refl.
  - eapply only_writes_trans; [apply only_writes_set_cell|apply IH].
Qed.

Lemma only_writes_flip_dir size row col player b d :
  only_writes player b (flip_dir size row col player b d).
Proof.
  unfold flip_dir. destruct d as [dr dc].
  destruct (collect_opp _ _ _ _ _ _ _ _ _) as [[rr cc] discs].
  destruct (_ && _); [apply only_writes_paint|apply only_writes_refl].
Qed.

Lemma only_writes_flip_dirs size row col player ds : ∀ b,
  only_writes player b (foldl (flip_dir size row col player) b ds).
Proof.
  induction ds as [|d ds IH]; intros b; simpl.
  - apply only_writes_refl.
  - eapply only_writes_trans; [apply only_writes_flip_dir|apply IH].
Qed.

Lemma cell_paint_elem player discs r c : ∀ b,
  (r, c) ∈ discs → is_Some (cell b r c) →
  cell (paint b discs player) r c = Some player.
Proof.
  unfold paint. induction discs as [|[fr fc] discs IH]; intros b Hin Hs; simpl.
  - by apply elem_of_nil in Hin.
  - apply elem_of_cons in Hin as [[= <- <-]|Hin].
    + eapply only_writes_keeps; [apply only_writes_paint|].
      by apply cell_set_cell_eq.
    + apply IH; [done|].
      eapply only_writes_is_Some; [apply only_writes_set_cell|done].
Qed.

Lemma direction_nonzero d (j : nat) :
  d ∈ DIRECTIONS → (1 ≤ j)%nat → Z.of_nat j * d.1 ≠ 0 ∨ Z.of_nat j * d.2 ≠ 0.
Proof.
  intros Hd Hj. unfold DIRECTIONS in Hd.
  repeat (apply elem_of_cons in Hd as [->|Hd]);
    [..|by apply elem_of_nil in Hd]; simpl; lia.
Qed.

(** Putting the disc down does not disturb the runs that start next to it. *)
Lemma captures_set_cell size b row col player d v :
  d ∈ DIRECTIONS → captures size b row col player d →
  captures size (set_cell b row col v) row col player d.
Proof.
  intros Hd (k & Hk & Hrun & Hin & Hp). exists k.
  assert (∀ j : nat, (1 ≤ j)%nat →
    cell (set_cell b row col v) (row + Z.of_nat j * d.1) (col + Z.of_nat j * d.2)
    = cell b (row + Z.of_nat j * d.1) (col + Z.of_nat j * d.2)) as Hne.
  { intros j Hj. apply cell_set_cell_ne. intros [= Hr Hc].
    destruct (direction_nonzero d j Hd Hj); lia. }
  split_and!; [done| |done|].
  - intros j Hj. rewrite Hne by lia. by apply Hrun.
  - rewrite Hne by lia. done.
Qed.

(** Processing a capturing direction turns the first disc of its run,
    whatever other directions have already turned. *)
Lemma flip_dir_first size row col player b0 b1 d :
  d ∈ DIRECTIONS → in_bounds size row col = true →
  captures size b0 row col player d → only_writes player b0 b1 →
  cell (flip_dir size row col player b1 d) (row + d.1) (col + d.2) = Some player.
Proof.
  intros Hd Hin (k0 & Hk0 & Hrun0 & Hin0 & Hp0) Hw.
  pose proof (opponent_ne player) as Hne.
  assert (∀ j : nat, row + d.1 + Z.of_nat j * d.1 = row + Z.of_nat (j + 1) * d.1)
    as Er by (intros; lia).
  assert (∀ j : nat, col + d.2 + Z.of_nat j * d.2 = col + Z.of_nat (j + 1) * d.2)
    as Ec by (intros; lia).
  assert (∀ j : nat, (1 ≤ j ≤ k0)%nat →
    cell b1 (row + Z.of_nat j * d.1) (col + Z.of_nat j * d.2) = Some (opponent player)
    ∨ cell b1 (row + Z.of_nat j * d.1) (col + Z.of_nat j * d.2) = Some player)
    as Hrun1.
  { intros j Hj. destruct (Hrun0 j Hj) as [_ Hc].
    destruct (Hw (row + Z.of_nat j * d.1) (col + Z.of_nat j * d.2))
      as [E|[_ E]]; [left|right]; congruence. }
  assert (cell b1 (row + Z.of_nat (k0 + 1) * d.1) (col + Z.of_nat (k0 + 1) * d.2)
          = Some player) as Hp1 by eauto using only_writes_keeps.
  destruct (run_end_exists size b1 row col d (opponent player) Hd Hin)
    as (k & Hk & Hrun).
  assert (k ≤ k0)%nat as Hle.
  { destruct (decide (k ≤ k0)%nat) as [|Hgt]; [done|]. exfalso.
    pose proof (proj1 Hrun k0 ltac:(lia)) as H.
    apply andb_true_iff in H as [_ H%cell_is_true].
    rewrite Er, Ec in H. congruence. }
  assert (in_bounds size (row + Z.of_nat (k + 1) * d.1)
                         (col + Z.of_nat (k + 1) * d.2) = true) as Hink.
  { destruct (decide (k = k0)) as [->|]; [done|]. apply Hrun0. lia. }
  assert (cell b1 (row + Z.of_nat (k + 1) * d.1) (col + Z.of_nat (k + 1) * d.2)
          = Some player) as Hpk.
  { destruct (decide (k = k0)) as [->|]; [done|].
    destruct (Hrun1 (k + 1)%nat ltac:(lia)) as [Ho|]; [|done]. exfalso.
    destruct Hrun as [_ Hend]. unfold at_opp in Hend.
    rewrite Er, Ec, Hink in Hend. simpl in Hend.
    apply cell_is_false in Hend. done. }
  destruct (Hrun1 1%nat ltac:(lia)) as [Ho|Hp].
  - assert (1 ≤ k)%nat as Hk1.
    { destruct k; [|lia]. exfalso. destruct Hrun as [_ Hend].
      unfold at_opp in Hend. rewrite Er, Ec in Hend. simpl Z.of_nat in *.
      rewrite Hink in Hend. simpl in Hend. apply cell_is_false in Hend. done. }
    unfold flip_dir. destruct d as [dr dc]; cbn [fst snd] in *.
    rewrite (collect_opp_run _ _ _ _ _ k) by done.
    rewrite Er, Ec, Hink, (proj2 (cell_is_true _ _ _ _) Hpk).
    cbn [andb app]. rewrite length_positions.
    destruct (Nat.ltb_spec 0 k); [|lia].
    apply cell_paint_elem.
    + apply elem_of_positions. exists 0%nat. split; [lia|]. f_equal; lia.
    + replace (row + dr) with (row + Z.of_nat 1 * dr) by lia.
      replace (col + dc) with (col + Z.of_nat 1 * dc) by lia. by rewrite Ho.
  - eapply only_writes_keeps; [apply only_writes_flip_dir|].
    rewrite <- Hp. f_equal; lia.
Qed.

Lemma flip_dirs_first size row col player b0 d ds : ∀ b1,
  (∀ d', d' ∈ ds → d' ∈ DIRECTIONS) → d ∈ ds →
  in_bounds size row col = true →
  captures size b0 row col player d → only_writes player b0 b1 →
  cell (foldl (flip_dir size row col player) b1 ds) (row + d.1) (col + d.2)
  = Some player.
Proof.
  induction ds as [|d' ds IH]; intros b1 Hds Hd Hin Hc Hw; simpl.
  - by apply elem_of_nil in Hd.
  - apply elem_of_cons in Hd as [<-|Hd].
    + eapply only_writes_keeps; [apply only_writes_flip_dirs|].
      eapply flip_dir_first; eauto. apply Hds. by left.
    + apply IH; [|done..|].
      * intros d'' H. apply Hds. by right.
      * eapply only_writes_trans; [done|apply only_writes_flip_dir].
Qed.

(** ** Legal moves, rejected moves, the terminal test *)

(** C1.  Every coordinate returned by [valid_moves] is an Empty cell from
    which at least one of the eight directions holds a run of one or more
    opponent discs closed by a disc of the mover, and [place_piece] at that
    coordinate succeeds and turns at least one opponent disc into a disc of
    the mover. *)
Theorem valid_moves_sound (g : OthelloGame) (player r c : Z) :
  wf_board (size g) (board g) = true →
  (r, c) ∈ valid_moves (size g) (board g) player →
  cell (board g) r c = Some EMPTY
  ∧ (∃ d, d ∈ DIRECTIONS ∧ captures (size g) (board g) r c player d)
  ∧ ∃ g', place_piece g r c player = (true, g')
      ∧ ∃ fr fc, cell (board g) fr fc = Some (opponent player)
                 ∧ cell (board g') fr fc = Some player.
Proof.
  intros _ (Hin & He & d & Hd & Hc)%elem_of_valid_moves.
  split_and!; [done|by exists d|].
  assert (can_flip (size g) (board g) r c player = true) as Hf.
  { apply can_flip_true; [done|]. split; [done|]. by exists d. }
  unfold place_piece. rewrite Hin, Hf. cbn [negb orb]. eexists. split; [done|].
  exists (r + d.1), (c + d.2). cbn [board]. split.
  - destruct Hc as (k & Hk & Hrun & _).
    destruct (Hrun 1%nat ltac:(lia)) as [_ H]. rewrite <- H. f_equal; lia.
  - unfold flip_discs.
    apply (flip_dirs_first _ _ _ _ (set_cell (board g) r c player));
      [done|done|done| |apply only_writes_refl].
    by apply captures_set_cell.
Qed.

Lemma valid_moves_sound_witness :
  let g := new_game 8 "human" "easy" "B" false in
  cell (board g) 2 3 = Some EMPTY
  ∧ (∃ d, d ∈ DIRECTIONS ∧ captures (size g) (board g) 2 3 BLACK d)
  ∧ ∃ g', place_piece g 2 3 BLACK = (true, g')
      ∧ ∃ fr fc, cell (board g) fr fc = Some (opponent BLACK)
                 ∧ cell (board g') fr fc = Some BLACK.
Proof.
  intros g. apply (valid_moves_sound g BLACK 2 3).
  - reflexivity.
  - apply (bool_decide_unpack _). vm_compute. exact I.
Defined.

(** C5.  A request that is out of bounds, or aims at an occupied cell, or
    would turn no disc, makes [place_piece] return [false] and leaves the
    whole game object as it was. *)
Theorem place_piece_rejects (g : OthelloGame) (row col player : Z) :
  wf_board (size g) (board g) = true →
  in_bounds (size g) row col = false
  ∨ cell (board g) row col ≠ Some EMPTY
  ∨ ¬ (∃ d, d ∈ DIRECTIONS ∧ captures (size g) (board g) row col player d) →
  place_piece g row col player = (false, g).
Proof.
  intros _ H. unfold place_piece.
  destruct (in_bounds (size g) row col) eqn:Hin; [|done].
  destruct (can_flip (size g) (board g) row col player) eqn:Hf; [|done].
  apply can_flip_true in Hf as [He Hc]; [|done].
  destruct H as [?|[?|?]]; done.
Qed.

Lemma place_piece_rejects_witness :
  let g := new_game 8 "human" "easy" "B" false in
  place_piece g 3 3 BLACK = (false, g) ∧ place_piece g 8 0 BLACK = (false, g).
Proof.
  intros g. split.
  - apply (place_piece_rejects g 3 3 BLACK); [reflexivity|].
    right. left. vm_compute. discriminate.
  - apply (place_piece_rejects g 8 0 BLACK); [reflexivity|].
    left. reflexivity.
Defined.

Lemma existsb_false_filter {A} (f : A → bool) (l : list A) :
  existsb f l = false ↔ List.filter f l = [].
Proof.
  induction l as [|x l IH]; simpl; [done|].
  destruct (f x); simpl; [|done]. split; discriminate.
Qed.

Lemma length_pos_false {A} (l : list A) :
  (0 <? length l)%nat = false ↔ l = [].
Proof. destruct l; simpl; split; (done || discriminate). Qed.

(** C2.  Both terminal tests, [is_game_over] on the game's board and
    [is_terminal_state] on a snapshot, answer [true] exactly when neither
    Black nor White has a legal move. *)
Theorem terminal_iff_no_moves (size : nat) (b : Board) :
  wf_board size b = true →
  (is_game_over size b = true
   ↔ valid_moves size b BLACK = [] ∧ valid_moves size b WHITE = [])
  ∧ (is_terminal_state size b = true
     ↔ valid_moves size b BLACK = [] ∧ valid_moves size b WHITE = []).
Proof.
  intros _. split.
  - unfold is_game_over. rewrite <- !length_pos_false.
    destruct (0 <? length (valid_moves size b BLACK))%nat,
             (0 <? length (valid_moves size b WHITE))%nat;
      split; (done || intros [? ?]; done).
  - unfold is_terminal_state, has_valid_moves_in_state.
    rewrite andb_true_iff, !negb_true_iff, !existsb_false_filter.
    by rewrite <- !get_valid_moves_in_state_valid_moves.
Qed.

Lemma terminal_iff_no_moves_witness :
  let b := initial_board 8 in
  (is_game_over 8 b = true
   ↔ valid_moves 8 b BLACK = [] ∧ valid_moves 8 b WHITE = [])
  ∧ (is_terminal_state 8 b = true
     ↔ valid_moves 8 b BLACK = [] ∧ valid_moves 8 b WHITE = []).
Proof. intros b. apply (terminal_iff_no_moves 8 b). reflexivity. Defined.

(** C9.  The freshly constructed 8-by-8 game has White on (3,3) and (4,4),
    Black on (3,4) and (4,3), every other cell Empty and Black to move;
    Black's legal moves there are exactly (2,3), (3,2), (4,5) and (5,4). *)
Theorem initial_valid_moves :
  let g := new_game DEFAULT_SIZE "human" "easy" "B" false in
  board g = [ [0; 0; 0; 0; 0; 0; 0; 0];
              [0; 0; 0; 0; 0; 0; 0; 0];
              [0; 0; 0; 0; 0; 0; 0; 0];
              [0; 0; 0; WHITE; BLACK; 0; 0; 0];
              [0; 0; 0; BLACK; WHITE; 0; 0; 0];
              [0; 0; 0; 0; 0; 0; 0; 0];
              [0; 0; 0; 0; 0; 0; 0; 0];
              [0; 0; 0; 0; 0; 0; 0; 0] ]
  ∧ current_player g = BLACK
  ∧ valid_moves (size g) (board g) BLACK = [(2, 3); (3, 2); (4, 5); (5, 4)].
Proof. split_and!; reflexivity. Qed.

(** The second scenario of the specification: after Black plays (2,3) on
    the fresh 8-by-8 board the disc at (3,3) is Black, Black has 4 discs
    and White has 1. *)
Example black_opens_2_3 :
  let g := (place_piece (new_game 8 "human" "easy" "B" false) 2 3 BLACK).2 in
  cell (board g) 3 3 = Some BLACK ∧ black_count g = 4 ∧ white_count g = 1.
Proof. split_and!; reflexivity. Qed.

(** ** Static evaluation *)

Lemma evaluate_step_swap W b p o acc rc :
  p ≠ o →
  evaluate_step W b o p (acc.2, acc.1) rc
  = ((evaluate_step W b p o acc rc).2, (evaluate_step W b p o acc rc).1).
Proof.
  intros Hne. destruct acc as [x y], rc as [r c]. unfold evaluate_step.
  destruct (cell_is b r c p) eqn:Ep, (cell_is b r c o) eqn:Eo; try done.
  apply cell_is_true in Ep, Eo. congruence.
Qed.

Lemma evaluate_fold_swap W b p o l : ∀ acc,
  p ≠ o →
  foldl (evaluate_step W b o p) (acc.2, acc.1) l
  = ((foldl (evaluate_step W b p o) acc l).2,
     (foldl (evaluate_step W b p o) acc l).1).
Proof.
  induction l as [|rc l IH]; intros acc Hne; cbn [foldl]; [done|].
  rewrite evaluate_step_swap by done.
  by rewrite (IH (evaluate_step W b p o acc rc)).
Qed.

(** The weights of a 6-by-6 board: 120 in the corners, -20 diagonally next
    to them, 20 on the rest of the edge, 1 inside. *)
Example position_weights_6 :
  generate_position_weights 6 =
  [ [120;  20; 20; 20;  20; 120];
    [ 20; -20;  1;  1; -20;  20];
    [ 20;   1;  1;  1;   1;  20];
    [ 20;   1;  1;  1;   1;  20];
    [ 20; -20;  1;  1; -20;  20];
    [120;  20; 20; 20;  20; 120] ].
Proof. reflexivity. Qed.

(** C8.  The static evaluation is antisymmetric in the player. *)
Theorem evaluate_board_antisymmetric (size : nat) (W b : Board) (player : Z) :
  wf_board size b = true → W = generate_position_weights size →
  player = BLACK ∨ player = WHITE →
  evaluate_board size W b player
  = - evaluate_board size W b (opponent player).
Proof.
  intros _ _ Hp. unfold evaluate_board.
  rewrite (opponent_involutive player Hp).
  pose proof (evaluate_fold_swap W b player (opponent player) (cells size) (0, 0))
    as H. cbn [fst snd] in H. rewrite H by (symmetry; apply opponent_ne).
  clear H. destruct (foldl _ _ _) as [x y]. cbn [fst snd]. lia.
Qed.

Lemma evaluate_board_antisymmetric_witness :
  let b := initial_board 6 in
  let W := generate_position_weights 6 in
  evaluate_board 6 W b BLACK = - evaluate_board 6 W b (opponent BLACK).
Proof.
  intros b W.
  apply (evaluate_board_antisymmetric 6 W b BLACK); [reflexivity|reflexivity|].
  by left.
Defined.

(** ** Disc counts *)

Lemma filter_length_le {A} (f g : A → bool) (l : list A) :
  (∀ x, x ∈ l → f x = true → g x = true) →
  (length (List.filter f l) ≤ length (List.filter g l))%nat.
Proof.
  induction l as [|x l IH]; intros H; simpl; [done|].
  assert (length (List.filter f l) ≤ length (List.filter g l))%nat
    by (apply IH; intros; apply H; [by right|done]).
  destruct (f x) eqn:Ef.
  - rewrite (H x) by (done || by left). simpl. lia.
  - destruct (g x); simpl; lia.
Qed.

Lemma filter_length_lt {A} (f g : A → bool) (l : list A) (x : A) :
  (∀ x, x ∈ l → f x = true → g x = true) →
  x ∈ l → f x = false → g x = true →
  (length (List.filter f l) < length (List.filter g l))%nat.
Proof.
  induction l as [|y l IH]; intros H Hx Hf Hg; [by apply elem_of_nil in Hx|].
  assert (∀ x, x ∈ l → f x = true → g x = true) as H'
    by (intros; apply H; [by right|done]).
  pose proof (filter_length_le f g l H'). simpl.
  apply elem_of_cons in Hx as [<-|Hx].
  - rewrite Hf, Hg. simpl. lia.
  - specialize (IH H' Hx Hf Hg). destruct (f y) eqn:Ef.
    + rewrite (H y) by (done || by left). simpl. lia.
    + destruct (g y); simpl; lia.
Qed.

Lemma filter_length_or {A} (f g : A → bool) (l : list A) :
  (∀ x, x ∈ l → f x = true → g x = true → False) →
  length (List.filter (λ x, f x || g x) l)
  = (length (List.filter f l) + length (List.filter g l))%nat.
Proof.
  induction l as [|x l IH]; intros H; simpl; [done|].
  assert (length (List.filter (λ x, f x || g x) l)
          = (length (List.filter f l) + length (List.filter g l))%nat) as E
    by (apply IH; intros; eapply H; [by right|done..]).
  destruct (f x) eqn:Ef, (g x) eqn:Eg; simpl; try lia.
  exfalso. apply (H x); [by left|done..].
Qed.

Lemma disc_count_filter g player :
  player = BLACK ∨ player = WHITE →
  disc_count g player
  = Z.of_nat (length (List.filter (λ '(r, c), cell_is (board g) r c player)
                                  (cells (size g)))).
Proof. by intros [-> | ->]. Qed.

Lemma total_count_filter g :
  total_count g
  = Z.of_nat (length (List.filter
      (λ '(r, c), cell_is (board g) r c BLACK || cell_is (board g) r c WHITE)
      (cells (size g)))).
Proof.
  unfold total_count, black_count, white_count. rewrite <- Nat2Z.inj_add.
  f_equal. symmetry.
  rewrite <- (filter_length_or (λ '(r, c), cell_is (board g) r c BLACK)
                              (λ '(r, c), cell_is (board g) r c WHITE)).
  - f_equal. apply List.filter_ext. by intros [r c].
  - intros [r c] _ Hb%cell_is_true Hw%cell_is_true. rewrite Hb in Hw.
    discriminate.
Qed.

(** C6.  A legal move is accepted by [place_piece]; it strictly increases
    the mover's disc count and does not decrease the number of discs on
    the board. *)
Theorem place_piece_counts (g : OthelloGame) (row col player : Z) :
  wf_board (size g) (board g) = true →
  player = BLACK ∨ player = WHITE →
  (row, col) ∈ valid_moves (size g) (board g) player →
  ∃ g', place_piece g row col player = (true, g')
    ∧ disc_count g player < disc_count g' player
    ∧ total_count g ≤ total_count g'.
Proof.
  intros _ Hp Hm.
  pose proof Hm as (Hin & He & Hc)%elem_of_valid_moves.
  assert (can_flip (size g) (board g) row col player = true) as Hf
    by by apply can_flip_true.
  unfold place_piece. rewrite Hin, Hf. cbn [negb orb]. eexists. split; [done|].
  set (b' := flip_discs _ _ _ _ _).
  assert (only_writes player (board g) b') as Hw.
  { eapply only_writes_trans; [apply only_writes_set_cell|].
    apply only_writes_flip_dirs. }
  assert (cell b' row col = Some player) as Hnew.
  { eapply only_writes_keeps; [apply only_writes_flip_dirs|].
    apply cell_set_cell_eq. by rewrite He. }
  split.
  - rewrite !disc_count_filter by done. cbn [board size].
    apply inj_lt, (filter_length_lt _ _ _ (row, col)).
    + intros [r c] _ H%cell_is_true. apply cell_is_true.
      by eapply only_writes_keeps.
    + by apply elem_of_cells.
    + apply cell_is_false. rewrite He. destruct Hp as [-> | ->]; discriminate.
    + by apply cell_is_true.
  - rewrite !total_count_filter. cbn [board size].
    apply inj_le, filter_length_le. intros [r c] _.
    rewrite !orb_true_iff, !cell_is_true.
    destruct (Hw r c) as [->|[_ ->]]; [done|].
    destruct Hp as [-> | ->]; intros _; [by left|by right].
Qed.

Lemma place_piece_counts_witness :
  let g := new_game 8 "human" "easy" "B" false in
  ∃ g', place_piece g 2 3 BLACK = (true, g')
    ∧ disc_count g BLACK < disc_count g' BLACK
    ∧ total_count g ≤ total_count g'.
Proof.
  intros g. apply (place_piece_counts g 2 3 BLACK).
  - reflexivity.
  - by left.
  - apply (bool_decide_unpack _). vm_compute. exact I.
Defined.

(** ** The search returns finite scores and legal moves *)

Lemma table_finite_empty : table_finite ∅.
Proof. intros key v H. by rewrite lookup_empty in H. Qed.

Lemma table_finite_insert tbl key v :
  table_finite tbl → is_fin v → table_finite (<[key := v]> tbl).
Proof.
  intros Ht Hv key' v' H. destruct (decide (key = key')) as [->|Hne].
  - rewrite lookup_insert_eq in H. by injection H as <-.
  - rewrite lookup_insert_ne in H by done. by eapply Ht.
Qed.

Lemma num_max_fin a z : a ≠ PosInf → is_fin (num_max a (Fin z)).
Proof.
  intros H. destruct a as [|x|]; [by eexists| |done].
  unfold num_max. simpl. destruct (x <=? z); by eexists.
Qed.

Lemma num_min_fin a z : a ≠ NegInf → is_fin (num_min a (Fin z)).
Proof.
  intros H. destruct a as [|x|]; [done| |by eexists].
  unfold num_min. simpl. destruct (x <=? z); by eexists.
Qed.

Lemma insert_move_perm cmp m l : insert_move cmp m l ≡ₚ m :: l.
Proof.
  induction l as [|x l IH]; simpl; [done|].
  destruct (cmp x m <? 0); [|done]. rewrite IH. apply Permutation_swap.
Qed.

(** Sorting only reorders the moves. *)
Lemma sort_moves_perm cmp l : sort_moves cmp l ≡ₚ l.
Proof.
  unfold sort_moves. induction l as [|m l IH]; simpl; [done|].
  by rewrite insert_move_perm, IH.
Qed.

Lemma sort_moves_nil cmp l : sort_moves cmp l = [] ↔ l = [].
Proof.
  split; [|by intros ->]. intros H.
  apply Permutation_nil_r. by rewrite <- H, sort_moves_perm.
Qed.

Section SearchFinite.
Variables (size : nat) (W : Board).

Lemma max_loop_finite child board current_player beta moves :
  child_finite child → ∀ tbl max_eval alpha,
  table_finite tbl → max_eval ≠ PosInf → is_fin max_eval ∨ moves ≠ [] →
  is_fin (max_loop size child board current_player beta moves
                   tbl max_eval alpha).1
  ∧ table_finite (max_loop size child board current_player beta moves
                           tbl max_eval alpha).2.
Proof.
  intros Hchild. induction moves as [|move rest IH];
    intros tbl max_eval alpha Ht Hm Hne; simpl.
  - destruct Hne; done.
  - destruct (Hchild tbl (make_move_in_state size (copy_board board)
                            move.1 move.2 current_player) alpha Ht)
      as [[z Hz] Ht'].
    destruct (child _ _ _) as [eval_val tbl']. simpl in *. subst eval_val.
    pose proof (num_max_fin max_eval z Hm) as Hfin.
    destruct (num_leb beta _); [done|].
    apply IH; [done| |by left]. destruct Hfin as [? ->]. done.
Qed.

Lemma min_loop_finite child board current_player alpha moves :
  child_finite child → ∀ tbl min_eval beta,
  table_finite tbl → min_eval ≠ NegInf → is_fin min_eval ∨ moves ≠ [] →
  is_fin (min_loop size child board current_player alpha moves
                   tbl min_eval beta).1
  ∧ table_finite (min_loop size child board current_player alpha moves
                           tbl min_eval beta).2.
Proof.
  intros Hchild. induction moves as [|move rest IH];
    intros tbl min_eval beta Ht Hm Hne; simpl.
  - destruct Hne; done.
  - destruct (Hchild tbl (make_move_in_state size (copy_board board)
                            move.1 move.2 current_player) beta Ht)
      as [[z Hz] Ht'].
    destruct (child _ _ _) as [eval_val tbl']. simpl in *. subst eval_val.
    pose proof (num_min_fin min_eval z Hm) as Hfin.
    destruct (num_leb _ alpha); [done|].
    apply IH; [done| |by left]. destruct Hfin as [? ->]. done.
Qed.

(** [minimax] returns a finite score and stores only finite scores. *)
Lemma minimax_finite depth : ∀ tbl board maximizing_player alpha beta player,
  table_finite tbl →
  is_fin (minimax size W depth tbl board maximizing_player
                  alpha beta player).1
  ∧ table_finite (minimax size W depth tbl board maximizing_player
                          alpha beta player).2.
Proof.
  induction depth as [|depth IH];
    intros tbl board mx alpha beta player Ht; simpl.
  - destruct (tbl !! hash_board board) as [v|] eqn:E; simpl.
    + split; [by eapply Ht|done].
    + split; [by eexists|]. apply table_finite_insert; [done|by eexists].
  - destruct (tbl !! hash_board board) as [v|] eqn:E; simpl.
    { split; [by eapply Ht|done]. }
    destruct (is_terminal_state size board); simpl.
    { split; [by eexists|]. apply table_finite_insert; [done|by eexists]. }
    destruct (length _ =? 0)%nat eqn:El.
    { destruct (IH tbl board (negb mx) alpha beta player Ht) as [Hv Ht'].
      destruct (minimax _ _ _ _ _ _ _ _ _) as [v tbl']. simpl in *.
      split; [done|]. by apply table_finite_insert. }
    apply Nat.eqb_neq in El.
    destruct mx.
    + match goal with |- context [max_loop ?s ?ch ?b ?cp ?be ?ms ?t ?me ?al] =>
        destruct (max_loop_finite ch b cp be ms) with (tbl := t)
          (max_eval := me) (alpha := al) as [Hv Ht'] end;
        [by intros ???; apply IH|done|done| |].
      { right. rewrite sort_moves_nil. intros E'. by rewrite E' in El. }
      destruct (max_loop _ _ _ _ _ _ _ _ _) as [v tbl']. simpl in *.
      split; [done|]. by apply table_finite_insert.
    + match goal with |- context [min_loop ?s ?ch ?b ?cp ?al ?ms ?t ?me ?be] =>
        destruct (min_loop_finite ch b cp al ms) with (tbl := t)
          (min_eval := me) (beta := be) as [Hv Ht'] end;
        [by intros ???; apply IH|done|done| |].
      { right. rewrite sort_moves_nil. intros E'. by rewrite E' in El. }
      destruct (min_loop _ _ _ _ _ _ _ _ _) as [v tbl']. simpl in *.
      split; [done|]. by apply table_finite_insert.
Qed.

(** The loop of [get_best_move] ends with one of the moves it was given
    (or with the move it started from), and keeps the table finite. *)
Lemma best_loop_member (P : Z * Z → Prop) depth board player moves :
  ∀ tbl best_score best_move alpha,
  table_finite tbl → (∀ m, m ∈ moves → P m) →
  (best_score = NegInf ∧ best_move = None)
  ∨ (is_fin best_score ∧ ∃ m, best_move = Some m ∧ P m) →
  let r := best_loop size W depth board player PosInf moves
                     tbl best_score best_move alpha in
  table_finite r.2
  ∧ ((∃ m, r.1 = Some m ∧ P m) ∨ (moves = [] ∧ r.1 = None)).
Proof.
  induction moves as [|move rest IH];
    intros tbl best_score best_move alpha Ht HP Hinv; simpl.
  - split; [done|]. destruct Hinv as [[_ ->]|[_ (m & -> & Hm)]].
    + by right.
    + left. by exists m.
  - set (temp := make_move_in_state size (copy_board board) move.1 move.2 player).
    assert (∃ z tbl', (match tbl !! hash_board temp with
              | Some cached => (cached, tbl)
              | None => let '(score, tbl0) :=
                  minimax size W (depth - 1) tbl temp false alpha PosInf player in
                  (score, <[hash_board temp := score]> tbl0)
              end) = (Fin z, tbl') ∧ table_finite tbl') as (z & tbl' & -> & Ht').
    { destruct (tbl !! hash_board temp) as [v|] eqn:E.
      - destruct (Ht _ _ E) as [z ->]. by exists z, tbl.
      - destruct (minimax_finite (depth - 1) tbl temp false alpha PosInf
                                 player Ht) as [[z Hz] Ht'].
        destruct (minimax _ _ _ _ _ _ _ _ _) as [v tbl']. simpl in *. subst v.
        exists z, (<[hash_board temp := Fin z]> tbl'). split; [done|].
        apply table_finite_insert; [done|by eexists]. }
    assert (∃ bs bm, (if num_ltb best_score (Fin z) then (Fin z, Some move)
                      else (best_score, best_move)) = (bs, bm)
            ∧ is_fin bs ∧ ∃ m, bm = Some m ∧ P m) as (bs & bm & -> & Hbs & Hbm).
    { destruct Hinv as [[-> ->]|[Hfin Hm]].
      - exists (Fin z), (Some move). split_and!; [done|by eexists|].
        exists move. split; [done|]. apply HP. by left.
      - destruct (num_ltb best_score (Fin z)).
        + exists (Fin z), (Some move). split_and!; [done|by eexists|].
          exists move. split; [done|]. apply HP. by left.
        + by exists best_score, best_move. }
    destruct (match num_max alpha bs with PosInf => true | _ => false end).
    + simpl. split; [done|]. by left.
    + destruct (IH tbl' bs bm (num_max alpha bs) Ht') as [Ht'' Hr].
      { intros m Hm. apply HP. by right. }
      { by right. }
      split; [done|]. left. destruct Hr as [?|[-> Hr]]; [done|].
      simpl in Hr. destruct Hbm as (m & -> & _). done.
Qed.
End SearchFinite.

(** C7.  [get_best_move] returns [null] exactly when the player has no
    legal move on the board; a coordinate it returns is one of the
    player's legal moves there. *)
Theorem get_best_move_legal (g : OthelloGame) (b : Board) (player : Z) :
  wf_game g → wf_board (size g) b = true →
  ((get_best_move g b player).1 = None ↔ valid_moves (size g) b player = [])
  ∧ (∀ m, (get_best_move g b player).1 = Some m →
          m ∈ valid_moves (size g) b player).
Proof.
  intros (_ & _ & _ & Ht & _) _. unfold get_best_move.
  rewrite get_valid_moves_in_state_valid_moves.
  destruct (valid_moves (size g) b player) as [|m0 ms] eqn:Ev; simpl length.
  { simpl. split; [done|]. intros m [=]. }
  cbn [Nat.eqb].
  match goal with |- context [best_loop ?s ?w ?d ?bd ?p ?be ?mv ?t ?bs ?bm ?al] =>
    pose proof (best_loop_member s w (λ m, m ∈ m0 :: ms) d bd p mv t bs bm al Ht)
      as H end.
  destruct H as [_ Hr].
  { intros m Hm. by rewrite sort_moves_perm in Hm. }
  { by left. }
  destruct (best_loop _ _ _ _ _ _ _ _ _ _ _) as [best_move tbl].
  cbn [fst snd] in *.
  destruct Hr as [(m & -> & Hm)|[Hnil _]].
  - split; [split; discriminate|]. by intros ? [= <-].
  - apply sort_moves_nil in Hnil. discriminate.
Qed.

Lemma get_best_move_legal_witness :
  let g := new_game 6 "ai" "easy" "B" false in
  ((get_best_move g (board g) WHITE).1 = None
   ↔ valid_moves (size g) (board g) WHITE = [])
  ∧ (∀ m, (get_best_move g (board g) WHITE).1 = Some m →
          m ∈ valid_moves (size g) (board g) WHITE).
Proof.
  intros g. apply (get_best_move_legal g (board g) WHITE); [|reflexivity].
  split_and!.
  - reflexivity.
  - reflexivity.
  - left. reflexivity.
  - apply table_finite_empty.
  - eexists. split; reflexivity.
  - repeat constructor.
Defined.

(** ** Undo *)

(** Undoing a turn brings back the board and the move log; the side to
    move becomes the player recorded in the entry that is now last in the
    history. *)
Lemma undo_move_play (g : OthelloGame) (row col : Z) :
  wf_game g →
  (row, col) ∈ valid_moves (size g) (board g) (current_player g) →
  (undo_move (play g row col)).1 = true
  ∧ board (undo_move (play g row col)).2 = board g
  ∧ move_log (undo_move (play g row col)).2 = move_log g
  ∧ move_history (undo_move (play g row col)).2 = move_history g
  ∧ ∃ h, last (move_history g) = Some h
         ∧ current_player (undo_move (play g row col)).2 = h_current_player h.
Proof.
  intros (_ & _ & _ & _ & (h & Hlast & Hb) & _) Hm.
  pose proof Hm as (Hin & He & Hc)%elem_of_valid_moves.
  assert (can_flip (size g) (board g) row col (current_player g) = true) as Hf
    by by apply can_flip_true.
  unfold play, place_piece. rewrite Hin, Hf. cbn [negb orb snd].
  unfold undo_move, switch_player. cbn [move_history move_log size].
  rewrite length_app, !removelast_last, Hlast. cbn [length].
  assert (0 < length (move_history g))%nat as Hlen.
  { destruct (move_history g); [done|simpl; lia]. }
  destruct (Nat.ltb_spec 1 (length (move_history g) + 1)); [|lia].
  cbn [fst snd board move_log move_history current_player].
  split_and!; [done|by rewrite copy_board_id|done|done|].
  by exists h.
Qed.

(** C3.  On the fresh 8-by-8 game Black plays (2,3) and White plays (2,2);
    undoing White's move brings back the board and the move log of the
    position before it, but makes Black the side to move, where White was
    to move before the move was applied. *)
Theorem undo_move_second_move :
  let g0 := new_game 8 "human" "easy" "B" false in
  let g1 := play g0 2 3 in
  let g2 := play g1 2 2 in
  (2, 2) ∈ valid_moves (size g1) (board g1) (current_player g1)
  ∧ (undo_move g2).1 = true
  ∧ board (undo_move g2).2 = board g1
  ∧ move_log (undo_move g2).2 = move_log g1
  ∧ current_player g1 = WHITE
  ∧ current_player (undo_move g2).2 = BLACK.
Proof.
  intros g0 g1 g2. split_and!; try reflexivity.
  apply (bool_decide_unpack _). vm_compute. exact I.
Qed.

(** ** Pruned and memoized search against the plain search *)

(** C4.  A 6-by-6 game after Black (2,1), White (1,3), Black (4,4),
    White (2,0), Black (1,0): White is to move.  On that board, maximizing
    for White at depth 4, and on the board after White's corner move (0,0),
    minimizing at depth 3 (the call that [get_best_move] makes for its
    first candidate when [ai_depth] is 4), [minimax] with the full window
    and an empty table returns 177, where the unpruned search returns
    173.  The board reached by Black (1,1), White (1,2) is cut off after
    its first child and is stored with 177; its value is 133; it is met
    again after Black (1,2), White (1,1), where the stored 177 is taken. *)
Theorem minimax_differs_from_plain :
  let g := play (play (play (play (play
             (new_game 6 "ai" "medium" "B" false) 2 1) 1 3) 4 4) 2 0) 1 0 in
  let W := position_weights g in
  let temp := make_move_in_state 6 (copy_board (board g)) 0 0 WHITE in
  let cut := make_move_in_state 6
               (make_move_in_state 6 temp 1 1 BLACK) 1 2 WHITE in
  board g = [ [0; 0; 0; 0; 0; 0];
              [1; 0; 0; 2; 0; 0];
              [2; 1; 2; 2; 0; 0];
              [0; 0; 1; 1; 0; 0];
              [0; 0; 0; 0; 1; 0];
              [0; 0; 0; 0; 0; 0] ]
  ∧ current_player g = WHITE ∧ ai_depth g = 4%nat
  ∧ transposition_table g = ∅
  ∧ (0, 0) ∈ valid_moves 6 (board g) WHITE
  ∧ (minimax 6 W 4 ∅ (board g) true NegInf PosInf WHITE).1 = Fin 177
  ∧ plain_minimax 6 W 4 (board g) true WHITE = Fin 173
  ∧ (minimax 6 W 3 ∅ temp false NegInf PosInf WHITE).1 = Fin 177
  ∧ plain_minimax 6 W 3 temp false WHITE = Fin 173
  ∧ cut = make_move_in_state 6 (make_move_in_state 6 temp 1 2 BLACK) 1 1 WHITE
  ∧ (minimax 6 W 3 ∅ temp false NegInf PosInf WHITE).2 !! hash_board cut
    = Some (Fin 177)
  ∧ plain_minimax 6 W 1 cut false WHITE = Fin 133.
Proof.
  intros g W temp cut. split_and!; try (vm_compute; reflexivity).
  apply (bool_decide_unpack _). vm_compute. exact I.
Qed.

(** ** The search writes only into its own copies *)

Lemma writes_within_refl b s : writes_within b s s.
Proof. by split. Qed.

Lemma writes_within_trans b s1 s2 s3 :
  writes_within b s1 s2 → writes_within b s2 s3 → writes_within b s1 s3.
Proof.
  intros [D12 H12] [D23 H23]. split; [congruence|].
  intros l Hl. by rewrite H23, H12.
Qed.

Lemma set_cell_within s b r c v : writes_within b s (Heap.set_cell s b r c v).
Proof.
  unfold Heap.set_cell. destruct (_ && _); [|apply writes_within_refl].
  destruct (b !! Z.to_nat r) as [l|] eqn:E; [|apply writes_within_refl].
  split; [apply dom_alter_L|].
  intros l' Hl'. apply lookup_alter_ne. intros ->. apply Hl'.
  by eapply list_elem_of_lookup_2.
Qed.

Lemma paint_within b discs player : ∀ s,
  writes_within b s (Heap.paint s b discs player).
Proof.
  unfold Heap.paint. induction discs as [|[fr fc] discs IH]; intros s; simpl.
  - apply writes_within_refl.
  - eapply writes_within_trans; [apply set_cell_within|apply IH].
Qed.

Lemma ray_flip_within fuel size b dr dc player opp : ∀ s r c flip_list,
  writes_within b s
    (Heap.ray_flip fuel size s b r c dr dc player opp flip_list).
Proof.
  induction fuel as [|fuel IH]; intros s r c flip_list; simpl.
  - apply writes_within_refl.
  - destruct (in_bounds size r c); [|apply writes_within_refl].
    destruct (cell_is _ r c opp); [apply IH|].
    destruct (_ && _); [apply paint_within|apply writes_within_refl].
Qed.

Lemma make_move_in_state_within size s b row col player :
  writes_within b s (Heap.make_move_in_state size s b row col player).
Proof.
  unfold Heap.make_move_in_state.
  apply (writes_within_trans _ _ (Heap.set_cell s b row col player));
    [apply set_cell_within|].
  generalize (Heap.set_cell s b row col player).
  induction DIRECTIONS as [|[dr dc] ds IH]; intros s0; simpl.
  - apply writes_within_refl.
  - eapply writes_within_trans; [apply ray_flip_within|apply IH].
Qed.

Lemma allocated_subseteq s s' b : s ⊆ s' → allocated s b → allocated s' b.
Proof.
  intros Hsub Hall. eapply Forall_impl; [done|].
  intros l [x Hx]. exists x. by eapply lookup_weaken.
Qed.

(** A board whose rows exist reads the same in every larger store. *)
Lemma read_subseteq s s' b :
  s ⊆ s' → allocated s b → Heap.read s' b = Heap.read s b.
Proof.
  intros Hsub Hall. unfold Heap.read. apply list_fmap_ext. intros i l Hl.
  eapply Forall_lookup_1 in Hall as [x Hx]; [|done].
  by rewrite Hx, (lookup_weaken _ _ _ _ Hx Hsub).
Qed.

(** [copy_board] allocates: every old object is kept, the rows of the
    copy are new, pairwise different objects, and they hold the cells of
    the rows copied. *)
Lemma copy_board_spec b : ∀ s temp s',
  Heap.copy_board s b = (temp, s') →
  s ⊆ s'
  ∧ (∀ l, l ∈ temp → s !! l = None)
  ∧ NoDup temp
  ∧ allocated s' temp
  ∧ (allocated s b → Heap.read s' temp = Heap.read s b).
Proof.
  induction b as [|l b IH]; intros s temp s' H; simpl in H.
  - injection H as <- <-. split_and!; [done| |constructor|constructor|done].
    intros l Hl. by apply elem_of_nil in Hl.
  - set (l' := fresh (dom s)) in *.
    set (s1 := <[l' := default [] (s !! l)]> s) in *.
    destruct (Heap.copy_board s1 b) as [rest s2] eqn:E.
    injection H as <- <-.
    destruct (IH s1 rest s2 E) as (Hsub & Hnew & Hnd & Hal & Hread).
    assert (s !! l' = None) as Hfresh.
    { apply not_elem_of_dom. apply is_fresh. }
    assert (s ⊆ s1) as Hs1 by by apply insert_subseteq.
    assert (s2 !! l' = Some (default [] (s !! l))) as Hl'.
    { eapply lookup_weaken; [|done]. apply lookup_insert_eq. }
    split_and!.
    + by transitivity s1.
    + intros k [->|Hk]%elem_of_cons; [done|].
      specialize (Hnew k Hk). eapply lookup_weaken_None; done.
    + constructor; [|done]. intros Hin. specialize (Hnew l' Hin).
      unfold s1 in Hnew. by rewrite lookup_insert_eq in Hnew.
    + constructor; [by rewrite Hl'|done].
    + intros Hall. apply Forall_cons in Hall as [[row Hrow] Hall].
      change (Heap.read s2 (l' :: rest))
        with (default [] (s2 !! l') :: Heap.read s2 rest).
      change (Heap.read s (l :: b))
        with (default [] (s !! l) :: Heap.read s b).
      rewrite Hl', Hread, (read_subseteq s s1) by eauto using allocated_subseteq.
      done.
Qed.

(** One child position: copy the board, play the move on the copy.  No
    object that existed before is touched. *)
Lemma copy_then_move_frame size s board move player temp s1 :
  Heap.copy_board s board = (temp, s1) →
  s ⊆ Heap.make_move_in_state size s1 temp move.1 move.2 player.
Proof.
  intros (Hsub & Hnew & _)%copy_board_spec.
  destruct (make_move_in_state_within size s1 temp move.1 move.2 player)
    as [_ Hout].
  apply map_subseteq_spec. intros l x Hl.
  rewrite Hout; [by eapply lookup_weaken|].
  intros Hin. specialize (Hnew l Hin). congruence.
Qed.

Section SearchFrame.
Variables (size : nat) (W : Board).

Lemma max_loop_frame child board current_player beta moves :
  child_frame child → ∀ s tbl max_eval alpha,
  s ⊆ (Heap.max_loop size child board current_player beta moves
                     s tbl max_eval alpha).1.2.
Proof.
  intros Hchild. induction moves as [|move rest IH];
    intros s tbl max_eval alpha; simpl; [done|].
  destruct (Heap.copy_board s board) as [temp s1] eqn:Ec.
  pose proof (copy_then_move_frame size s board move current_player temp s1 Ec)
    as H1.
  pose proof (Hchild (Heap.make_move_in_state size s1 temp move.1 move.2
                        current_player) tbl temp alpha) as H2.
  destruct (child _ _ _ _) as [[eval_val s3] tbl3]. simpl in H2.
  destruct (num_leb beta _); simpl.
  - by transitivity (Heap.make_move_in_state size s1 temp move.1 move.2
                       current_player).
  - etransitivity; [|apply IH]. etransitivity; done.
Qed.

Lemma min_loop_frame child board current_player alpha moves :
  child_frame child → ∀ s tbl min_eval beta,
  s ⊆ (Heap.min_loop size child board current_player alpha moves
                     s tbl min_eval beta).1.2.
Proof.
  intros Hchild. induction moves as [|move rest IH];
    intros s tbl min_eval beta; simpl; [done|].
  destruct (Heap.copy_board s board) as [temp s1] eqn:Ec.
  pose proof (copy_then_move_frame size s board move current_player temp s1 Ec)
    as H1.
  pose proof (Hchild (Heap.make_move_in_state size s1 temp move.1 move.2
                        current_player) tbl temp beta) as H2.
  destruct (child _ _ _ _) as [[eval_val s3] tbl3]. simpl in H2.
  destruct (num_leb _ alpha); simpl.
  - by transitivity (Heap.make_move_in_state size s1 temp move.1 move.2
                       current_player).
  - etransitivity; [|apply IH]. etransitivity; done.
Qed.

Lemma minimax_frame depth : ∀ s tbl board maximizing_player alpha beta player,
  s ⊆ (Heap.minimax size W depth s tbl board maximizing_player
                    alpha beta player).1.2.
Proof.
  induction depth as [|depth IH]; intros s tbl board mx alpha beta player;
    simpl.
  - by destruct (tbl !! _).
  - destruct (tbl !! _); [done|].
    destruct (is_terminal_state _ _); [done|].
    destruct (length _ =? 0)%nat.
    { specialize (IH s tbl board (negb mx) alpha beta player).
      by destruct (Heap.minimax _ _ _ _ _ _ _ _ _ _) as [[? ?] ?]. }
    destruct mx.
    + match goal with |- context [Heap.max_loop ?sz ?ch ?b ?cp ?be ?ms ?s0 ?t ?me ?al] =>
        pose proof (max_loop_frame ch b cp be ms
                      ltac:(intros ????; apply IH) s0 t me al) as H end.
      by destruct (Heap.max_loop _ _ _ _ _ _ _ _ _ _) as [[? ?] ?].
    + match goal with |- context [Heap.min_loop ?sz ?ch ?b ?cp ?al ?ms ?s0 ?t ?me ?be] =>
        pose proof (min_loop_frame ch b cp al ms
                      ltac:(intros ????; apply IH) s0 t me be) as H end.
      by destruct (Heap.min_loop _ _ _ _ _ _ _ _ _ _) as [[? ?] ?].
Qed.

Lemma best_loop_frame depth board player beta moves :
  ∀ s tbl best_score best_move alpha,
  s ⊆ (Heap.best_loop size W depth board player beta moves
                      s tbl best_score best_move alpha).1.2.
Proof.
  induction moves as [|move rest IH];
    intros s tbl best_score best_move alpha; simpl; [done|].
  destruct (Heap.copy_board s board) as [temp s1] eqn:Ec.
  pose proof (copy_then_move_frame size s board move player temp s1 Ec) as H1.
  set (s2 := Heap.make_move_in_state size s1 temp move.1 move.2 player) in *.
  assert (∃ score s3 tbl3,
    (match tbl !! hash_board (Heap.read s2 temp) with
     | Some cached => (cached, s2, tbl)
     | None => let '(score, s0, tbl0) :=
         Heap.minimax size W (depth - 1) s2 tbl temp false alpha beta player in
         (score, s0, <[hash_board (Heap.read s2 temp) := score]> tbl0)
     end) = (score, s3, tbl3) ∧ s2 ⊆ s3) as (score & s3 & tbl3 & -> & H2).
  { destruct (tbl !! _); [by eexists _, _, _|].
    pose proof (minimax_frame (depth - 1) s2 tbl temp false alpha beta player)
      as H.
    destruct (Heap.minimax _ _ _ _ _ _ _ _ _ _) as [[? ?] ?].
    by eexists _, _, _. }
  destruct (if num_ltb best_score score then _ else _) as [bs bm].
  destruct (num_leb beta _); simpl.
  - by transitivity s2.
  - etransitivity; [|apply IH]. by transitivity s2.
Qed.
End SearchFrame.

Lemma get_best_move_frame g s b player :
  s ⊆ (Heap.get_best_move g s b player).1.2.
Proof.
  unfold Heap.get_best_move. destruct (length _ =? 0)%nat; [done|].
  apply best_loop_frame.
Qed.

(** C10.  [minimax] and [get_best_move] leave every row object that exists
    when they are called with the cells it had, and so the board passed
    to them (and any other board) reads the same after the call: the moves
    of the search are played on rows that [copy_board] has just
    allocated. *)
Theorem search_leaves_board_unchanged (g : OthelloGame)
    (s : Heap.store) (tbl : table) (b : Heap.bref)
    (depth : nat) (maximizing_player : bool) (alpha beta : num) (player : Z) :
  allocated s b →
  let s1 := (Heap.minimax (size g) (position_weights g) depth s tbl b
                          maximizing_player alpha beta player).1.2 in
  let s2 := (Heap.get_best_move g s b player).1.2 in
  (s ⊆ s1 ∧ Heap.read s1 b = Heap.read s b)
  ∧ (s ⊆ s2 ∧ Heap.read s2 b = Heap.read s b).
Proof.
  intros Hall s1 s2.
  pose proof (minimax_frame (size g) (position_weights g) depth s tbl b
                maximizing_player alpha beta player) as H1.
  pose proof (get_best_move_frame g s b player) as H2.
  split; (split; [done|by apply read_subseteq]).
Qed.

Lemma search_leaves_board_unchanged_witness :
  let g := new_game 6 "ai" "easy" "B" false in
  let '(b, s) := Heap.alloc_board ∅ (board g) in
  let s1 := (Heap.minimax (size g) (position_weights g) 2 s ∅ b
                          true NegInf PosInf BLACK).1.2 in
  let s2 := (Heap.get_best_move g s b BLACK).1.2 in
  (s ⊆ s1 ∧ Heap.read s1 b = Heap.read s b)
  ∧ (s ⊆ s2 ∧ Heap.read s2 b = Heap.read s b).
Proof.
  intros g. destruct (Heap.alloc_board ∅ (board g)) as [b s] eqn:E.
  apply (search_leaves_board_unchanged g s ∅ b 2 true NegInf PosInf BLACK).
  vm_compute in E. injection E as <- <-.
  repeat constructor; by eexists.
Defined.

(** ** The search on the store computes the search on board values *)

Lemma allocated_within b b' s s' :
  writes_within b s s' → allocated s b' → allocated s' b'.
Proof.
  intros [Hdom _] Hall. eapply Forall_impl; [done|].
  intros l Hl. apply elem_of_dom. rewrite Hdom. by apply elem_of_dom.
Qed.

Lemma read_set_cell s b r c v :
  NoDup b → allocated s b →
  Heap.read (Heap.set_cell s b r c v) b = set_cell (Heap.read s b) r c v.
Proof.
  intros Hnd Hall. unfold Heap.set_cell, set_cell.
  destruct (_ && _); [|done].
  apply list_eq. intros i. unfold Heap.read.
  destruct (decide (i = Z.to_nat r)) as [->|Hne].
  - rewrite list_lookup_alter_eq, !list_lookup_fmap.
    destruct (b !! Z.to_nat r) as [l|] eqn:El; simpl; [|done].
    eapply Forall_lookup_1 in Hall as [row Hrow]; [|done].
    by rewrite lookup_alter_eq, Hrow.
  - rewrite list_lookup_alter_ne by done. rewrite !list_lookup_fmap.
    destruct (b !! i) as [l'|] eqn:El'; simpl; [|done].
    destruct (b !! Z.to_nat r) as [l|] eqn:El; [|done].
    rewrite lookup_alter_ne; [done|]. intros ->.
    apply Hne. by eapply NoDup_lookup.
Qed.

Lemma read_paint b discs player : ∀ s,
  NoDup b → allocated s b →
  Heap.read (Heap.paint s b discs player) b
  = paint (Heap.read s b) discs player.
Proof.
  unfold Heap.paint, paint.
  induction discs as [|[fr fc] discs IH]; intros s Hnd Hall; simpl; [done|].
  rewrite IH; [by rewrite read_set_cell|done|].
  eapply allocated_within; [apply set_cell_within|done].
Qed.

Lemma read_ray_flip fuel size b dr dc player opp : ∀ s r c flip_list,
  NoDup b → allocated s b →
  Heap.read (Heap.ray_flip fuel size s b r c dr dc player opp flip_list) b
  = ray_flip fuel size (Heap.read s b) r c dr dc player opp flip_list.
Proof.
  induction fuel as [|fuel IH]; intros s r c flip_list Hnd Hall; simpl; [done|].
  destruct (in_bounds size r c); [|done].
  destruct (cell_is _ r c opp); [by apply IH|].
  destruct (_ && _); [by apply read_paint|done].
Qed.

Lemma read_make_move_in_state size s b row col player :
  NoDup b → allocated s b →
  Heap.read (Heap.make_move_in_state size s b row col player) b
  = make_move_in_state size (Heap.read s b) row col player.
Proof.
  intros Hnd Hall. unfold Heap.make_move_in_state, make_move_in_state.
  rewrite <- read_set_cell by done.
  assert (allocated (Heap.set_cell s b row col player) b) as Hall'
    by (eapply allocated_within; [apply set_cell_within|done]).
  revert Hall'. generalize (Heap.set_cell s b row col player).
  induction DIRECTIONS as [|[dr dc] ds IH]; intros s0 Hall0; simpl; [done|].
  rewrite IH.
  - f_equal. unfold make_move_dir. by apply read_ray_flip.
  - eapply allocated_within; [apply ray_flip_within|done].
Qed.

(** One child position, on the store and on values. *)
Lemma copy_then_move_read size s board move player temp s1 :
  allocated s board → Heap.copy_board s board = (temp, s1) →
  let s2 := Heap.make_move_in_state size s1 temp move.1 move.2 player in
  allocated s2 temp
  ∧ Heap.read s2 temp
    = make_move_in_state size (copy_board (Heap.read s board))
                         move.1 move.2 player.
Proof.
  intros Hall (Hsub & Hnew & Hnd & Hal & Hread)%copy_board_spec s2. split.
  - eapply allocated_within; [apply make_move_in_state_within|done].
  - unfold s2. rewrite read_make_move_in_state by done.
    by rewrite Hread, copy_board_id.
Qed.

Section SearchRefines.
Variables (size : nat) (W : Board).

Lemma max_loop_refines hchild pchild board current_player beta moves :
  child_refines hchild pchild → ∀ s tbl max_eval alpha,
  allocated s board →
  let r := Heap.max_loop size hchild board current_player beta moves
                         s tbl max_eval alpha in
  (r.1.1, r.2) = max_loop size pchild (Heap.read s board) current_player beta
                          moves tbl max_eval alpha
  ∧ s ⊆ r.1.2.
Proof.
  intros Hchild. induction moves as [|move rest IH];
    intros s tbl max_eval alpha Hall; cbn zeta; cbn [Heap.max_loop max_loop];
    [done|].
  destruct (Heap.copy_board s board) as [temp s1] eqn:Ec.
  destruct (copy_then_move_read size s board move current_player temp s1
              Hall Ec) as [Hal2 Hread2].
  pose proof (copy_then_move_frame size s board move current_player temp s1 Ec)
    as Hsub2.
  set (s2 := Heap.make_move_in_state size s1 temp move.1 move.2 current_player)
    in *.
  destruct (Hchild s2 tbl temp alpha Hal2) as [Heq Hsub3].
  rewrite Hread2 in Heq. rewrite <- Heq.
  destruct (hchild s2 tbl temp alpha) as [[eval_val s3] tbl3].
  cbn [fst snd] in *.
  assert (s ⊆ s3) as Hsub by by transitivity s2.
  destruct (num_leb beta _); [done|].
  rewrite <- (read_subseteq s s3 board) by done.
  destruct (IH s3 tbl3 (num_max max_eval eval_val) (num_max alpha eval_val))
    as [IH1 IH2]; [by eapply allocated_subseteq|].
  split; [done|]. by transitivity s3.
Qed.

Lemma min_loop_refines hchild pchild board current_player alpha moves :
  child_refines hchild pchild → ∀ s tbl min_eval beta,
  allocated s board →
  let r := Heap.min_loop size hchild board current_player alpha moves
                         s tbl min_eval beta in
  (r.1.1, r.2) = min_loop size pchild (Heap.read s board) current_player alpha
                          moves tbl min_eval beta
  ∧ s ⊆ r.1.2.
Proof.
  intros Hchild. induction moves as [|move rest IH];
    intros s tbl min_eval beta Hall; cbn zeta; cbn [Heap.min_loop min_loop];
    [done|].
  destruct (Heap.copy_board s board) as [temp s1] eqn:Ec.
  destruct (copy_then_move_read size s board move current_player temp s1
              Hall Ec) as [Hal2 Hread2].
  pose proof (copy_then_move_frame size s board move current_player temp s1 Ec)
    as Hsub2.
  set (s2 := Heap.make_move_in_state size s1 temp move.1 move.2 current_player)
    in *.
  destruct (Hchild s2 tbl temp beta Hal2) as [Heq Hsub3].
  rewrite Hread2 in Heq. rewrite <- Heq.
  destruct (hchild s2 tbl temp beta) as [[eval_val s3] tbl3].
  cbn [fst snd] in *.
  assert (s ⊆ s3) as Hsub by by transitivity s2.
  destruct (num_leb _ alpha); [done|].
  rewrite <- (read_subseteq s s3 board) by done.
  destruct (IH s3 tbl3 (num_min min_eval eval_val) (num_min beta eval_val))
    as [IH1 IH2]; [by eapply allocated_subseteq|].
  split; [done|]. by transitivity s3.
Qed.

(** [minimax] on a board in the store returns the score and the table
    that [minimax] on the board's contents returns. *)
Lemma minimax_refines depth : ∀ s tbl board maximizing_player alpha beta player,
  allocated s board →
  let r := Heap.minimax size W depth s tbl board maximizing_player
                        alpha beta player in
  (r.1.1, r.2) = minimax size W depth tbl (Heap.read s board)
                         maximizing_player alpha beta player
  ∧ s ⊆ r.1.2.
Proof.
  induction depth as [|depth IH]; intros s tbl board mx alpha beta player Hall;
    cbn zeta; cbn [Heap.minimax minimax].
  - by destruct (tbl !! _).
  - destruct (tbl !! _); [done|].
    destruct (is_terminal_state _ _); [done|].
    destruct (length _ =? 0)%nat.
    { destruct (IH s tbl board (negb mx) alpha beta player Hall) as [Heq Hsub].
      rewrite <- Heq.
      by destruct (Heap.minimax _ _ _ _ _ _ _ _ _ _) as [[? ?] ?]. }
    destruct mx.
    + match goal with
      |- context [Heap.max_loop ?sz ?hch ?b ?cp ?be ?ms ?s0 ?t ?me ?al] =>
        destruct (max_loop_refines hch
                    (λ tbl temp alpha,
                       minimax size W depth tbl temp false alpha beta player)
                    b cp be ms ltac:(intros ?????; by apply IH) s0 t me al Hall)
          as [Heq Hsub] end.
      rewrite <- Heq.
      by destruct (Heap.max_loop _ _ _ _ _ _ _ _ _ _) as [[? ?] ?].
    + match goal with
      |- context [Heap.min_loop ?sz ?hch ?b ?cp ?al ?ms ?s0 ?t ?me ?be] =>
        destruct (min_loop_refines hch
                    (λ tbl temp beta,
                       minimax size W depth tbl temp true alpha beta player)
                    b cp al ms ltac:(intros ?????; by apply IH) s0 t me be Hall)
          as [Heq Hsub] end.
      rewrite <- Heq.
      by destruct (Heap.min_loop _ _ _ _ _ _ _ _ _ _) as [[? ?] ?].
Qed.

Lemma best_loop_refines depth board player beta moves :
  ∀ s tbl best_score best_move alpha,
  allocated s board →
  let r := Heap.best_loop size W depth board player beta moves
                          s tbl best_score best_move alpha in
  (r.1.1, r.2) = best_loop size W depth (Heap.read s board) player beta moves
                           tbl best_score best_move alpha.
Proof.
  induction moves as [|move rest IH];
    intros s tbl best_score best_move alpha Hall;
    cbn zeta; cbn [Heap.best_loop best_loop]; [done|].
  destruct (Heap.copy_board s board) as [temp s1] eqn:Ec.
  destruct (copy_then_move_read size s board move player temp s1 Hall Ec)
    as [Hal2 Hread2].
  pose proof (copy_then_move_frame size s board move player temp s1 Ec)
    as Hsub2.
  set (s2 := Heap.make_move_in_state size s1 temp move.1 move.2 player) in *.
  rewrite <- Hread2.
  assert (∃ score s3 tbl3,
    (match tbl !! hash_board (Heap.read s2 temp) with
     | Some cached => (cached, s2, tbl)
     | None => let '(score, s0, tbl0) :=
         Heap.minimax size W (depth - 1) s2 tbl temp false alpha beta player in
         (score, s0, <[hash_board (Heap.read s2 temp) := score]> tbl0)
     end) = (score, s3, tbl3)
    ∧ (match tbl !! hash_board (Heap.read s2 temp) with
       | Some cached => (cached, tbl)
       | None => let '(score, tbl0) :=
           minimax size W (depth - 1) tbl (Heap.read s2 temp) false
                   alpha beta player in
           (score, <[hash_board (Heap.read s2 temp) := score]> tbl0)
       end) = (score, tbl3)
    ∧ s2 ⊆ s3) as (score & s3 & tbl3 & -> & -> & Hsub3).
  { destruct (tbl !! _); [by eexists _, _, _|].
    destruct (minimax_refines (depth - 1) s2 tbl temp false alpha beta player
                Hal2) as [Heq Hsub]. rewrite <- Heq.
    destruct (Heap.minimax _ _ _ _ _ _ _ _ _ _) as [[? ?] ?].
    by eexists _, _, _. }
  destruct (if num_ltb best_score score then _ else _) as [bs bm].
  destruct (num_leb beta _); [done|].
  assert (s ⊆ s3) as Hsub by by transitivity s2.
  rewrite <- (read_subseteq s s3 board) by done.
  apply IH. by eapply allocated_subseteq.
Qed.
End SearchRefines.

(** [get_best_move] on a board in the store returns the move and the
    table that [get_best_move] on the board's contents returns. *)
Lemma get_best_move_refines g s b player :
  allocated s b →
  (Heap.get_best_move g s b player).1.1
  = (get_best_move g (Heap.read s b) player).1
  ∧ (Heap.get_best_move g s b player).2
    = transposition_table (get_best_move g (Heap.read s b) player).2.
Proof.
  intros Hall. unfold Heap.get_best_move, get_best_move.
  destruct (length _ =? 0)%nat; [done|].
  match goal with
  |- context [Heap.best_loop ?sz ?w ?d ?bd ?p ?be ?ms ?s0 ?t ?bs ?bm ?al] =>
    pose proof (best_loop_refines sz w d bd p be ms s0 t bs bm al Hall) as H end.
  cbn zeta in H. rewrite <- H.
  by destruct (Heap.best_loop _ _ _ _ _ _ _ _ _ _ _) as [[? ?] ?].
Qed.

(** ** The invariant of the game object *)

Lemma wf_board_spec size b :
  wf_board size b = true ↔
  length b = size
  ∧ Forall (λ row, length row = size
              ∧ Forall (λ x, x = EMPTY ∨ x = BLACK ∨ x = WHITE) row) b.
Proof.
  assert (∀ row : list Z,
    forallb (λ x, (x =? EMPTY) || (x =? BLACK) || (x =? WHITE)) row = true
    ↔ Forall (λ x, x = EMPTY ∨ x = BLACK ∨ x = WHITE) row) as Hcells.
  { induction row as [|x row IH]; simpl; [by split|].
    rewrite Forall_cons, andb_true_iff, IH, !orb_true_iff, !Z.eqb_eq. tauto. }
  unfold wf_board. rewrite andb_true_iff, Nat.eqb_eq.
  apply and_iff_compat_l.
  induction b as [|row b IH]; simpl; [by split|].
  rewrite Forall_cons, !andb_true_iff, IH, Nat.eqb_eq, Hcells. tauto.
Qed.

Lemma wf_board_set_cell size b r c v :
  wf_board size b = true → v = EMPTY ∨ v = BLACK ∨ v = WHITE →
  wf_board size (set_cell b r c v) = true.
Proof.
  rewrite !wf_board_spec. intros [Hlen Hrows] Hv. unfold set_cell.
  destruct (_ && _); [|done]. split; [by rewrite length_alter|].
  apply Forall_alter; [done|]. intros row _ [Hl Hc]. split.
  - by rewrite length_insert.
  - by apply Forall_insert.
Qed.

Lemma wf_board_paint size discs player : ∀ b,
  wf_board size b = true → player = BLACK ∨ player = WHITE →
  wf_board size (paint b discs player) = true.
Proof.
  unfold paint. induction discs as [|[fr fc] discs IH]; intros b Hb Hp; simpl;
    [done|].
  apply IH; [|done]. apply wf_board_set_cell; [done|tauto].
Qed.

Lemma wf_board_flip_discs size b row col player :
  wf_board size b = true → player = BLACK ∨ player = WHITE →
  wf_board size (flip_discs size b row col player) = true.
Proof.
  intros Hb Hp. unfold flip_discs. revert b Hb.
  induction DIRECTIONS as [|[dr dc] ds IH]; intros b Hb; simpl; [done|].
  apply IH. unfold flip_dir.
  destruct (collect_opp _ _ _ _ _ _ _ _ _) as [[rr cc] discs].
  destruct (_ && _); [by apply wf_board_paint|done].
Qed.

Lemma wf_board_empty_board size : wf_board size (empty_board size) = true.
Proof.
  apply wf_board_spec. unfold empty_board, range.
  rewrite !length_fmap, length_seq. split; [done|].
  apply Forall_fmap, Forall_true. intros r. simpl.
  rewrite !length_fmap, length_seq. split; [done|].
  apply Forall_fmap, Forall_true. intros c. by left.
Qed.

(** The constructor establishes the invariant. *)
Lemma wf_game_new_game size opponent_type ai_difficulty player_color dynamic :
  wf_game (new_game size opponent_type ai_difficulty player_color dynamic).
Proof.
  unfold wf_game, new_game. cbn -[initial_board generate_position_weights].
  split_and!.
  - unfold initial_board, BLACK, WHITE.
    repeat (apply wf_board_set_cell; [|naive_solver]).
    apply wf_board_empty_board.
  - done.
  - unfold AI_DEPTH_MAP.
    repeat (destruct (String.eqb _ _); [naive_solver|]). naive_solver.
  - apply table_finite_empty.
  - eexists. split; [done|]. apply copy_board_id.
  - constructor; [|constructor]. simpl. rewrite copy_board_id.
    unfold initial_board, BLACK, WHITE.
    repeat (apply wf_board_set_cell; [|naive_solver]).
    apply wf_board_empty_board.
Qed.

(** [place_piece] keeps it, whether it accepts the move or not. *)
Lemma wf_game_place_piece g row col player :
  wf_game g → player = BLACK ∨ player = WHITE →
  wf_game (place_piece g row col player).2.
Proof.
  intros Hg Hp. unfold place_piece. destruct (_ || _); [done|].
  destruct Hg as (Hb & HW & Hd & Ht & Hh & Hhs).
  assert (wf_board (size g)
            (flip_discs (size g) (set_cell (board g) row col player)
                        row col player) = true) as Hb'.
  { apply wf_board_flip_discs; [|done].
    apply wf_board_set_cell; [done|tauto]. }
  unfold wf_game. cbn [snd size board position_weights ai_depth
                       transposition_table move_history].
  split_and!; [done..| |].
  - eexists. rewrite last_snoc. split; [done|]. apply copy_board_id.
  - apply Forall_app. split; [done|]. constructor; [|constructor].
    simpl. by rewrite copy_board_id.
Qed.

Lemma wf_game_switch_player g : wf_game g → wf_game (switch_player g).
Proof. done. Qed.

Lemma wf_game_undo_move g : wf_game g → wf_game (undo_move g).2.
Proof.
  intros Hg. unfold undo_move.
  destruct (1 <? length (move_history g))%nat eqn:El; [|done].
  destruct (last (removelast (move_history g))) as [prev|] eqn:Elast; [|done].
  destruct Hg as (Hb & HW & Hd & Ht & Hh & Hhs).
  assert (Forall (λ h, wf_board (size g) (h_board h) = true)
                 (removelast (move_history g))) as Hhs'.
  { destruct (move_history g) as [|h0 hs] using rev_ind; [done|].
    rewrite removelast_last. by apply Forall_app in Hhs as [? _]. }
  unfold wf_game. cbn [snd size board position_weights ai_depth
                       transposition_table move_history].
  rewrite copy_board_id. split_and!; [|done..| |done].
  - apply last_Some_elem_of in Elast.
    by eapply Forall_forall in Hhs'.
  - by exists prev.
Qed.

Lemma wf_game_get_best_move g b player :
  wf_game g → wf_game (get_best_move g b player).2.
Proof.
  intros Hg. unfold get_best_move. destruct (length _ =? 0)%nat; [done|].
  destruct Hg as (Hb & HW & Hd & Ht & Hh & Hhs).
  match goal with |- context [best_loop ?s ?w ?d ?bd ?p ?be ?mv ?t ?bs ?bm ?al] =>
    destruct (best_loop_member s w (λ _, True) d bd p mv t bs bm al Ht)
      as [Ht' _] end; [done|by left|].
  destruct (best_loop _ _ _ _ _ _ _ _ _ _ _) as [best_move tbl].
  by split_and!.
Qed.

(** One turn keeps the invariant. *)
Lemma wf_game_play g row col :
  wf_game g → current_player g = BLACK ∨ current_player g = WHITE →
  wf_game (play g row col).
Proof.
  intros Hg Hp. unfold play. by apply wf_game_switch_player, wf_game_place_piece.
Qed.

(** * Further properties of the engine *)

(** ** A move turns exactly the bracketed discs *)

Lemma captures_len_captures size b row col player d :
  captures size b row col player d
  ↔ ∃ k, captures_len size b row col player d k.
Proof. done. Qed.

Lemma captures_len_run size b row col player d k :
  captures_len size b row col player d k ↔
  (1 ≤ k)%nat
  ∧ run_end size b d.1 d.2 (opponent player) (row + d.1) (col + d.2) k
  ∧ in_bounds size (row + d.1 + Z.of_nat k * d.1)
                   (col + d.2 + Z.of_nat k * d.2) = true
  ∧ cell b (row + d.1 + Z.of_nat k * d.1) (col + d.2 + Z.of_nat k * d.2)
    = Some player.
Proof.
  pose proof (opponent_ne player) as Hne.
  assert (∀ j : nat, row + d.1 + Z.of_nat j * d.1 = row + Z.of_nat (j + 1) * d.1)
    as Er by (intros; lia).
  assert (∀ j : nat, col + d.2 + Z.of_nat j * d.2 = col + Z.of_nat (j + 1) * d.2)
    as Ec by (intros; lia).
  split.
  - intros (Hk & Hrun & Hin & Hp). rewrite Er, Ec.
    split_and!; [done| |done|done]. split.
    + intros j Hj. unfold at_opp. rewrite Er, Ec.
      destruct (Hrun (j + 1)%nat ltac:(lia)) as [-> Hc].
      by apply cell_is_true.
    + unfold at_opp. rewrite Er, Ec, Hin. simpl.
      apply cell_is_false. congruence.
  - intros (Hk & [Hrun Hend] & Hin & Hp). rewrite Er, Ec in Hin, Hp.
    split_and!; [done| |done|done].
    intros j Hj. specialize (Hrun (j - 1)%nat ltac:(lia)).
    unfold at_opp in Hrun. rewrite Er, Ec in Hrun.
    replace (j - 1 + 1)%nat with j in Hrun by lia.
    apply andb_true_iff in Hrun as [? ?%cell_is_true]. done.
Qed.

Lemma cell_paint_not_elem player discs r c : ∀ b,
  (r, c) ∉ discs → cell (paint b discs player) r c = cell b r c.
Proof.
  unfold paint. induction discs as [|[fr fc] discs IH]; intros b Hnin; simpl;
    [done|].
  apply not_elem_of_cons in Hnin as [Hne Hnin].
  rewrite IH by done. apply cell_set_cell_ne. congruence.
Qed.

(** Two different directions share no cell beyond the origin. *)
Lemma rays_disjoint d d' (j j' : nat) :
  d ∈ DIRECTIONS → d' ∈ DIRECTIONS → d ≠ d' → (1 ≤ j)%nat → (1 ≤ j')%nat →
  (Z.of_nat j * d.1, Z.of_nat j * d.2) ≠ (Z.of_nat j' * d'.1, Z.of_nat j' * d'.2).
Proof.
  intros Hd Hd' Hne Hj Hj'. unfold DIRECTIONS in Hd, Hd'.
  repeat (apply elem_of_cons in Hd as [->|Hd]);
    [..|by apply elem_of_nil in Hd];
    repeat (apply elem_of_cons in Hd' as [->|Hd']);
    try (by apply elem_of_nil in Hd'); try done;
    cbn [fst snd]; intros [= H1 H2]; lia.
Qed.

Lemma NoDup_DIRECTIONS : NoDup DIRECTIONS.
Proof. apply (bool_decide_unpack _). vm_compute. exact I. Qed.

(** What one direction of [flip_discs] does, in closed form. *)
Lemma flip_dir_run size row col player b d k :
  d ∈ DIRECTIONS → in_bounds size row col = true →
  run_end size b d.1 d.2 (opponent player) (row + d.1) (col + d.2) k →
  flip_dir size row col player b d
  = if in_bounds size (row + d.1 + Z.of_nat k * d.1)
                      (col + d.2 + Z.of_nat k * d.2)
       && cell_is b (row + d.1 + Z.of_nat k * d.1)
                    (col + d.2 + Z.of_nat k * d.2) player
       && (0 <? k)%nat
    then paint b (positions d.1 d.2 (row + d.1) (col + d.2) k) player
    else b.
Proof.
  intros Hd Hin Hrun.
  destruct (run_end_exists size b row col d (opponent player) Hd Hin)
    as (k' & Hk' & Hrun').
  assert (k' = k) as -> by eauto using run_end_unique.
  unfold flip_dir. destruct d as [dr dc]; cbn [fst snd] in *.
  rewrite (collect_opp_run _ _ _ _ _ k) by done. cbn [app].
  by rewrite length_positions.
Qed.

Lemma run_end_agree size b0 b1 d opp row col k :
  (∀ j : nat, (1 ≤ j)%nat →
     cell b1 (row + Z.of_nat j * d.1) (col + Z.of_nat j * d.2)
     = cell b0 (row + Z.of_nat j * d.1) (col + Z.of_nat j * d.2)) →
  run_end size b1 d.1 d.2 opp (row + d.1) (col + d.2) k
  ↔ run_end size b0 d.1 d.2 opp (row + d.1) (col + d.2) k.
Proof.
  intros Hag.
  assert (∀ j, at_opp size b1 d.1 d.2 opp (row + d.1) (col + d.2) j
             = at_opp size b0 d.1 d.2 opp (row + d.1) (col + d.2) j) as E.
  { intros j. unfold at_opp, cell_is.
    replace (row + d.1 + Z.of_nat j * d.1)
      with (row + Z.of_nat (j + 1) * d.1) by lia.
    replace (col + d.2 + Z.of_nat j * d.2)
      with (col + Z.of_nat (j + 1) * d.2) by lia.
    by rewrite Hag by lia. }
  unfold run_end. rewrite E. by setoid_rewrite E.
Qed.

(** The directions are independent of each other: after the directions
    [ds] are processed, a cell holds [player] if one of them brackets it
    on the board before, and what it held otherwise. *)
Lemma flip_dirs_exact size row col player b0 ds : ∀ b1,
  NoDup ds → (∀ d, d ∈ ds → d ∈ DIRECTIONS) →
  in_bounds size row col = true →
  (∀ d (j : nat), d ∈ ds → (1 ≤ j)%nat →
     cell b1 (row + Z.of_nat j * d.1) (col + Z.of_nat j * d.2)
     = cell b0 (row + Z.of_nat j * d.1) (col + Z.of_nat j * d.2)) →
  ∀ r c,
    (bracketed_in ds size b0 row col player r c →
     cell (foldl (flip_dir size row col player) b1 ds) r c = Some player)
    ∧ (¬ bracketed_in ds size b0 row col player r c →
       cell (foldl (flip_dir size row col player) b1 ds) r c = cell b1 r c).
Proof.
  induction ds as [|d ds IH]; intros b1 Hnd Hds Hin Hag r c; cbn [foldl].
  { split; [|done]. intros (d & k & j & Hd & _). by apply elem_of_nil in Hd. }
  apply NoDup_cons in Hnd as [Hnotin Hnd].
  assert (d ∈ DIRECTIONS) as HdD by (apply Hds; by left).
  destruct (run_end_exists size b1 row col d (opponent player) HdD Hin)
    as (k & Hk & Hrun1).
  assert (run_end size b0 d.1 d.2 (opponent player) (row + d.1) (col + d.2) k)
    as Hrun0.
  { apply (run_end_agree size b0 b1 d (opponent player) row col k); [|done].
    intros j Hj. apply Hag; [by left|done]. }
  set (rr := row + d.1 + Z.of_nat k * d.1) in *.
  set (cc := col + d.2 + Z.of_nat k * d.2) in *.
  assert (cell b1 rr cc = cell b0 rr cc) as Hclose.
  { unfold rr, cc.
    replace (row + d.1 + Z.of_nat k * d.1)
      with (row + Z.of_nat (k + 1) * d.1) by lia.
    replace (col + d.2 + Z.of_nat k * d.2)
      with (col + Z.of_nat (k + 1) * d.2) by lia.
    apply Hag; [by left|lia]. }
  rewrite (flip_dir_run size row col player b1 d k) by done.
  fold rr cc.
  set (cond := in_bounds size rr cc && cell_is b1 rr cc player && (0 <? k)%nat).
  assert (cond = true ↔ captures_len size b0 row col player d k) as Hcond.
  { unfold cond. rewrite captures_len_run. fold rr cc.
    rewrite !andb_true_iff, cell_is_true, Nat.ltb_lt, Hclose.
    split; [intros [[? ?] ?]|intros (? & ? & ? & ?)]; split_and!; (done || lia). }
  assert (∀ k', captures_len size b0 row col player d k' → k' = k) as Huniq.
  { intros k' (_ & Hrun' & _)%captures_len_run. eauto using run_end_unique. }
  set (b2 := if cond then paint b1 (positions d.1 d.2 (row + d.1) (col + d.2) k)
                              player else b1).
  assert (∀ r c, (r, c) ∉ positions d.1 d.2 (row + d.1) (col + d.2) k →
                 cell b2 r c = cell b1 r c) as Hout.
  { intros r' c' Hn. unfold b2. destruct cond; [|done].
    by apply cell_paint_not_elem. }
  assert (∀ d' (j : nat), d' ∈ ds → (1 ≤ j)%nat →
    (row + Z.of_nat j * d'.1, col + Z.of_nat j * d'.2)
    ∉ positions d.1 d.2 (row + d.1) (col + d.2) k) as Hdisj.
  { intros d' j Hd' Hj (i & Hi & [= E1 E2])%elem_of_positions.
    apply (rays_disjoint d' d j (i + 1)); [by apply Hds; right|done| |done|lia|].
    - intros ->. done.
    - f_equal; lia. }
  destruct (IH b2 Hnd) with (r := r) (c := c) as [IHin IHout].
  { intros d' Hd'. apply Hds. by right. }
  { done. }
  { intros d' j Hd' Hj. rewrite Hout by by apply Hdisj.
    apply Hag; [by right|done]. }
  split.
  - intros (d0 & k0 & j & Hd0 & Hcap & Hj & -> & ->).
    apply elem_of_cons in Hd0 as [->|Hd0].
    + assert (k0 = k) as -> by by apply Huniq.
      rewrite IHout.
      * unfold b2. rewrite (proj2 Hcond Hcap). apply cell_paint_elem.
        -- apply elem_of_positions. exists (j - 1)%nat. split; [lia|].
           replace (Z.of_nat (j - 1)) with (Z.of_nat j - 1) by lia.
           f_equal; lia.
        -- rewrite Hag by (by left || lia).
           destruct Hcap as (_ & Hr & _). destruct (Hr j Hj) as [_ ->]. done.
      * intros (d' & k' & j' & Hd' & _ & Hj' & E1 & E2).
        apply (rays_disjoint d' d j' j); [by apply Hds; right|done| |lia|lia|].
        -- intros ->. done.
        -- f_equal; lia.
    + apply IHin. exists d0, k0, j. split_and!; (done || lia).
  - intros Hnot. rewrite IHout.
    + unfold b2. destruct cond eqn:Ec; [|done].
      apply cell_paint_not_elem.
      intros (i & Hi & [= -> ->])%elem_of_positions.
      apply Hnot. exists d, k, (i + 1)%nat.
      split_and!; [by left|by apply Hcond|lia|lia|lia|lia].
    + intros (d' & k' & j' & Hd' & Hrest). apply Hnot.
      exists d', k', j'. split; [by right|done].
Qed.

Lemma captures_len_set_cell size b row col player d k v :
  d ∈ DIRECTIONS →
  captures_len size (set_cell b row col v) row col player d k
  ↔ captures_len size b row col player d k.
Proof.
  intros Hd.
  assert (∀ j : nat, (1 ≤ j)%nat →
    cell (set_cell b row col v) (row + Z.of_nat j * d.1) (col + Z.of_nat j * d.2)
    = cell b (row + Z.of_nat j * d.1) (col + Z.of_nat j * d.2)) as Hne.
  { intros j Hj. apply cell_set_cell_ne. intros [= Hr Hc].
    destruct (direction_nonzero d j Hd Hj); lia. }
  unfold captures_len. rewrite Hne by lia.
  split; intros (Hk & Hrun & Hin & Hp); split_and!; try done;
    intros j Hj; specialize (Hrun j Hj);
    [rewrite Hne in Hrun by lia|rewrite Hne by lia]; done.
Qed.

Lemma bracketed_not_origin size b row col player :
  ¬ bracketed size b row col player row col.
Proof.
  intros (d & k & j & Hd & _ & Hj & Hr & Hc).
  destruct (direction_nonzero d j Hd ltac:(lia)); lia.
Qed.

Lemma place_piece_legal g row col player :
  (row, col) ∈ valid_moves (size g) (board g) player →
  place_piece g row col player
  = (true,
     {| size := size g;
        board := move_board (size g) (board g) row col player;
        current_player := current_player g;
        last_placed_move := Some (row, col);
        game_over := game_over g;
        opponent_type := opponent_type g;
        ai_depth := ai_depth g;
        player_color := player_color g;
        ai_player := ai_player g;
        dynamic_depth := dynamic_depth g;
        move_history := move_history g ++
          [ {| h_board := move_board (size g) (board g) row col player;
               h_current_player := current_player g |} ];
        move_log := move_log g ++ [ (player, (row, col)) ];
        position_weights := position_weights g;
        transposition_table := transposition_table g |}).
Proof.
  intros (Hin & He & Hc)%elem_of_valid_moves.
  assert (can_flip (size g) (board g) row col player = true) as Hf
    by by apply can_flip_true.
  unfold place_piece. rewrite Hin, Hf. cbn [negb orb].
  by rewrite copy_board_id.
Qed.

(** The cells of the board after a move. *)
Lemma move_board_exact size b row col player r c :
  in_bounds size row col = true → is_Some (cell b row col) →
  ((r, c) = (row, col) ∨ bracketed size b row col player r c →
   cell (move_board size b row col player) r c = Some player)
  ∧ (¬ ((r, c) = (row, col) ∨ bracketed size b row col player r c) →
     cell (move_board size b row col player) r c = cell b r c).
Proof.
  intros Hin He. unfold move_board.
  set (b0 := set_cell b row col player).
  assert (∀ r c, bracketed size b0 row col player r c
                 ↔ bracketed size b row col player r c) as Hbr.
  { intros r' c'. unfold bracketed, bracketed_in.
    split; intros (d & k & j & Hd & Hcap & Hrest); exists d, k, j;
      (split; [done|]); (split; [|done]);
      by apply (captures_len_set_cell size b row col player d k player). }
  destruct (flip_dirs_exact size row col player b0 DIRECTIONS b0
              NoDup_DIRECTIONS ltac:(done) Hin ltac:(done) r c)
    as [Hyes Hno].
  fold (bracketed size b0 row col player r c) in Hyes, Hno.
  unfold flip_discs. rewrite Hbr in Hyes, Hno. split.
  - intros [[= -> ->]|Hb]; [|by apply Hyes].
    rewrite Hno by apply bracketed_not_origin.
    by apply cell_set_cell_eq.
  - intros Hnot. rewrite Hno by tauto.
    apply cell_set_cell_ne. intros [= <- <-]. tauto.
Qed.

(** X1.  A legal move changes the board in exactly one way: the cell
    played and every bracketed opponent disc (each disc of a run that
    starts next to the cell and is closed by a disc of the mover, in any
    of the eight directions) hold the mover's colour afterwards, and every
    other cell holds what it held before. *)
Theorem place_piece_board_exact (g : OthelloGame) (row col player r c : Z) :
  wf_board (size g) (board g) = true →
  (row, col) ∈ valid_moves (size g) (board g) player →
  let b' := board (place_piece g row col player).2 in
  ((r, c) = (row, col) ∨ bracketed (size g) (board g) row col player r c →
   cell b' r c = Some player)
  ∧ (¬ ((r, c) = (row, col)
        ∨ bracketed (size g) (board g) row col player r c) →
     cell b' r c = cell (board g) r c).
Proof.
  intros _ Hm. rewrite (place_piece_legal g row col player Hm).
  cbn [snd board].
  apply elem_of_valid_moves in Hm as (Hin & He & _).
  apply move_board_exact; [done|]. by rewrite He.
Qed.

Lemma place_piece_board_exact_witness :
  let g := new_game 8 "human" "easy" "B" false in
  let b' := board (place_piece g 2 3 BLACK).2 in
  ((3, 3) = (2, 3) ∨ bracketed (size g) (board g) 2 3 BLACK 3 3 →
   cell b' 3 3 = Some BLACK)
  ∧ (¬ ((3, 3) = (2, 3) ∨ bracketed (size g) (board g) 2 3 BLACK 3 3) →
     cell b' 3 3 = cell (board g) 3 3).
Proof.
  intros g. apply (place_piece_board_exact g 2 3 BLACK 3 3).
  - reflexivity.
  - apply (bool_decide_unpack _). vm_compute. exact I.
Defined.

(** ** Exact disc counts *)

Lemma NoDup_range n : NoDup (range n).
Proof.
  unfold range. apply NoDup_fmap_2; [|apply NoDup_seq].
  intros x y. apply Nat2Z.inj.
Qed.

Lemma NoDup_cells n : NoDup (cells n).
Proof.
  unfold cells. apply NoDup_bind; [| |apply NoDup_range].
  - intros r1 r2 [r c] _ _ H1 H2.
    apply list_elem_of_bind in H1 as (c1 & [= -> ->]%list_elem_of_singleton & _).
    apply list_elem_of_bind in H2 as (c2 & [= -> _]%list_elem_of_singleton & _).
    done.
  - intros r _. apply NoDup_bind; [| |apply NoDup_range].
    + intros c1 c2 [r' c'] _ _ [= _ ->]%list_elem_of_singleton
        [= _ ->]%list_elem_of_singleton. done.
    + intros c _. apply NoDup_singleton.
Qed.

Lemma filter_length_one_more {A} (f f' : A → bool) (l : list A) (x : A) :
  NoDup l → x ∈ l → f x = false → f' x = true →
  (∀ y, y ∈ l → y ≠ x → f' y = f y) →
  length (List.filter f' l) = S (length (List.filter f l)).
Proof.
  induction l as [|y l IH]; intros Hnd Hx Hf Hf' Hrest;
    [by apply elem_of_nil in Hx|].
  apply NoDup_cons in Hnd as [Hy Hnd]. cbn [List.filter].
  apply elem_of_cons in Hx as [<-|Hx].
  - rewrite Hf, Hf'. cbn [length]. f_equal. f_equal.
    apply filter_ext_elem. intros z Hz. apply Hrest; [by right|].
    intros ->. done.
  - rewrite (Hrest y) by (by left || intros ->; done).
    assert (length (List.filter f' l) = S (length (List.filter f l))) as E.
    { apply IH; [done..|]. intros z Hz Hne. apply Hrest; [by right|done]. }
    destruct (f y); cbn [length]; lia.
Qed.

Lemma total_count_discs g :
  total_count g = Z.of_nat (count_discs (size g) (board g)).
Proof. apply total_count_filter. Qed.

Lemma disc_count_cells g player :
  player = BLACK ∨ player = WHITE →
  disc_count g player = Z.of_nat (count_cells (size g) (board g) player).
Proof. apply disc_count_filter. Qed.

Lemma count_discs_cells size b :
  count_discs size b = (count_cells size b BLACK + count_cells size b WHITE)%nat.
Proof.
  unfold count_discs, count_cells.
  rewrite <- (filter_length_or (λ '(r, c), cell_is b r c BLACK)
                              (λ '(r, c), cell_is b r c WHITE)).
  - f_equal. apply List.filter_ext. by intros [r c].
  - intros [r c] _ Hb%cell_is_true Hw%cell_is_true. rewrite Hb in Hw.
    discriminate.
Qed.

Lemma bracketed_opponent size b row col player r c :
  bracketed size b row col player r c → cell b r c = Some (opponent player).
Proof.
  intros (d' & k & j & _ & (_ & Hrun & _) & Hj & -> & ->).
  by destruct (Hrun j Hj).
Qed.

(** The counts after a move. *)
Lemma move_board_counts size b row col player :
  player = BLACK ∨ player = WHITE →
  (row, col) ∈ valid_moves size b player →
  count_discs size (move_board size b row col player) = S (count_discs size b)
  ∧ (count_cells size (move_board size b row col player) (opponent player)
     < count_cells size b (opponent player))%nat.
Proof.
  intros Hp (Hin & He & d & Hd & k & Hcap)%elem_of_valid_moves.
  assert (captures_len size b row col player d k) as Hcap' by done.
  set (b' := move_board size b row col player).
  assert (∀ r c,
    ((r, c) = (row, col) ∨ bracketed size b row col player r c →
     cell b' r c = Some player)
    ∧ (¬ ((r, c) = (row, col) ∨ bracketed size b row col player r c) →
       cell b' r c = cell b r c)) as Hex.
  { intros r c. apply move_board_exact; [done|]. by rewrite He. }
  split.
  - unfold count_discs.
    apply (filter_length_one_more _ _ _ (row, col));
      [apply NoDup_cells|by apply elem_of_cells| | |].
    + rewrite orb_false_iff, !cell_is_false, He. split; discriminate.
    + rewrite orb_true_iff, !cell_is_true, (proj1 (Hex row col)) by by left.
      destruct Hp as [-> | ->]; [by left|by right].
    + intros [r c] _ Hne.
      match goal with |- ?G => destruct (decide G) as [|Hng]; [done|] end.
      exfalso.
      assert (¬ ((r, c) = (row, col)
                 ∨ bracketed size b row col player r c)) as Hn.
      { intros [?|Hb]; [done|]. apply Hng.
        unfold cell_is. rewrite (proj1 (Hex r c)) by by right.
        rewrite (bracketed_opponent _ _ _ _ _ _ _ Hb).
        destruct Hp as [-> | ->]; done. }
      apply Hng. unfold cell_is. by rewrite (proj2 (Hex r c) Hn).
  - destruct Hcap as (Hk & Hrun & _).
    destruct (Hrun 1%nat ltac:(lia)) as [Hin1 Hc1].
    apply (filter_length_lt _ _ _
      (row + Z.of_nat 1 * d.1, col + Z.of_nat 1 * d.2)).
    + intros [r c] _ H%cell_is_true. apply cell_is_true.
      assert (¬ ((r, c) = (row, col)
                 ∨ bracketed size b row col player r c)) as Hn.
      { intros Hy. rewrite (proj1 (Hex r c) Hy) in H. injection H as H.
        by apply (opponent_ne player). }
      by rewrite <- (proj2 (Hex r c) Hn).
    + by apply elem_of_cells.
    + apply cell_is_false. rewrite (proj1 (Hex _ _)).
      * intros [= H]. by apply (opponent_ne player).
      * right. exists d, k, 1%nat.
        split; [done|]. split; [done|]. split; [lia|done].
    + by apply cell_is_true.
Qed.

(** X2.  A legal move adds exactly one disc to the board, and the opponent
    loses at least one disc: what the mover gains beyond the disc played
    is what the opponent loses. *)
Theorem place_piece_adds_one_disc (g : OthelloGame) (row col player : Z) :
  wf_board (size g) (board g) = true →
  player = BLACK ∨ player = WHITE →
  (row, col) ∈ valid_moves (size g) (board g) player →
  let g' := (place_piece g row col player).2 in
  total_count g' = total_count g + 1
  ∧ disc_count g' (opponent player) < disc_count g (opponent player)
  ∧ disc_count g' player - disc_count g player
    = 1 + (disc_count g (opponent player) - disc_count g' (opponent player)).
Proof.
  intros Hwf Hp Hm g'.
  assert (opponent player = BLACK ∨ opponent player = WHITE) as Hop
    by (destruct Hp as [-> | ->]; [by right|by left]).
  destruct (move_board_counts (size g) (board g) row col player Hp Hm)
    as [Htot Hopp].
  assert (size g' = size g ∧ board g'
          = move_board (size g) (board g) row col player) as [Hsz Hb].
  { unfold g'. by rewrite (place_piece_legal g row col player Hm). }
  assert (total_count g' = total_count g + 1) as Ht.
  { rewrite !total_count_discs, Hsz, Hb, Htot. lia. }
  assert (disc_count g' (opponent player) < disc_count g (opponent player))
    as Ho.
  { rewrite !disc_count_cells, Hsz, Hb by done. lia. }
  split_and!; [done..|].
  unfold total_count in Ht. unfold disc_count in *.
  destruct Hp as [-> | ->]; simpl in *; lia.
Qed.

Lemma place_piece_adds_one_disc_witness :
  let g := new_game 8 "human" "easy" "B" false in
  let g' := (place_piece g 2 3 BLACK).2 in
  total_count g' = total_count g + 1
  ∧ disc_count g' (opponent BLACK) < disc_count g (opponent BLACK)
  ∧ disc_count g' BLACK - disc_count g BLACK
    = 1 + (disc_count g (opponent BLACK) - disc_count g' (opponent BLACK)).
Proof.
  intros g. apply (place_piece_adds_one_disc g 2 3 BLACK).
  - reflexivity.
  - by left.
  - apply (bool_decide_unpack _). vm_compute. exact I.
Defined.

(** ** The two copies of the rules *)

(** X3.  The rules that the search applies to a snapshot are the rules of
    the game: on every board the snapshot functions return the same legal
    moves, the same answer to "has a move" and the same terminal test as
    the functions that read the game's own board. *)
Theorem snapshot_rules_agree (size : nat) (b : Board) (player : Z) :
  wf_board size b = true →
  (∀ r c, in_bounds size r c = true →
          is_valid_move_in_state size b r c player = can_flip size b r c player)
  ∧ get_valid_moves_in_state size b player = valid_moves size b player
  ∧ has_valid_moves_in_state size b player = has_valid_moves size b player
  ∧ is_terminal_state size b = is_game_over size b.
Proof.
  intros _.
  assert (∀ p, has_valid_moves_in_state size b p = has_valid_moves size b p)
    as Hhas.
  { intros p. unfold has_valid_moves_in_state, has_valid_moves.
    rewrite <- get_valid_moves_in_state_valid_moves.
    unfold get_valid_moves_in_state.
    induction (cells size) as [|[r c] l IH]; [done|]. simpl.
    destruct (is_valid_move_in_state size b r c p); [done|]. by rewrite IH. }
  split_and!.
  - intros r c Hin. by apply is_valid_move_in_state_can_flip.
  - apply get_valid_moves_in_state_valid_moves.
  - apply Hhas.
  - unfold is_terminal_state, is_game_over. rewrite !Hhas.
    unfold has_valid_moves.
    by destruct (0 <? length (valid_moves size b BLACK))%nat,
                (0 <? length (valid_moves size b WHITE))%nat.
Qed.

Lemma snapshot_rules_agree_witness :
  let b := initial_board 8 in
  (∀ r c, in_bounds 8 r c = true →
          is_valid_move_in_state 8 b r c BLACK = can_flip 8 b r c BLACK)
  ∧ get_valid_moves_in_state 8 b BLACK = valid_moves 8 b BLACK
  ∧ has_valid_moves_in_state 8 b BLACK = has_valid_moves 8 b BLACK
  ∧ is_terminal_state 8 b = is_game_over 8 b.
Proof. intros b. apply (snapshot_rules_agree 8 b BLACK). reflexivity. Defined.

(** X4.  The move that the search plays on a copy is the move that the
    game plays: for a legal move, [make_move_in_state] on a copy of the
    board yields the board that [place_piece] leaves in the game. *)
Theorem search_move_is_game_move (g : OthelloGame) (row col player : Z) :
  wf_board (size g) (board g) = true →
  (row, col) ∈ valid_moves (size g) (board g) player →
  make_move_in_state (size g) (copy_board (board g)) row col player
  = board (place_piece g row col player).2.
Proof.
  intros _ Hm.
  pose proof Hm as (Hin & He & Hc)%elem_of_valid_moves.
  assert (can_flip (size g) (board g) row col player = true) as Hf
    by by apply can_flip_true.
  unfold place_piece. rewrite Hin, Hf. cbn [negb orb snd board].
  rewrite copy_board_id. by apply make_move_in_state_flip_discs.
Qed.

Lemma search_move_is_game_move_witness :
  let g := new_game 8 "human" "easy" "B" false in
  make_move_in_state (size g) (copy_board (board g)) 2 3 BLACK
  = board (place_piece g 2 3 BLACK).2.
Proof.
  intros g. apply (search_move_is_game_move g 2 3 BLACK).
  - reflexivity.
  - apply (bool_decide_unpack _). vm_compute. exact I.
Defined.

(** X5.  A legal move needs an Empty cell and discs of both colours: on a
    board without a Black disc, without a White disc, or without an Empty
    cell on the grid, neither side has a legal move and the game is
    over. *)
Theorem game_over_without_both_colours (size : nat) (b : Board) :
  wf_board size b = true →
  (∀ r c, cell b r c ≠ Some BLACK)
  ∨ (∀ r c, cell b r c ≠ Some WHITE)
  ∨ (∀ r c, in_bounds size r c = true → cell b r c ≠ Some EMPTY) →
  valid_moves size b BLACK = [] ∧ valid_moves size b WHITE = []
  ∧ is_game_over size b = true ∧ is_terminal_state size b = true.
Proof.
  intros _ H.
  assert (∀ p, p = BLACK ∨ p = WHITE → valid_moves size b p = []) as Hnone.
  { intros p Hp. apply elem_of_nil_inv. intros [r c] Hm.
    apply elem_of_valid_moves in Hm
      as (Hin & He & d & Hd & k & Hk & Hrun & _ & Hclose).
    destruct (Hrun 1%nat ltac:(lia)) as [_ Hopp].
    destruct H as [H|[H|H]].
    - destruct Hp as [-> | ->]; [by eapply H|by eapply H].
    - destruct Hp as [-> | ->]; [by eapply H|by eapply H].
    - by eapply H. }
  assert (valid_moves size b BLACK = []) as Eb by (apply Hnone; by left).
  assert (valid_moves size b WHITE = []) as Ew by (apply Hnone; by right).
  split_and!; [done..| |].
  - unfold is_game_over. by rewrite Eb, Ew.
  - unfold is_terminal_state, has_valid_moves_in_state.
    apply andb_true_iff. rewrite !negb_true_iff, !existsb_false_filter.
    fold (get_valid_moves_in_state size b BLACK).
    fold (get_valid_moves_in_state size b WHITE).
    by rewrite !get_valid_moves_in_state_valid_moves.
Qed.

Lemma cell_Forall (P : Z → Prop) (b : Board) r c v :
  Forall (Forall P) b → cell b r c = Some v → P v.
Proof.
  intros Hb. unfold cell. destruct (_ && _); [|done].
  destruct (b !! Z.to_nat r) as [row|] eqn:Er; simpl; [|done].
  intros Hc. eapply Forall_lookup_1 in Hb; [|done].
  by eapply Forall_lookup_1 in Hb.
Qed.

Lemma game_over_without_both_colours_witness :
  let b := set_cell (empty_board 6) 2 2 BLACK in
  valid_moves 6 b BLACK = [] ∧ valid_moves 6 b WHITE = []
  ∧ is_game_over 6 b = true ∧ is_terminal_state 6 b = true.
Proof.
  intros b. apply (game_over_without_both_colours 6 b); [reflexivity|].
  right. left. intros r c Hc.
  apply (cell_Forall (λ v, v ≠ WHITE) b r c WHITE) in Hc; [done|].
  apply (bool_decide_unpack _). vm_compute. exact I.
Defined.

(** ** Move ordering *)

Lemma insert_move_of_weight W w cmp m l :
  (∀ x, cmp x m < 0 → weight W x.1 x.2 ≠ weight W m.1 m.2) →
  of_weight W w (insert_move cmp m l) = of_weight W w (m :: l).
Proof.
  intros Hcmp. unfold of_weight.
  induction l as [|x l IH]; [done|]. cbn [insert_move].
  destruct (Z.ltb_spec (cmp x m) 0) as [Hlt|]; [|done].
  cbn [List.filter] in *. rewrite IH.
  specialize (Hcmp x Hlt).
  destruct (Z.eqb_spec (weight W x.1 x.2) w), (Z.eqb_spec (weight W m.1 m.2) w);
    (done || congruence).
Qed.

Lemma insert_move_sorted (R : Z * Z → Z * Z → Prop) cmp m l :
  (∀ x y z, R x y → R y z → R x z) →
  (∀ x, cmp x m < 0 → R x m) → (∀ x, ¬ cmp x m < 0 → R m x) →
  StronglySorted R l → StronglySorted R (insert_move cmp m l).
Proof.
  intros Htrans Hlt Hge Hs. induction Hs as [|x l Hs IH Hall]; simpl.
  - by repeat constructor.
  - destruct (Z.ltb_spec (cmp x m) 0) as [Hc|Hc].
    + constructor; [done|].
      rewrite Forall_forall. intros y Hy.
      apply (elem_of_Permutation_proper _ _ _ (insert_move_perm cmp m l)) in Hy.
      apply elem_of_cons in Hy as [->|Hy]; [by apply Hlt|].
      by eapply Forall_forall in Hall.
    + assert (R m x) as Hmx by (apply Hge; lia).
      constructor; [by constructor|]. constructor; [done|].
      eapply Forall_impl; [done|]. intros y Hy. by eapply Htrans.
Qed.

(** X6.  [sort] with the two weight comparators only reorders the moves,
    puts them in descending (ascending) order of position weight, and is
    stable: moves of equal weight keep the order in which the board scan
    found them. *)
Theorem sort_moves_by_weight (W : Board) (l : list (Z * Z)) :
  let desc := sort_moves (by_weight_desc W) l in
  let asc := sort_moves (by_weight_asc W) l in
  desc ≡ₚ l ∧ asc ≡ₚ l
  ∧ StronglySorted (λ m1 m2, weight W m2.1 m2.2 ≤ weight W m1.1 m1.2) desc
  ∧ StronglySorted (λ m1 m2, weight W m1.1 m1.2 ≤ weight W m2.1 m2.2) asc
  ∧ (∀ w, of_weight W w desc = of_weight W w l)
  ∧ (∀ w, of_weight W w asc = of_weight W w l).
Proof.
  intros desc asc. split_and!; try apply sort_moves_perm.
  - unfold desc, sort_moves. induction l as [|m l IH]; simpl; [constructor|].
    apply insert_move_sorted; [intros; lia| | |done];
      unfold by_weight_desc; intros; lia.
  - unfold asc, sort_moves. induction l as [|m l IH]; simpl; [constructor|].
    apply insert_move_sorted; [intros; lia| | |done];
      unfold by_weight_asc; intros; lia.
  - intros w. unfold desc, sort_moves.
    induction l as [|m l IH]; [done|]. cbn [foldr].
    rewrite insert_move_of_weight by (unfold by_weight_desc; intros; lia).
    unfold of_weight in *. cbn [List.filter]. by rewrite IH.
  - intros w. unfold asc, sort_moves.
    induction l as [|m l IH]; [done|]. cbn [foldr].
    rewrite insert_move_of_weight by (unfold by_weight_asc; intros; lia).
    unfold of_weight in *. cbn [List.filter]. by rewrite IH.
Qed.

(** ** The transposition table *)

Section TableFacts.
Variables (size : nat) (W : Board).

Lemma minimax_stores depth tbl board maximizing_player alpha beta player :
  (minimax size W depth tbl board maximizing_player alpha beta player).2
    !! hash_board board
  = Some (minimax size W depth tbl board maximizing_player
                  alpha beta player).1.
Proof.
  destruct depth as [|depth]; cbn [minimax].
  - destruct (tbl !! hash_board board) eqn:E; cbn [fst snd];
      [done|apply lookup_insert_eq].
  - destruct (tbl !! hash_board board) eqn:E; cbn [fst snd]; [done|].
    destruct (is_terminal_state size board); [apply lookup_insert_eq|].
    destruct (length _ =? 0)%nat.
    { destruct (minimax _ _ _ _ _ _ _ _ _) as [v tbl'].
      apply lookup_insert_eq. }
    destruct maximizing_player.
    + destruct (max_loop _ _ _ _ _ _ _ _ _) as [v tbl'].
      apply lookup_insert_eq.
    + destruct (min_loop _ _ _ _ _ _ _ _ _) as [v tbl'].
      apply lookup_insert_eq.
Qed.

Lemma minimax_cached depth tbl board maximizing_player alpha beta player v :
  tbl !! hash_board board = Some v →
  minimax size W depth tbl board maximizing_player alpha beta player = (v, tbl).
Proof. intros E. destruct depth; cbn [minimax]; by rewrite E. Qed.
End TableFacts.

(** X7.  When [minimax] returns, the table holds the returned score under
    the board's key; from then on every call for that board returns this
    score and leaves the table as it is, whatever depth, side to move,
    window and root player it is given. *)
Theorem minimax_memoizes (size : nat) (W : Board) (depth : nat) (tbl : table)
    (board : Board) (maximizing_player : bool) (alpha beta : num) (player : Z) :
  let r := minimax size W depth tbl board maximizing_player alpha beta player in
  r.2 !! hash_board board = Some r.1
  ∧ ∀ depth' maximizing_player' alpha' beta' player',
      minimax size W depth' r.2 board maximizing_player' alpha' beta' player'
      = (r.1, r.2).
Proof.
  intros r. split; [apply minimax_stores|].
  intros. apply minimax_cached, minimax_stores.
Qed.

Section TableKeys.
Variables (size : nat) (W : Board).




End TableKeys.


(** ** Search depth *)

(** X9.  [adjust_depth] returns 2, 4 or 6, and never a smaller depth for a
    board with more occupied cells. *)
Theorem adjust_depth_range_monotone (size : nat) (b b' : Board) :
  (adjust_depth size b = 2 ∨ adjust_depth size b = 4
   ∨ adjust_depth size b = 6)%nat
  ∧ ((occupied size b ≤ occupied size b')%nat →
     (adjust_depth size b ≤ adjust_depth size b')%nat).
Proof.
  unfold adjust_depth, occupied.
  set (n := length (List.filter _ _)). set (n' := length (List.filter _ _)).
  split.
  - repeat case_match; auto.
  - intros Hle.
    destruct (Z.of_nat size * Z.of_nat size =? 0); [done|].
    repeat match goal with
    | |- context [?x <? ?y] => destruct (Z.ltb_spec x y)
    end; lia.
Qed.

(** ** The key of a board *)

Lemma string_cons_app a (x y : string) :
  String a x +:+ y = String a (x +:+ y).
Proof. reflexivity. Qed.

Lemma string_app_nil_r (x : string) : x +:+ "" = x.
Proof.
  induction x as [|a x IH]; [done|]. by rewrite string_cons_app, IH.
Qed.

Lemma string_concat_cons (x : string) (xs : list string) :
  String.concat "" (x :: xs) = x +:+ String.concat "" xs.
Proof.
  destruct xs as [|y ys]; [|done].
  cbn [String.concat]. by rewrite string_app_nil_r.
Qed.

Lemma string_app_assoc (s1 s2 s3 : string) :
  (s1 +:+ s2) +:+ s3 = s1 +:+ (s2 +:+ s3).
Proof.
  induction s1 as [|a s1 IH]; [done|]. by rewrite !string_cons_app, IH.
Qed.

Lemma digits_app l1 l2 : digits (l1 ++ l2) = digits l1 +:+ digits l2.
Proof.
  induction l1 as [|x l1 IH]; [done|]. cbn [app digits foldr].
  fold (digits (l1 ++ l2)). fold (digits l1).
  by rewrite IH, string_app_assoc.
Qed.

Lemma row_digits (r : list Z) : String.concat "" (pretty <$> r) = digits r.
Proof.
  induction r as [|x r IH]; [done|].
  rewrite fmap_cons, string_concat_cons, IH. done.
Qed.

(** The key is the digits of all cells in row-major order. *)
Lemma hash_board_digits (b : Board) : hash_board b = digits (concat b).
Proof.
  unfold hash_board. induction b as [|r b IH]; [done|].
  rewrite fmap_cons, string_concat_cons, IH, row_digits. simpl.
  by rewrite digits_app.
Qed.

Lemma digits_inj l1 l2 :
  Forall wf_cell l1 → Forall wf_cell l2 → digits l1 = digits l2 → l1 = l2.
Proof.
  intros H1. revert l2. induction H1 as [|x l1 Hx H1 IH];
    intros l2 H2 E; destruct H2 as [|y l2 Hy H2].
  - done.
  - exfalso. destruct Hy as [->|[->| ->]]; discriminate E.
  - exfalso. destruct Hx as [->|[->| ->]]; discriminate E.
  - destruct Hx as [->|[->| ->]], Hy as [->|[->| ->]];
      try discriminate E; injection E as E; f_equal; by apply IH.
Qed.

Lemma concat_rows_inj n (b1 b2 : Board) :
  (0 < n)%nat →
  Forall (λ r, length r = n) b1 → Forall (λ r, length r = n) b2 →
  concat b1 = concat b2 → b1 = b2.
Proof.
  intros Hn H1. revert b2. induction H1 as [|r1 b1 Hr1 H1 IH];
    intros b2 H2 E; destruct H2 as [|r2 b2 Hr2 H2]; simpl in E.
  - done.
  - destruct r2; [simpl in *; lia|done].
  - destruct r1; [simpl in *; lia|done].
  - apply app_inj_1 in E as [-> E]; [|congruence]. f_equal. by apply IH.
Qed.

Lemma wf_board_concat size b :
  wf_board size b = true →
  Forall wf_cell (concat b) ∧ length (concat b) = (size * size)%nat.
Proof.
  intros [Hlen Hrows]%wf_board_spec. split.
  - apply Forall_concat. eapply Forall_impl; [done|]. by intros r [_ ?].
  - rewrite <- Hlen at 1. clear Hlen.
    induction Hrows as [|r b [Hr _] _ IH]; [done|].
    simpl. rewrite length_app, IH, Hr. done.
Qed.

(** X10.  Well-formed boards get different keys: two boards of cells in
    {Empty, Black, White}, each square, with the same [hash_board] string
    are the same board, so a table entry found under a board's key was
    stored for that very board. *)
Theorem hash_board_injective (n1 n2 : nat) (b1 b2 : Board) :
  wf_board n1 b1 = true → wf_board n2 b2 = true →
  hash_board b1 = hash_board b2 → b1 = b2.
Proof.
  intros Hw1 Hw2 E. rewrite !hash_board_digits in E.
  destruct (wf_board_concat n1 b1 Hw1) as [Hc1 Hl1].
  destruct (wf_board_concat n2 b2 Hw2) as [Hc2 Hl2].
  apply digits_inj in E; [|done..].
  assert (n1 = n2) as <- by (rewrite E in Hl1; nia).
  apply wf_board_spec in Hw1 as [Hlen1 Hr1], Hw2 as [Hlen2 Hr2].
  destruct n1 as [|n].
  - destruct b1, b2; done.
  - apply (concat_rows_inj (S n)); [lia| | |done];
      (eapply Forall_impl; [done|]; by intros r [? _]).
Qed.

Lemma hash_board_injective_witness :
  initial_board 6 = copy_board (initial_board 6).
Proof.
  apply (hash_board_injective 6 6); reflexivity.
Defined.

(** The rule of well-formedness is needed: cells outside the three values
    can make different boards share a key. *)
Example hash_board_collision :
  hash_board [[1; 0]; [0; 0]] = hash_board [[10]; [0; 0]].
Proof. reflexivity. Qed.

(** ** Invariants of the game object *)

Lemma cell_empty_board n r c :
  in_bounds n r c = true → cell (empty_board n) r c = Some EMPTY.
Proof.
  intros Hin. unfold in_bounds in Hin.
  repeat (apply andb_true_iff in Hin as [Hin ?]).
  unfold cell, empty_board.
  destruct (Z.leb_spec 0 r), (Z.leb_spec 0 c); try lia. cbn [andb].
  unfold range. rewrite list_lookup_fmap, list_lookup_fmap.
  rewrite lookup_seq_lt by lia. cbn.
  rewrite list_lookup_fmap, list_lookup_fmap.
  by rewrite lookup_seq_lt by lia.
Qed.

Lemma count_discs_empty_board n : count_discs n (empty_board n) = 0%nat.
Proof.
  unfold count_discs.
  induction (cells n) as [|[r c] l IH]; [done|]. cbn [List.filter].
  assert (cell_is (empty_board n) r c BLACK = false
          ∧ cell_is (empty_board n) r c WHITE = false) as [-> ->]; [|done].
  rewrite !cell_is_false.
  assert (Forall (Forall (λ v, v = EMPTY)) (empty_board n)) as Hall.
  { unfold empty_board. apply Forall_fmap, Forall_true. intros x. simpl.
    apply Forall_fmap, Forall_true. done. }
  split; intros Hc;
    apply (cell_Forall (λ v, v = EMPTY) _ _ _ _ Hall) in Hc; discriminate.
Qed.

Lemma count_discs_set_cell n b r c v :
  in_bounds n r c = true → cell b r c = Some EMPTY →
  v = BLACK ∨ v = WHITE →
  count_discs n (set_cell b r c v) = S (count_discs n b).
Proof.
  intros Hin He Hv. unfold count_discs.
  apply (filter_length_one_more _ _ _ (r, c));
    [apply NoDup_cells|by apply elem_of_cells| | |].
  - rewrite orb_false_iff, !cell_is_false, He. split; discriminate.
  - rewrite orb_true_iff, !cell_is_true, cell_set_cell_eq by by rewrite He.
    destruct Hv as [-> | ->]; [by left|by right].
  - intros [r' c'] _ Hne. unfold cell_is.
    rewrite cell_set_cell_ne; [done|congruence].
Qed.

Lemma count_discs_initial_board n :
  (2 ≤ n)%nat → count_discs n (initial_board n) = 4%nat.
Proof.
  intros Hn. unfold initial_board.
  set (mid := Z.of_nat (n / 2)).
  assert (1 ≤ mid < Z.of_nat n) as Hmid.
  { unfold mid. split.
    - apply (Nat2Z.inj_le 1). apply Nat.div_le_lower_bound; lia.
    - apply Nat2Z.inj_lt. apply Nat.div_lt; lia. }
  assert (∀ r c, in_bounds n r c = true ↔
                 0 ≤ r < Z.of_nat n ∧ 0 ≤ c < Z.of_nat n) as Hb.
  { intros r c. unfold in_bounds. rewrite !andb_true_iff.
    rewrite !Z.leb_le, !Z.ltb_lt. lia. }
  assert (∀ r c, 0 ≤ r < Z.of_nat n → 0 ≤ c < Z.of_nat n →
                 cell (empty_board n) r c = Some EMPTY) as He
    by (intros; apply cell_empty_board, Hb; lia).
  rewrite count_discs_set_cell; [|apply Hb; lia| |by left].
  2: { rewrite !cell_set_cell_ne by (intros [=]; lia). apply He; lia. }
  rewrite count_discs_set_cell; [|apply Hb; lia| |by left].
  2: { rewrite !cell_set_cell_ne by (intros [=]; lia). apply He; lia. }
  rewrite count_discs_set_cell; [|apply Hb; lia| |by right].
  2: { rewrite !cell_set_cell_ne by (intros [=]; lia). apply He; lia. }
  rewrite count_discs_set_cell; [|apply Hb; lia| |by right].
  2: { apply He; lia. }
  by rewrite count_discs_empty_board.
Qed.

Lemma length_cells n : length (cells n) = (n * n)%nat.
Proof.
  assert (∀ (l2 : list Z) (r : Z),
            length (l2 ≫= λ c : Z, [(r, c)]) = length l2) as Hin.
  { intros l2 r. induction l2 as [|c l2 IH]; [done|]. cbn. by rewrite IH. }
  assert (∀ l1 l2 : list Z,
            length (l1 ≫= λ r : Z, l2 ≫= λ c : Z, [(r, c)])
            = (length l1 * length l2)%nat) as Hout.
  { intros l1 l2. induction l1 as [|r l1 IH]; [done|].
    cbn [mbind list_bind]. rewrite length_app. cbn [mbind] in IH, Hin.
    rewrite IH, Hin. simpl. lia. }
  unfold cells. rewrite Hout. unfold range.
  by rewrite length_fmap, length_seq.
Qed.

Lemma count_discs_le n b : (count_discs n b ≤ n * n)%nat.
Proof.
  unfold count_discs. rewrite <- (length_cells n).
  apply List.filter_length_le.
Qed.

Lemma place_piece_cases g row col player :
  place_piece g row col player = (false, g)
  ∨ (row, col) ∈ valid_moves (size g) (board g) player.
Proof.
  unfold place_piece.
  destruct (in_bounds (size g) row col) eqn:Hin; [|by left].
  destruct (can_flip (size g) (board g) row col player) eqn:Hf; [|by left].
  right. apply can_flip_true in Hf as [He Hc]; [|done].
  by apply elem_of_valid_moves.
Qed.

Lemma wf_game_reset g : wf_game g → wf_game (reset g).
Proof.
  intros (Hb & HW & Hd & Ht & Hh & Hhs).
  assert (wf_board (size g) (initial_board (size g)) = true) as Hi.
  { unfold initial_board.
    repeat (apply wf_board_set_cell; [|tauto]).
    apply wf_board_empty_board. }
  unfold wf_game, reset.
  cbn [size board position_weights ai_depth transposition_table move_history].
  split_and!; [done..|apply table_finite_empty| |].
  - eexists. split; [done|]. apply copy_board_id.
  - constructor; [|constructor]. cbn. by rewrite copy_board_id.
Qed.

Lemma wf_game_handle_game_over g : wf_game g → wf_game (handle_game_over g).
Proof. done. Qed.

(** The current board is the last history entry, so it has as many discs
    as that entry. *)
Lemma game_inv_count g :
  game_inv g → count_discs (size g) (board g) = (4 + length (move_log g))%nat.
Proof.
  intros (Hwf & _ & _ & Hlen & Hent).
  destruct Hwf as (_ & _ & _ & _ & (h & Hlast & <-) & _).
  rewrite last_lookup, Hlen in Hlast. cbn [pred] in Hlast.
  by destruct (Hent _ _ Hlast) as [_ ->].
Qed.

Lemma game_inv_new_game n opponent_type ai_difficulty player_color dynamic :
  (2 ≤ n)%nat →
  game_inv (new_game n opponent_type ai_difficulty player_color dynamic).
Proof.
  intros Hn. split; [apply wf_game_new_game|].
  unfold new_game. cbn [size current_player move_history move_log length].
  split_and!; [done|by left|done|].
  intros [|i] h Hh; [|done]. injection Hh as <-. cbn [h_board h_current_player].
  split; [by left|]. rewrite copy_board_id. by apply count_discs_initial_board.
Qed.

Lemma game_inv_reset g : game_inv g → game_inv (reset g).
Proof.
  intros (Hwf & Hn & _). split; [by apply wf_game_reset|].
  unfold reset. cbn [size current_player move_history move_log length].
  split_and!; [done|by left|done|].
  intros [|i] h Hh; [|done]. injection Hh as <-. cbn [h_board h_current_player].
  split; [by left|]. rewrite copy_board_id. by apply count_discs_initial_board.
Qed.

Lemma game_inv_place_piece g row col player :
  game_inv g → player = BLACK ∨ player = WHITE →
  game_inv (place_piece g row col player).2.
Proof.
  intros Hinv Hp.
  destruct (place_piece_cases g row col player) as [->|Hm]; [done|].
  pose proof (game_inv_count g Hinv) as Hcount.
  pose proof (wf_game_place_piece g row col player (proj1 Hinv) Hp) as Hwf'.
  destruct Hinv as (Hwf & Hn & Hcur & Hlen & Hent).
  split; [done|]. clear Hwf'.
  rewrite (place_piece_legal g row col player Hm).
  cbn [snd size current_player move_history move_log].
  split_and!; [done..| |].
  - rewrite !length_app. cbn [length]. lia.
  - intros i h Hh. apply lookup_app_Some in Hh as [Hh|[Hi Hh]]; [by apply Hent|].
    apply list_lookup_singleton_Some in Hh as [Hz <-].
    cbn [h_board h_current_player]. split; [done|].
    destruct (move_board_counts (size g) (board g) row col player Hp Hm)
      as [-> _].
    rewrite Hcount. lia.
Qed.

Lemma game_inv_switch_player g : game_inv g → game_inv (switch_player g).
Proof.
  intros (Hwf & Hn & Hcur & Hlen & Hent). split; [done|].
  cbn [switch_player size current_player move_history move_log].
  split_and!; [done| |done..].
  destruct Hcur as [-> | ->]; [by right|by left].
Qed.

Lemma game_inv_handle_game_over g : game_inv g → game_inv (handle_game_over g).
Proof. done. Qed.

Lemma game_inv_get_best_move g b player :
  game_inv g → game_inv (get_best_move g b player).2.
Proof.
  intros Hinv.
  pose proof (wf_game_get_best_move g b player (proj1 Hinv)) as Hwf'.
  destruct Hinv as (Hwf & Hn & Hcur & Hlen & Hent). split; [done|].
  clear Hwf'. unfold get_best_move. destruct (length _ =? 0)%nat; [done|].
  by destruct (best_loop _ _ _ _ _ _ _ _ _ _ _) as [best_move tbl].
Qed.

Lemma game_inv_undo_move g : game_inv g → game_inv (undo_move g).2.
Proof.
  intros Hinv.
  pose proof (wf_game_undo_move g (proj1 Hinv)) as Hwf'.
  destruct Hinv as (Hwf & Hn & Hcur & Hlen & Hent). split; [done|].
  clear Hwf'. unfold undo_move.
  destruct (1 <? length (move_history g))%nat eqn:El; [|done].
  apply Nat.ltb_lt in El.
  destruct (last (removelast (move_history g))) as [prev|] eqn:Elast; [|done].
  cbn [snd size current_player move_history move_log].
  destruct (move_history g) as [|h0 hs _] using rev_ind; [simpl in El; lia|].
  rewrite length_app in El. cbn [length] in El.
  destruct (move_log g) as [|m0 ms _] using rev_ind;
    [rewrite length_app in Hlen; cbn [length] in Hlen; lia|].
  rewrite !removelast_last in *. rewrite !length_app in Hlen.
  cbn [length] in Hlen.
  assert (∀ i h, hs !! i = Some h →
    (h_current_player h = BLACK ∨ h_current_player h = WHITE)
    ∧ count_discs (size g) (h_board h) = (4 + i)%nat) as Hent'.
  { intros i h Hh. apply Hent. by apply lookup_app_l_Some. }
  split_and!; [done| |lia|done].
  rewrite last_lookup in Elast. by destruct (Hent' _ _ Elast).
Qed.

Lemma reachable_from_game_inv g0 g :
  game_inv g0 → reachable_from g0 g → game_inv g.
Proof.
  intros H0 Hreach.
  induction Hreach;
    eauto using game_inv_place_piece, game_inv_switch_player,
      game_inv_undo_move, game_inv_get_best_move, game_inv_handle_game_over,
      game_inv_reset.
Qed.

Lemma reachable_game_inv g : reachable g → game_inv g.
Proof.
  intros (n & ot & diff & pc & dyn & Hn & _ & Hreach).
  eapply reachable_from_game_inv; [|done]. by apply game_inv_new_game.
Qed.

(** X11.  In every state of a game object (built by the constructor for a
    size of at least 2 and a difficulty of the depth map, and changed by
    its methods in any order) the side
    to move is Black or White, the board is well formed, the history has
    one entry more than the move log, and the board holds four discs plus
    one for every logged move; so no game position has more than
    [size * size - 4] moves behind it. *)
Theorem reachable_invariants (g : OthelloGame) :
  reachable g →
  (current_player g = BLACK ∨ current_player g = WHITE)
  ∧ wf_board (size g) (board g) = true
  ∧ length (move_history g) = S (length (move_log g))
  ∧ total_count g = 4 + Z.of_nat (length (move_log g))
  ∧ (4 + length (move_log g) ≤ size g * size g)%nat.
Proof.
  intros Hinv%reachable_game_inv.
  pose proof (game_inv_count g Hinv) as Hcount.
  pose proof (count_discs_le (size g) (board g)) as Hle.
  destruct Hinv as ((Hwf & _) & Hn & Hcur & Hlen & Hent).
  split_and!; [done..| |lia].
  rewrite total_count_discs, Hcount. lia.
Qed.

Lemma reachable_invariants_witness :
  let g := play (new_game 8 "human" "easy" "B" false) 2 3 in
  (current_player g = BLACK ∨ current_player g = WHITE)
  ∧ wf_board (size g) (board g) = true
  ∧ length (move_history g) = S (length (move_log g))
  ∧ total_count g = 4 + Z.of_nat (length (move_log g))
  ∧ (4 + length (move_log g) ≤ size g * size g)%nat.
Proof.
  intros g. apply (reachable_invariants g).
  exists 8%nat, "human", "easy", "B", false.
  split; [lia|]. split; [by eexists|].
  apply reach_switch_player, reach_place_piece; [apply reach_start|by left].
Defined.

(** X12.  [undo_move] refuses exactly when no move is logged: in every
    state of a game object it returns [false] if and only if the move log
    is empty, and then it changes nothing; otherwise it returns [true],
    drops the last history entry and the last logged move, and makes the
    board hold four discs plus one per remaining logged move. *)
Theorem undo_move_refuses_iff (g : OthelloGame) :
  reachable g →
  ((undo_move g).1 = false ↔ move_log g = [])
  ∧ ((undo_move g).1 = false → (undo_move g).2 = g)
  ∧ ((undo_move g).1 = true →
     move_history (undo_move g).2 = removelast (move_history g)
     ∧ move_log (undo_move g).2 = removelast (move_log g)
     ∧ last (move_history (undo_move g).2)
       = Some {| h_board := board (undo_move g).2;
                 h_current_player := current_player (undo_move g).2 |}
     ∧ total_count (undo_move g).2
       = 4 + Z.of_nat (length (move_log g)) - 1).
Proof.
  intros Hr. pose proof (reachable_game_inv g Hr) as Hinv.
  pose proof (game_inv_undo_move g Hinv) as Hinv'.
  pose proof (game_inv_count _ Hinv') as Hcount'.
  destruct Hinv as (Hwf & Hn & Hcur & Hlen & Hent).
  unfold undo_move in *.
  destruct (Nat.ltb_spec 1 (length (move_history g))) as [Hl|Hl].
  - destruct (last (removelast (move_history g))) as [prev|] eqn:Elast.
    + cbn [fst snd] in *. split_and!; [|done|].
      * split; [done|]. intros E. rewrite E in Hlen. simpl in Hlen. lia.
      * intros _. cbn [move_history move_log board current_player].
        split_and!; [done..| |].
        -- rewrite Elast, copy_board_id. by destruct prev.
        -- rewrite total_count_discs. cbn [size board move_log] in *.
           rewrite Hcount'.
           destruct (move_log g) as [|m0 ms _] using rev_ind;
             [simpl in *; lia|].
           rewrite removelast_last, length_app. simpl. lia.
    + exfalso. destruct (move_history g) as [|h0 hs _] using rev_ind;
        [simpl in Hl; lia|].
      rewrite removelast_last in Elast. rewrite length_app in Hl.
      destruct hs as [|h1 hs _] using rev_ind; [simpl in Hl; lia|].
      by rewrite last_snoc in Elast.
  - cbn [fst snd]. split_and!; [|done|done].
    split; [intros _|done].
    destruct (move_log g); [done|simpl in *; lia].
Qed.

Lemma undo_move_refuses_iff_witness :
  let g := new_game 8 "human" "easy" "B" false in
  ((undo_move g).1 = false ↔ move_log g = [])
  ∧ ((undo_move g).1 = false → (undo_move g).2 = g)
  ∧ ((undo_move g).1 = true →
     move_history (undo_move g).2 = removelast (move_history g)
     ∧ move_log (undo_move g).2 = removelast (move_log g)
     ∧ last (move_history (undo_move g).2)
       = Some {| h_board := board (undo_move g).2;
                 h_current_player := current_player (undo_move g).2 |}
     ∧ total_count (undo_move g).2
       = 4 + Z.of_nat (length (move_log g)) - 1).
Proof.
  intros g. apply (undo_move_refuses_iff g).
  exists 8%nat, "human", "easy", "B", false.
  split; [lia|]. split; [by eexists|apply reach_start].
Defined.


(** ** The constructor's settings and [reset] *)

Lemma reachable_from_settings g0 g : reachable_from g0 g → same_settings g0 g.
Proof.
  induction 1 as [|g row col player _ IH _|g _ IH|g _ IH|g b player _ IH
                  |g _ IH|g _ IH]; [done|..]; try done.
  - unfold place_piece. by destruct (_ || _).
  - unfold undo_move. destruct (_ <? _)%nat; [|done].
    by destruct (last _).
  - unfold get_best_move. destruct (_ =? _)%nat; [done|].
    by destruct (best_loop _ _ _ _ _ _ _ _ _ _ _).
Qed.

(** X13.  [reset] brings a game object back to the state in which its
    constructor left it, whatever has been done to it since: no method
    changes the size, the opponent type, the search depth, the colours or
    the position weights, and [reset] assigns every other field as the
    constructor does. *)
Theorem reset_restores_new_game (n : nat)
    (opponent_type ai_difficulty player_color : string) (dynamic_depth : bool)
    (g : OthelloGame) :
  reachable_from
    (new_game n opponent_type ai_difficulty player_color dynamic_depth) g →
  reset g = new_game n opponent_type ai_difficulty player_color dynamic_depth.
Proof.
  intros (Hs & Ho & Hd & Hp & Ha & Hy & Hw)%reachable_from_settings.
  unfold reset. rewrite Hs, Ho, Hd, Hp, Ha, Hy, Hw. reflexivity.
Qed.

Lemma reset_restores_new_game_witness :
  reset (play (new_game 8 "human" "easy" "B" false) 2 3)
  = new_game 8 "human" "easy" "B" false.
Proof.
  apply (reset_restores_new_game 8 "human" "easy" "B" false).
  apply reach_switch_player, reach_place_piece; [apply reach_start|by left].
Defined.

(** ** Turns as the interface plays them *)

Lemma has_valid_moves_false n b player :
  has_valid_moves n b player = false ↔ valid_moves n b player = [].
Proof.
  unfold has_valid_moves. destruct (valid_moves n b player); simpl; [done|].
  split; discriminate.
Qed.

Lemma is_game_over_has_valid_moves n b player :
  player = BLACK ∨ player = WHITE →
  is_game_over n b
  = negb (has_valid_moves n b player)
    && negb (has_valid_moves n b (opponent player)).
Proof.
  unfold is_game_over, has_valid_moves.
  intros [-> | ->]; cbn [opponent]; unfold opponent; simpl Z.eqb;
    cbv iota; by do 2 destruct (0 <? _)%nat.
Qed.

Lemma switch_turns_keeps g :
  size (switch_turns g).1 = size g
  ∧ board (switch_turns g).1 = board g
  ∧ move_log (switch_turns g).1 = move_log g
  ∧ move_history (switch_turns g).1 = move_history g
  ∧ transposition_table (switch_turns g).1 = transposition_table g.
Proof.
  unfold switch_turns. cbn [switch_player size board current_player].
  by repeat destruct (negb _).
Qed.

(** X14.  [switch_turns] implements the pass rule.  With Black or White
    to move before the call: the turn goes to the other side if it has a
    legal move; it stays with the side that moved if only that side has
    one; if neither has, the game is flagged as over.  The flag after the
    call is the flag before or [is_game_over] of the board; a side left
    to move by a call that did not end the game has a legal move; and the
    machine's move is scheduled only when it is the machine's turn in a
    game that is not over.  Board, history and log are not touched. *)
Theorem switch_turns_pass_rule (g : OthelloGame) :
  wf_game g → current_player g = BLACK ∨ current_player g = WHITE →
  let me := current_player g in
  let g' := (switch_turns g).1 in
  (has_valid_moves (size g) (board g) (opponent me) = true →
   current_player g' = opponent me)
  ∧ (has_valid_moves (size g) (board g) (opponent me) = false →
     current_player g' = me)
  ∧ game_over g' = game_over g || is_game_over (size g) (board g)
  ∧ (is_game_over (size g) (board g) = false →
     has_valid_moves (size g') (board g') (current_player g') = true)
  ∧ ((switch_turns g).2 = true → ai_to_move g' = true ∧ game_over g' = false)
  ∧ board g' = board g
  ∧ move_history g' = move_history g
  ∧ move_log g' = move_log g.
Proof.
  intros _ Hp me g'.
  pose proof (switch_turns_keeps g) as (Hs & Hb & Hl & Hh & _).
  rewrite (is_game_over_has_valid_moves _ _ me Hp).
  pose proof (opponent_involutive me Hp) as Hinv.
  subst g' me. rewrite Hs, Hb. split_and!; [..|done|done|done];
    unfold switch_turns;
    cbn [switch_player size board current_player game_over];
    rewrite ?Hinv;
    destruct (has_valid_moves (size g) (board g) (opponent (current_player g)))
      eqn:Eo;
    destruct (has_valid_moves (size g) (board g) (current_player g)) eqn:Em;
    cbn [negb andb orb fst snd handle_game_over switch_player size board
         current_player game_over];
    rewrite ?Hinv, ?Eo, ?Em, ?orb_false_r, ?orb_true_r; try done.
  all: intros [Ha Hg%negb_true_iff]%andb_true_iff; done.
Qed.

Lemma switch_turns_pass_rule_witness :
  let g := (place_piece (new_game 8 "ai" "easy" "B" false) 2 3 BLACK).2 in
  let me := current_player g in
  let g' := (switch_turns g).1 in
  (has_valid_moves (size g) (board g) (opponent me) = true →
   current_player g' = opponent me)
  ∧ (has_valid_moves (size g) (board g) (opponent me) = false →
     current_player g' = me)
  ∧ game_over g' = game_over g || is_game_over (size g) (board g)
  ∧ (is_game_over (size g) (board g) = false →
     has_valid_moves (size g') (board g') (current_player g') = true)
  ∧ ((switch_turns g).2 = true → ai_to_move g' = true ∧ game_over g' = false)
  ∧ board g' = board g
  ∧ move_history g' = move_history g
  ∧ move_log g' = move_log g.
Proof.
  intros g. apply (switch_turns_pass_rule g); [|by left].
  apply wf_game_place_piece; [apply wf_game_new_game|by left].
Defined.

Lemma get_best_move_cases g b player :
  table_finite (transposition_table g) →
  let r := get_best_move g b player in
  size r.2 = size g ∧ board r.2 = board g
  ∧ current_player r.2 = current_player g
  ∧ move_log r.2 = move_log g ∧ move_history r.2 = move_history g
  ∧ game_over r.2 = game_over g ∧ ai_player r.2 = ai_player g
  ∧ ((r.1 = None ∧ valid_moves (size g) b player = [])
     ∨ (∃ m, r.1 = Some m ∧ m ∈ valid_moves (size g) b player)).
Proof.
  intros Ht. unfold get_best_move.
  rewrite get_valid_moves_in_state_valid_moves.
  destruct (valid_moves (size g) b player) as [|m0 ms] eqn:Ev; simpl length.
  { simpl. split_and!; [done..|by left]. }
  cbn [Nat.eqb].
  match goal with |- context [best_loop ?s ?w ?d ?bd ?p ?be ?mv ?t ?bs ?bm ?al] =>
    pose proof (best_loop_member s w (λ m, m ∈ m0 :: ms) d bd p mv t bs bm al Ht)
      as H end.
  destruct H as [_ Hr].
  { intros m Hm. by rewrite sort_moves_perm in Hm. }
  { by left. }
  destruct (best_loop _ _ _ _ _ _ _ _ _ _ _) as [best_move tbl].
  cbn [fst snd size board current_player move_log move_history game_over
       ai_player] in *.
  split_and!; [done..|].
  destruct Hr as [(m & -> & Hm)|[Hnil _]].
  - right. by exists m.
  - apply sort_moves_nil in Hnil. discriminate.
Qed.

(** X15.  [ai_move] does nothing in a game that is over.  Otherwise it
    plays a legal move of the machine's
    colour whenever there is one (the board becomes that move's board and
    the move is logged under the machine's colour), and only passes,
    leaving board and log as they are, when there is none. *)
Theorem ai_move_plays_legal (g : OthelloGame) :
  wf_game g →
  let p := ai_player g in
  let g' := (ai_move g).1 in
  (game_over g = true → ai_move g = (g, false))
  ∧ (game_over g = false → valid_moves (size g) (board g) p = [] →
     board g' = board g ∧ move_log g' = move_log g)
  ∧ (game_over g = false → valid_moves (size g) (board g) p ≠ [] →
     ∃ m, m ∈ valid_moves (size g) (board g) p
          ∧ board g' = move_board (size g) (board g) m.1 m.2 p
          ∧ move_log g' = move_log g ++ [(p, m)]).
Proof.
  intros (_ & _ & _ & Ht & _) p g'. subst g'. unfold ai_move.
  destruct (game_over g); [by split_and!|].
  split; [done|].
  pose proof (get_best_move_cases g (copy_board (board g)) p Ht)
    as (Hs & Hb & _ & Hl & _ & _ & Ha & Hr).
  rewrite copy_board_id in *. fold p.
  destruct (get_best_move g (board g) p) as [move g1].
  cbn [fst snd] in *. fold p in Ha. rewrite Ha.
  destruct Hr as [[-> Hnil]|(m & -> & Hm)].
  - pose proof (switch_turns_keeps g1) as (_ & Hb' & Hl' & _).
    split; [intros _ _; by rewrite Hb', Hl', Hb, Hl|by intros _ []].
  - split; [intros _ Hnil; rewrite Hnil in Hm; by apply elem_of_nil in Hm|].
    intros _ _. exists m. split; [done|]. destruct m as [r c].
    rewrite <- Hs, <- Hb in Hm. cbn [fst snd].
    rewrite (place_piece_legal g1 r c p Hm). cbn [fst snd].
    match goal with |- context [switch_turns ?x] =>
      pose proof (switch_turns_keeps x) as (_ & -> & -> & _) end.
    cbn [board move_log]. by rewrite Hs, Hb, Hl.
Qed.

Lemma ai_move_plays_legal_witness :
  let g := play (new_game 6 "ai" "easy" "B" false) 1 2 in
  let p := ai_player g in
  let g' := (ai_move g).1 in
  (game_over g = true → ai_move g = (g, false))
  ∧ (game_over g = false → valid_moves (size g) (board g) p = [] →
     board g' = board g ∧ move_log g' = move_log g)
  ∧ (game_over g = false → valid_moves (size g) (board g) p ≠ [] →
     ∃ m, m ∈ valid_moves (size g) (board g) p
          ∧ board g' = move_board (size g) (board g) m.1 m.2 p
          ∧ move_log g' = move_log g ++ [(p, m)]).
Proof.
  intros g. apply (ai_move_plays_legal g).
  apply wf_game_switch_player, wf_game_place_piece;
    [apply wf_game_new_game|by left].
Defined.

(** X16.  A click changes the game only by a legal move of the side to
    move: [on_click] leaves the game as it is when the game is over, when
    it is the machine's turn, or when the clicked cell is not a legal move
    (off the grid, occupied, or capturing nothing); otherwise it plays the
    clicked cell for the side to move and logs it. *)
Theorem on_click_plays_clicked_cell (cell_size : Z) (g : OthelloGame)
    (mx my : Z) :
  wf_game g →
  let p := current_player g in
  let rc := click_cell cell_size mx my in
  let g' := (on_click cell_size g mx my).1 in
  (game_over g = true ∨ ai_to_move g = true
   ∨ rc ∉ valid_moves (size g) (board g) p →
   on_click cell_size g mx my = (g, false))
  ∧ (game_over g = false → ai_to_move g = false →
     rc ∈ valid_moves (size g) (board g) p →
     board g' = move_board (size g) (board g) rc.1 rc.2 p
     ∧ move_log g' = move_log g ++ [(p, rc)]
     ∧ length (move_history g') = S (length (move_history g))).
Proof.
  intros _ p rc g'. subst g'. unfold on_click. fold rc. destruct rc as [r c].
  split.
  - intros [->|[Ha|Hn]]; [done| |].
    + rewrite Ha. by destruct (game_over g).
    + destruct (game_over g); [done|]. destruct (ai_to_move g); [done|].
      destruct (in_bounds (size g) r c); [|done]. cbn [negb]. fold p.
      destruct (place_piece_cases g r c p) as [-> | Hm]; done.
  - intros -> -> Hm.
    pose proof Hm as (Hin & _)%elem_of_valid_moves. rewrite Hin.
    cbn [negb]. fold p. rewrite (place_piece_legal g r c p Hm). cbn [negb].
    match goal with |- context [switch_turns ?x] =>
      pose proof (switch_turns_keeps x) as (_ & -> & -> & -> & _) end.
    cbn [board move_log move_history fst snd]. rewrite length_app.
    split_and!; [done..|]. simpl. lia.
Qed.

Lemma on_click_plays_clicked_cell_witness :
  let g := new_game 8 "human" "easy" "B" false in
  let p := current_player g in
  let rc := click_cell 60 200 130 in
  let g' := (on_click 60 g 200 130).1 in
  (game_over g = true ∨ ai_to_move g = true
   ∨ rc ∉ valid_moves (size g) (board g) p →
   on_click 60 g 200 130 = (g, false))
  ∧ (game_over g = false → ai_to_move g = false →
     rc ∈ valid_moves (size g) (board g) p →
     board g' = move_board (size g) (board g) rc.1 rc.2 p
     ∧ move_log g' = move_log g ++ [(p, rc)]
     ∧ length (move_history g') = S (length (move_history g))).
Proof.
  intros g. apply (on_click_plays_clicked_cell 60 g 200 130).
  apply wf_game_new_game.
Defined.

(** X17.  The pixel arithmetic of the canvas, for a positive cell size: a
    click falls on the cell [(r, c)] exactly when it lies in the rectangle
    that [cell_coords] gives for that cell, right and bottom edges
    excluded; and a click inside the canvas falls on a cell of the
    grid. *)
Theorem click_cell_cell_coords (cell_size r c mx my : Z) (size : nat) :
  0 < cell_size →
  let '(x1, y1, x2, y2) := cell_coords cell_size r c in
  (click_cell cell_size mx my = (r, c) ↔ x1 ≤ mx < x2 ∧ y1 ≤ my < y2)
  ∧ (0 ≤ mx < Z.of_nat size * cell_size →
     0 ≤ my < Z.of_nat size * cell_size →
     in_bounds size (click_cell cell_size mx my).1
                    (click_cell cell_size mx my).2 = true).
Proof.
  intros Hcs. unfold cell_coords, click_cell. cbn [fst snd]. split.
  - split.
    + intros [= <- <-].
      pose proof (Z.mul_div_le mx cell_size Hcs).
      pose proof (Z.mul_succ_div_gt mx cell_size Hcs).
      pose proof (Z.mul_div_le my cell_size Hcs).
      pose proof (Z.mul_succ_div_gt my cell_size Hcs). lia.
    + intros [Hx Hy]. f_equal; symmetry.
      * apply (Z.div_unique_pos my cell_size r (my - r * cell_size)); lia.
      * apply (Z.div_unique_pos mx cell_size c (mx - c * cell_size)); lia.
  - intros Hx Hy. unfold in_bounds.
    assert (0 ≤ mx / cell_size < Z.of_nat size) as [? ?].
    { split; [apply Z.div_pos; lia|apply Z.div_lt_upper_bound; lia]. }
    assert (0 ≤ my / cell_size < Z.of_nat size) as [? ?].
    { split; [apply Z.div_pos; lia|apply Z.div_lt_upper_bound; lia]. }
    repeat (apply andb_true_intro; split); lia.
Qed.

Lemma click_cell_cell_coords_witness :
  (click_cell 60 200 130 = (2, 3) ↔ 180 ≤ 200 < 240 ∧ 120 ≤ 130 < 180)
  ∧ (0 ≤ 200 < Z.of_nat 8 * 60 → 0 ≤ 130 < Z.of_nat 8 * 60 →
     in_bounds 8 (click_cell 60 200 130).1 (click_cell 60 200 130).2 = true).
Proof. apply (click_cell_cell_coords 60 2 3 200 130 8). lia. Defined.


(** ** Undoing a whole game *)

Lemma undo_move_step g :
  game_inv g → move_log g ≠ [] →
  ∃ prev,
    last (removelast (move_history g)) = Some prev
    ∧ (undo_move g).2
      = {| size := size g;
           board := h_board prev;
           current_player := h_current_player prev;
           last_placed_move := None;
           game_over := is_game_over (size g) (h_board prev);
           opponent_type := opponent_type g;
           ai_depth := ai_depth g;
           player_color := player_color g;
           ai_player := ai_player g;
           dynamic_depth := dynamic_depth g;
           move_history := removelast (move_history g);
           move_log := removelast (move_log g);
           position_weights := position_weights g;
           transposition_table := transposition_table g |}.
Proof.
  intros (_ & _ & _ & Hlen & _) Hlog. unfold undo_move.
  assert (2 ≤ length (move_history g))%nat as Hl.
  { rewrite Hlen. destruct (move_log g); [done|simpl; lia]. }
  destruct (Nat.ltb_spec 1 (length (move_history g))) as [_|?]; [|lia].
  destruct (move_history g) as [|h0 hs _] using rev_ind; [simpl in Hl; lia|].
  rewrite removelast_last. rewrite length_app in Hl. cbn [length] in Hl.
  destruct hs as [|h1 hs _] using rev_ind; [simpl in Hl; lia|].
  rewrite last_snoc. exists h1. split; [done|].
  cbn [snd]. by rewrite copy_board_id.
Qed.

Lemma reachable_from_opening_kept g0 g :
  opening_kept g0 → reachable_from g0 g → opening_kept g.
Proof.
  intros H0 Hr. unfold opening_kept in *.
  induction Hr as [|g row col player _ IH _|g _ IH|g _ IH|g b player _ IH
                  |g _ IH|g _ IH]; try done.
  - unfold place_piece. destruct (_ || _); [done|].
    cbn [snd move_history size]. rewrite <- IH.
    destruct (move_history g); [done|done].
  - unfold undo_move.
    destruct (Nat.ltb_spec 1 (length (move_history g))) as [Hl|?]; [|done].
    destruct (last _); [|done]. cbn [snd move_history size]. rewrite <- IH.
    destruct (move_history g) as [|h0 [|h1 hs]]; simpl in Hl; [lia|lia|done].
  - unfold get_best_move. destruct (_ =? _)%nat; [done|].
    by destruct (best_loop _ _ _ _ _ _ _ _ _ _ _).
  - unfold reset. cbn [move_history head size]. by rewrite copy_board_id.
Qed.

Lemma undo_moves_opening k : ∀ g,
  game_inv g → opening_kept g → length (move_log g) = k →
  let g' := undo_moves k g in
  size g' = size g
  ∧ board g' = initial_board (size g)
  ∧ move_log g' = []
  ∧ move_history g'
    = [ {| h_board := initial_board (size g); h_current_player := BLACK |} ]
  ∧ (k ≠ 0%nat → current_player g' = BLACK).
Proof.
  induction k as [|k IH]; intros g Hinv Hopen Hk; cbn [undo_moves].
  - destruct Hinv as (Hwf & _ & _ & Hlen & _).
    destruct Hwf as (_ & _ & _ & _ & (h & Hlast & Hb) & _).
    unfold opening_kept in Hopen. rewrite Hk in Hlen.
    destruct (move_history g) as [|h0 [|h1 hs]]; [done| |done].
    cbn in Hopen, Hlast. injection Hopen as ->. injection Hlast as <-.
    split_and!; [done|by rewrite <- Hb|by apply nil_length_inv|done|done].
  - assert (move_log g ≠ []) as Hlog by (intros E; by rewrite E in Hk).
    pose proof (game_inv_undo_move g Hinv) as Hinv1.
    destruct (undo_move_step g Hinv Hlog) as (prev & Hprev & Hg1).
    set (g1 := (undo_move g).2) in *.
    assert (size g1 = size g) as Hs1 by by rewrite Hg1.
    assert (move_history g1 = removelast (move_history g)) as Hh1
      by by rewrite Hg1.
    assert (length (move_log g1) = k) as Hk1.
    { rewrite Hg1. cbn [move_log].
      destruct (move_log g) as [|m0 ms _] using rev_ind; [done|].
      rewrite removelast_last. rewrite length_app in Hk. simpl in Hk. lia. }
    assert (opening_kept g1) as Hopen1.
    { unfold opening_kept in *. rewrite Hs1, Hh1.
      destruct Hinv as (_ & _ & _ & Hlen & _). rewrite Hk in Hlen.
      destruct (move_history g) as [|h0 [|h1 hs]]; simpl in Hlen; [lia|lia|].
      done. }
    destruct (IH g1 Hinv1 Hopen1 Hk1) as (Hs & Hb & Hl & Hh & Hc).
    rewrite Hs1 in *. split_and!; [done..|]. intros _.
    destruct k as [|k]; [|by apply Hc]. cbn [undo_moves] in *.
    rewrite Hh1 in Hh. rewrite Hh in Hprev. cbn in Hprev.
    injection Hprev as <-. by rewrite Hg1.
Qed.

(** X18.  Undoing every logged move of a game object brings back the
    opening: after as many calls of [undo_move] as there are moves in the
    log, the board is the opening position, the log is empty, the history
    holds the opening entry alone, a further [undo_move] is refused, and
    (if anything was undone) Black is to move. *)
Theorem undo_moves_restore_opening (g : OthelloGame) :
  reachable g →
  let g' := undo_moves (length (move_log g)) g in
  board g' = initial_board (size g)
  ∧ move_log g' = []
  ∧ move_history g'
    = [ {| h_board := initial_board (size g); h_current_player := BLACK |} ]
  ∧ undo_move g' = (false, g')
  ∧ (move_log g ≠ [] → current_player g' = BLACK).
Proof.
  intros Hr. pose proof (reachable_game_inv g Hr) as Hinv.
  destruct Hr as (n & ot & diff & pc & dyn & Hn & _ & Hr).
  assert (opening_kept g) as Hopen.
  { eapply reachable_from_opening_kept; [|done].
    unfold opening_kept, new_game. cbn [move_history head size].
    by rewrite copy_board_id. }
  destruct (undo_moves_opening _ g Hinv Hopen eq_refl)
    as (_ & Hb & Hl & Hh & Hc).
  intros g'. subst g'. split_and!; [done..| |].
  - unfold undo_move. by rewrite Hh.
  - intros Hlog. apply Hc. by destruct (move_log g).
Qed.

Lemma undo_moves_restore_opening_witness :
  let g := play (play (new_game 8 "human" "easy" "B" false) 2 3) 2 2 in
  let g' := undo_moves (length (move_log g)) g in
  board g' = initial_board (size g)
  ∧ move_log g' = []
  ∧ move_history g'
    = [ {| h_board := initial_board (size g); h_current_player := BLACK |} ]
  ∧ undo_move g' = (false, g')
  ∧ (move_log g ≠ [] → current_player g' = BLACK).
Proof.
  intros g. apply (undo_moves_restore_opening g).
  exists 8%nat, "human", "easy", "B", false.
  split; [lia|]. split; [by eexists|].
  apply reach_switch_player, reach_place_piece; [|by right].
  apply reach_switch_player, reach_place_piece; [apply reach_start|by left].
Defined.


(** ** Position weights and the static evaluation *)

Lemma cell_grid (f : Z → Z → Z) (n : nat) (r c : Z) :
  cell ((λ r, (λ c, f r c) <$> range n) <$> range n) r c
  = if in_bounds n r c then Some (f r c) else None.
Proof.
  unfold cell, in_bounds, range.
  destruct (Z.leb_spec 0 r); cbn [andb]; [|done].
  destruct (Z.leb_spec 0 c); cbn [andb].
  - rewrite list_lookup_fmap, list_lookup_fmap.
    destruct (Z.ltb_spec r (Z.of_nat n)); cbn [andb].
    + rewrite lookup_seq_lt by lia. cbn [fmap option_fmap option_map mbind
        option_bind]. rewrite !list_lookup_fmap.
      destruct (Z.ltb_spec c (Z.of_nat n)).
      * rewrite lookup_seq_lt by lia. simpl. by rewrite !Z2Nat.id by lia.
      * by rewrite lookup_seq_ge by lia.
    + by rewrite lookup_seq_ge by lia.
  - by rewrite andb_false_r.
Qed.

Lemma weight_generate_position_weights (n : nat) (r c : Z) :
  weight (generate_position_weights n) r c
  = if in_bounds n r c then
      let m := Z.of_nat n in
      if ((r =? 0) || (r =? m - 1)) && ((c =? 0) || (c =? m - 1)) then 120
      else if ((r =? 1) || (r =? m - 2)) && ((c =? 1) || (c =? m - 2))
      then -20
      else if (r =? 0) || (r =? m - 1) || (c =? 0) || (c =? m - 1) then 20
      else 1
    else 0.
Proof.
  unfold weight, generate_position_weights.
  rewrite (cell_grid
    (λ r c, if ((r =? 0) || (r =? Z.of_nat n - 1))
               && ((c =? 0) || (c =? Z.of_nat n - 1)) then 120
            else if ((r =? 1) || (r =? Z.of_nat n - 2))
                    && ((c =? 1) || (c =? Z.of_nat n - 2)) then -20
            else if (r =? 0) || (r =? Z.of_nat n - 1)
                    || (c =? 0) || (c =? Z.of_nat n - 1) then 20
            else 1)).
  by destruct (in_bounds n r c).
Qed.

Lemma weight_bound (n : nat) (r c : Z) :
  -20 ≤ weight (generate_position_weights n) r c ≤ 120.
Proof.
  rewrite weight_generate_position_weights.
  destruct (in_bounds n r c); [|lia]. cbv zeta.
  repeat (destruct (_ && _) || destruct (_ || _)); lia.
Qed.

(** X19.  The position weights have the symmetries of the square: the
    weight of a cell of the grid is that of its mirror images in the
    diagonal, the horizontal and the vertical axis; it is 120 in the four
    corners and one of 120, -20, 20 and 1 everywhere. *)
Theorem position_weights_symmetric (size : nat) (r c : Z) :
  in_bounds size r c = true →
  let W := generate_position_weights size in
  let n := Z.of_nat size in
  weight W r c = weight W c r
  ∧ weight W r c = weight W (n - 1 - r) c
  ∧ weight W r c = weight W r (n - 1 - c)
  ∧ weight W r c ∈ [120; -20; 20; 1]
  ∧ ((r = 0 ∨ r = n - 1) ∧ (c = 0 ∨ c = n - 1) → weight W r c = 120).
Proof.
  intros Hin W n. subst W. rewrite !weight_generate_position_weights.
  fold n. rewrite Hin.
  assert (0 ≤ r < n ∧ 0 ≤ c < n) as [Hr Hc].
  { unfold in_bounds in Hin. fold n in Hin.
    apply andb_true_iff in Hin as [[[?%Z.leb_le ?%Z.ltb_lt]%andb_true_iff
      ?%Z.leb_le]%andb_true_iff ?%Z.ltb_lt]. lia. }
  assert (in_bounds size c r = true) as ->.
  { unfold in_bounds. fold n.
    repeat (apply andb_true_intro; split); lia. }
  assert (in_bounds size (n - 1 - r) c = true) as ->.
  { unfold in_bounds. fold n.
    repeat (apply andb_true_intro; split); lia. }
  assert (in_bounds size r (n - 1 - c) = true) as ->.
  { unfold in_bounds. fold n.
    repeat (apply andb_true_intro; split); lia. }
  cbv zeta.
  assert (∀ x, (n - 1 - x =? 0) = (x =? n - 1)) as E0
    by (intros x; destruct (Z.eqb_spec (n - 1 - x) 0),
          (Z.eqb_spec x (n - 1)); (done || lia)).
  assert (∀ x, (n - 1 - x =? n - 1) = (x =? 0)) as E1
    by (intros x; destruct (Z.eqb_spec (n - 1 - x) (n - 1)),
          (Z.eqb_spec x 0); (done || lia)).
  assert (∀ x, (n - 1 - x =? 1) = (x =? n - 2)) as E2
    by (intros x; destruct (Z.eqb_spec (n - 1 - x) 1),
          (Z.eqb_spec x (n - 2)); (done || lia)).
  assert (∀ x, (n - 1 - x =? n - 2) = (x =? 1)) as E3
    by (intros x; destruct (Z.eqb_spec (n - 1 - x) (n - 2)),
          (Z.eqb_spec x 1); (done || lia)).
  rewrite !E0, !E1, !E2, !E3. split_and!.
  - by destruct (r =? 0), (r =? n - 1), (r =? 1), (r =? n - 2),
      (c =? 0), (c =? n - 1), (c =? 1), (c =? n - 2).
  - by destruct (r =? 0), (r =? n - 1), (r =? 1), (r =? n - 2).
  - by destruct (r =? 0), (r =? n - 1), (r =? 1), (r =? n - 2),
      (c =? 0), (c =? n - 1), (c =? 1), (c =? n - 2).
  - repeat case_match; apply (bool_decide_unpack _); vm_compute; exact I.
  - intros [Hr0 Hc0].
    assert ((r =? 0) || (r =? n - 1) = true) as ->
      by (destruct Hr0 as [-> | ->]; rewrite Z.eqb_refl;
          [done|apply orb_true_r]).
    assert ((c =? 0) || (c =? n - 1) = true) as ->
      by (destruct Hc0 as [-> | ->]; rewrite Z.eqb_refl;
          [done|apply orb_true_r]).
    done.
Qed.

Lemma position_weights_symmetric_witness :
  let W := generate_position_weights 8 in
  let n := Z.of_nat 8 in
  weight W 1 6 = weight W 6 1
  ∧ weight W 1 6 = weight W (n - 1 - 1) 6
  ∧ weight W 1 6 = weight W 1 (n - 1 - 6)
  ∧ weight W 1 6 ∈ [120; -20; 20; 1]
  ∧ ((1 = 0 ∨ 1 = n - 1) ∧ (6 = 0 ∨ 6 = n - 1) → weight W 1 6 = 120).
Proof. apply (position_weights_symmetric 8 1 6). reflexivity. Defined.

Lemma evaluate_fold_bound n b player l : ∀ ps os,
  player = BLACK ∨ player = WHITE →
  let r := foldl (evaluate_step (generate_position_weights n) b player
                                (opponent player)) (ps, os) l in
  let k := Z.of_nat (length (List.filter
             (λ '(r, c), cell_is b r c BLACK || cell_is b r c WHITE) l)) in
  ps - os - 120 * k ≤ r.1 - r.2 ≤ ps - os + 120 * k.
Proof.
  induction l as [|[r c] l IH]; intros ps os Hp; cbn [foldl List.filter length].
  - simpl. lia.
  - pose proof (weight_bound n r c) as Hw.
    assert (cell_is b r c BLACK || cell_is b r c WHITE
            = cell_is b r c player || cell_is b r c (opponent player)) as ->.
    { destruct Hp as [-> | ->]; [done|apply orb_comm]. }
    assert (evaluate_step (generate_position_weights n) b player
              (opponent player) (ps, os) (r, c)
            = let w := weight (generate_position_weights n) r c in
              if cell_is b r c player then (ps + w, os)
              else if cell_is b r c (opponent player) then (ps, os + w)
              else (ps, os)) as -> by done.
    cbv zeta.
    destruct (cell_is b r c player) eqn:E1; cbn [orb].
    + specialize (IH (ps + weight (generate_position_weights n) r c) os Hp).
      cbn [length] in *. cbv zeta in *. lia.
    + destruct (cell_is b r c (opponent player)) eqn:E2.
      * specialize (IH ps (os + weight (generate_position_weights n) r c) Hp).
        cbn [length] in *. cbv zeta in *. lia.
      * specialize (IH ps os Hp). cbv zeta in *. lia.
Qed.

(** X20.  The static evaluation is bounded by the number of discs: with
    the game's position weights, [evaluate_board] of a board is at most
    120 (the weight of a corner) times the number of discs on the grid
    in absolute value, so it is 0 on a grid without discs and never
    exceeds [120 * size * size]. *)
Theorem evaluate_board_bounded (size : nat) (b : Board) (player : Z) :
  wf_board size b = true → player = BLACK ∨ player = WHITE →
  let v := evaluate_board size (generate_position_weights size) b player in
  Z.abs v ≤ 120 * Z.of_nat (count_discs size b)
  ∧ Z.abs v ≤ 120 * Z.of_nat size * Z.of_nat size.
Proof.
  intros _ Hp v. subst v. unfold evaluate_board.
  pose proof (evaluate_fold_bound size b player (cells size) 0 0 Hp) as H.
  cbv zeta in H. fold (count_discs size b) in H.
  pose proof (count_discs_le size b) as Hle.
  destruct (foldl _ _ _) as [ps os]. cbn [fst snd] in H. nia.
Qed.

Lemma evaluate_board_bounded_witness :
  let v := evaluate_board 8 (generate_position_weights 8)
             (initial_board 8) BLACK in
  Z.abs v ≤ 120 * Z.of_nat (count_discs 8 (initial_board 8))
  ∧ Z.abs v ≤ 120 * Z.of_nat 8 * Z.of_nat 8.
Proof.
  apply (evaluate_board_bounded 8 (initial_board 8) BLACK);
    [reflexivity|by left].
Defined.

(** ** Copies of a board *)

(** X21.  [copy_board] gives an independent copy: in the store after the
    call the copy reads as the original; writing a cell through the copy
    changes that cell of the copy and leaves the original as it was, and
    writing a cell through the original leaves the copy as it was. *)
Theorem copy_board_independent (s s' : Heap.store) (b temp : Heap.bref)
    (r c v : Z) :
  allocated s b → Heap.copy_board s b = (temp, s') →
  Heap.read s' temp = Heap.read s b
  ∧ Heap.read s' b = Heap.read s b
  ∧ Heap.read (Heap.set_cell s' temp r c v) temp
    = set_cell (Heap.read s b) r c v
  ∧ Heap.read (Heap.set_cell s' temp r c v) b = Heap.read s b
  ∧ Heap.read (Heap.set_cell s' b r c v) temp = Heap.read s b.
Proof.
  intros Hall (Hsub & Hnew & Hnd & Hal & Hread)%copy_board_spec.
  specialize (Hread Hall).
  assert (∀ l, l ∈ b → l ∉ temp) as Hdisj.
  { intros l Hl Ht. eapply Forall_forall in Hall as [x Hx]; [|done].
    specialize (Hnew l Ht). congruence. }
  split_and!.
  - done.
  - by apply read_subseteq.
  - by rewrite read_set_cell, Hread.
  - rewrite <- (read_subseteq s s' b) by done.
    destruct (set_cell_within s' temp r c v) as [_ Hout].
    unfold Heap.read. apply list_fmap_ext. intros i l Hl.
    rewrite Hout; [done|]. apply Hdisj. by eapply list_elem_of_lookup_2.
  - rewrite <- Hread.
    destruct (set_cell_within s' b r c v) as [_ Hout].
    unfold Heap.read. apply list_fmap_ext. intros i l Hl.
    rewrite Hout; [done|]. intros Hb. eapply Hdisj; [done|].
    by eapply list_elem_of_lookup_2.
Qed.

Lemma copy_board_independent_witness :
  let s : Heap.store := {[ 1%positive := [0; 1]; 2%positive := [2; 0] ]} in
  let b := [1%positive; 2%positive] in
  let temp := (Heap.copy_board s b).1 in
  let s' := (Heap.copy_board s b).2 in
  Heap.read s' temp = Heap.read s b
  ∧ Heap.read s' b = Heap.read s b
  ∧ Heap.read (Heap.set_cell s' temp 0 0 2) temp
    = set_cell (Heap.read s b) 0 0 2
  ∧ Heap.read (Heap.set_cell s' temp 0 0 2) b = Heap.read s b
  ∧ Heap.read (Heap.set_cell s' b 0 0 2) temp = Heap.read s b.
Proof.
  intros s b temp s'. apply (copy_board_independent s s' b temp 0 0 2).
  - repeat constructor; eexists; reflexivity.
  - subst temp s'. by destruct (Heap.copy_board s b).
Defined.

(** ** The board sizes of the start form *)

(** X22.  The start form accepts exactly the even sizes from 6 to 20, and
    on each of them the game opens as it does on the standard board:
    four discs, Black to move with the four moves next to the centre
    square, White with the four mirrored ones, and the game not over. *)
Theorem accepted_sizes_opening (board_size : Z)
    (opponent_type ai_difficulty player_color : string) (dynamic_depth : bool) :
  let n := Z.to_nat board_size in
  let mid := board_size / 2 in
  let g := new_game n opponent_type ai_difficulty player_color dynamic_depth in
  (board_size_ok board_size = true
   ↔ board_size ∈ [6; 8; 10; 12; 14; 16; 18; 20])
  ∧ (board_size_ok board_size = true →
     current_player g = BLACK
     ∧ total_count g = 4
     ∧ valid_moves n (board g) BLACK
       = [(mid - 2, mid - 1); (mid - 1, mid - 2);
          (mid, mid + 1); (mid + 1, mid)]
     ∧ valid_moves n (board g) WHITE
       = [(mid - 2, mid); (mid - 1, mid + 1);
          (mid, mid - 2); (mid + 1, mid - 1)]
     ∧ is_game_over n (board g) = false).
Proof.
  intros n mid g.
  assert (board_size_ok board_size = true
          ↔ board_size ∈ [6; 8; 10; 12; 14; 16; 18; 20]) as Hok.
  { unfold board_size_ok. split.
    - intros H. apply negb_true_iff in H.
      apply orb_false_iff in H as [[H1%Z.ltb_ge H2%Z.ltb_ge]%orb_false_iff
        H3%negb_false_iff%Z.eqb_eq].
      pose proof (Z.quot_rem' board_size 2) as Hq. rewrite H3 in Hq.
      assert (board_size = 6 ∨ board_size = 8 ∨ board_size = 10
              ∨ board_size = 12 ∨ board_size = 14 ∨ board_size = 16
              ∨ board_size = 18 ∨ board_size = 20) as Hc by lia.
      repeat (destruct Hc as [->|Hc];
              [apply (bool_decide_unpack _); vm_compute; exact I|]).
      subst. apply (bool_decide_unpack _). vm_compute. exact I.
    - intros H. repeat (apply elem_of_cons in H as [->|H]; [done|]).
      by apply elem_of_nil in H. }
  split; [done|]. intros H%Hok. subst n mid g.
  repeat (apply elem_of_cons in H as [->|H];
          [split_and!; vm_compute; reflexivity|]).
  by apply elem_of_nil in H.
Qed.


(** ** What the interface shows *)

(** X23.  [draw_board] marks the cells on which a click is played: in a
    game against the machine or against a human, the marked cells are the
    legal moves of the side to move when [on_click] lets a click through
    (the game is not over and it is not the machine's turn), and no cell
    otherwise. *)
Theorem highlighted_iff_clickable (n : nat) (opp_type difficulty colour : string)
    (dynamic : bool) (g : OthelloGame) :
  (2 ≤ n)%nat →
  opp_type = "ai" ∨ opp_type = "human" →
  reachable_from (new_game n opp_type difficulty colour dynamic) g →
  highlighted g
  = if game_over g || ai_to_move g then []
    else valid_moves (size g) (board g) (current_player g).
Proof.
  intros Hn Hot Hr.
  assert (game_inv g) as (_ & _ & Hcur & _).
  { eapply reachable_from_game_inv; [|done]. by apply game_inv_new_game. }
  apply reachable_from_settings in Hr as (_ & Ho & _ & Hpc & Hai & _).
  unfold highlighted, ai_to_move. rewrite Ho, Hpc, Hai.
  unfold new_game. cbn [opponent_type player_color ai_player].
  destruct (game_over g); [done|]. cbn [negb andb orb].
  destruct Hot as [-> | ->].
  - change (String.eqb "ai" "human") with false.
    change (String.eqb "ai" "ai") with true.
    rewrite orb_false_r.
    destruct (String.eqb colour "B"), Hcur as [-> | ->];
      unfold BLACK, WHITE; by cbn [Z.eqb Pos.eqb negb orb andb].
  - change (String.eqb "human" "human") with true.
    change (String.eqb "human" "ai") with false.
    by rewrite orb_true_r.
Qed.

Lemma highlighted_iff_clickable_witness :
  let g := play (new_game 8 "ai" "easy" "B" false) 2 3 in
  highlighted g
  = if game_over g || ai_to_move g then []
    else valid_moves (size g) (board g) (current_player g).
Proof.
  intros g. apply (highlighted_iff_clickable 8 "ai" "easy" "B" false g).
  - lia.
  - by left.
  - apply reach_switch_player, reach_place_piece; [apply reach_start|by left].
Defined.

Lemma string_snoc_inj a (x y : string) :
  x +:+ String a "" = y +:+ String a "" → x = y.
Proof.
  revert y. induction x as [|b x IH]; intros [|b' y];
    rewrite ?string_cons_app; intros H.
  - done.
  - injection H as _ H. destruct y; discriminate.
  - injection H as _ H. destruct x; discriminate.
  - injection H as -> H. f_equal. by apply IH.
Qed.

(** X24.  A line of the move log names its move: for Black or White and
    a column below 26, the line is the colour's name, a capital letter
    for the column and the row number counted from 1, and two different
    moves never give the same line. *)
Theorem move_text_injective (m m' : Z * (Z * Z)) :
  (m.1 = BLACK ∨ m.1 = WHITE) ∧ 0 ≤ m.2.2 < 26 →
  (m'.1 = BLACK ∨ m'.1 = WHITE) ∧ 0 ≤ m'.2.2 < 26 →
  (move_text m = move_text m' → m = m')
  ∧ (∃ a, move_text m
          = (if m.1 =? BLACK then "Black: " else "White: ")
            +:+ String a (pretty (m.2.1 + 1)) +:+ String (Ascii.ascii_of_nat 10) ""
          ∧ (65 ≤ Ascii.nat_of_ascii a ≤ 90)%nat).
Proof.
  destruct m as [p [r c]], m' as [p' [r' c']]. cbn [fst snd].
  intros [Hp Hc] [Hp' Hc']. unfold move_text.
  assert (∀ x, 0 ≤ x < 26 →
    Ascii.nat_of_ascii (Ascii.ascii_of_nat (Z.to_nat (65 + x)))
    = Z.to_nat (65 + x)) as Hemb
    by (intros x Hx; apply Ascii.nat_ascii_embedding; lia).
  split.
  - intros H.
    assert (p = p' ∧
      String (Ascii.ascii_of_nat (Z.to_nat (65 + c))) ""
        +:+ pretty (r + 1) +:+ String (Ascii.ascii_of_nat 10) ""
      = String (Ascii.ascii_of_nat (Z.to_nat (65 + c'))) ""
        +:+ pretty (r' + 1) +:+ String (Ascii.ascii_of_nat 10) "")
      as [-> H'].
    { destruct Hp as [-> | ->], Hp' as [-> | ->];
        unfold BLACK, WHITE in H; cbn [Z.eqb Pos.eqb] in H.
      - apply (inj (String.app "Black")), (inj (String.app ": ")) in H. done.
      - rewrite (string_cons_app _ _ _) in H.
        rewrite (string_cons_app _ "hite" _) in H. discriminate.
      - rewrite (string_cons_app _ _ _) in H.
        rewrite (string_cons_app _ "lack" _) in H. discriminate.
      - apply (inj (String.app "White")), (inj (String.app ": ")) in H. done. }
    rewrite !string_cons_app in H'. injection H' as Ha H'.
    apply (inj (String.app "")) in H'.
    apply string_snoc_inj in H'. apply (inj pretty) in H'.
    apply (f_equal Ascii.nat_of_ascii) in Ha.
    rewrite !Hemb in Ha by done.
    f_equal. f_equal; lia.
  - exists (Ascii.ascii_of_nat (Z.to_nat (65 + c))). split.
    + by destruct Hp as [-> | ->].
    + rewrite Hemb by done. lia.
Qed.

Lemma move_text_injective_witness :
  (move_text (BLACK, (2, 3)) = move_text (BLACK, (2, 3)) →
   (BLACK, (2, 3)) = (BLACK, (2, 3)))
  ∧ (∃ a, move_text (BLACK, (2, 3))
          = "Black: " +:+ String a (pretty (2 + 1))
            +:+ String (Ascii.ascii_of_nat 10) ""
          ∧ (65 ≤ Ascii.nat_of_ascii a ≤ 90)%nat).
Proof.
  apply (move_text_injective (BLACK, (2, 3)) (BLACK, (2, 3)));
    (split; [by left|cbn; lia]).
Defined.
